(** * obsidian-llm: ingestion pipeline and vector-store lifecycle

  A shallow embedding of the TypeScript sources
    - src/chunker.ts        (chunkFile, embedChunks)
    - src/fileProcessing.ts (handleFileEvent, processFile, deleteFile)
    - src/vectorStore.ts    (storeChunks, cleanupOrphanedVectors, ...)
    - src/search.ts         (searchContent)
    - lib/cache.ts          (saveCache, loadCache)
    - lib/util.ts           (retryWithBackoff)
  together with the properties of the specification that are stated
  about them. *)

From Stdlib Require Import ZArith Ascii String List Bool Lia Floats Sorted.
From Stdlib Require Import DecimalString DecimalFacts DecimalPos.
From stdpp Require Import base option list gmap sets strings.

Set Warnings "-register-all,-abstract-large-number,-inexact-float".

Local Open Scope string_scope.
Local Open Scope Z_scope.
Local Open Scope stdpp_scope.
Local Open Scope list_scope.

(* ===================================================================== *)
(** * JavaScript string primitives *)
(* ===================================================================== *)

(** JavaScript strings are sequences of UTF-16 code units; we represent
  them as Rocq strings (bytes of the UTF-8 encoding).  Every separator
  and pattern used by the sources is ASCII, for which searching the
  UTF-8 bytes and searching the code units find the same places. *)
Module JsString.

(** The line feed character, ["\n"] in the sources. *)
Definition nl : string := String (ascii_of_nat 10) EmptyString.

(** [s.startsWith(p)] *)
Definition startsWith (s p : string) : bool := String.prefix p s.

(** [s.slice(n)] for [0 <= n] *)
Fixpoint dropS (n : nat) (s : string) : string :=
  match n, s with
  | O, _ => s
  | S _, EmptyString => EmptyString
  | S k, String _ s' => dropS k s'
  end.

(** [s.includes(p)] *)
Fixpoint includes (s p : string) : bool :=
  String.prefix p s ||
  match s with
  | EmptyString => false
  | String _ s' => includes s' p
  end.

(** [s.replace(pat, rep)] with a string pattern: only the first
    occurrence is replaced. *)
Fixpoint replaceFirst (pat rep s : string) : string :=
  if String.prefix pat s then rep +:+ dropS (String.length pat) s
  else match s with
       | EmptyString => EmptyString
       | String c s' => String c (replaceFirst pat rep s')
       end.

(** [s.replace(/[cs]/g, rep)]: every character of the class [cls] is
    replaced. *)
Fixpoint replaceChars (cls : ascii -> bool) (rep : string) (s : string)
  : string :=
  match s with
  | EmptyString => EmptyString
  | String c s' =>
      (if cls c then rep else String c EmptyString)
        +:+ replaceChars cls rep s'
  end.

(** [s.split(sep)] for a non-empty separator.  [skip] counts the
    characters of a separator that was just recognised and is still to
    be passed over; [cur] is the current piece, reversed. *)
Fixpoint splitAux (sep : string) (skip : nat) (cur : list ascii)
  (s : string) : list string :=
  match s with
  | EmptyString => [string_of_list_ascii (rev cur)]
  | String c s' =>
      match skip with
      | S k => splitAux sep k cur s'
      | O =>
          if String.prefix sep s
          then string_of_list_ascii (rev cur)
                 :: splitAux sep (String.length sep - 1) [] s'
          else splitAux sep O (c :: cur) s'
      end
  end.

Definition split (s sep : string) : list string := splitAux sep O [] s.

(** [parts.join(sep)] *)
Fixpoint join (sep : string) (parts : list string) : string :=
  match parts with
  | [] => EmptyString
  | [p] => p
  | p :: rest => p +:+ sep +:+ join sep rest
  end.

(** [s.match(/^#+/)?.[0].length ?? 0]: the number of leading ['#']. *)
Fixpoint leadingHashes (s : string) : nat :=
  match s with
  | String "#"%char s' => S (leadingHashes s')
  | _ => O
  end.

End JsString.
Import JsString.

(* ===================================================================== *)
(** * Chunker (src/chunker.ts, chunkFile) *)
(* ===================================================================== *)

Module Chunker.

(** The accumulator of the [reduce] in [chunkFile].  [headingStack] is
    kept with its top (the last array element) FIRST, so that
    [acc.headingStack.pop()] is [tail] and [push] is cons; [chunks] is
    in array order. *)
Record Acc := mkAcc { headingStack : list string; chunks : list string }.

(** [filePath.split("vault/").pop()?.split("/")
      .map(part => part.replace(".md", "")).join(" > ")] *)
Definition fileParts (filePath : string) : string :=
  let tail := List.last (split filePath "vault/") EmptyString in
  join " > " (map (replaceFirst ".md" "") (split tail "/")).

(** The iterations of the [while] loop after the first [pop]: the level
    of an empty stack is [-Infinity] there, which ends the loop. *)
Fixpoint popLoop (headingLevel : nat) (stack : list string)
  : list string :=
  match stack with
  | [] => []
  | top :: rest =>
      if (headingLevel <=? leadingHashes top)%nat
      then popLoop headingLevel rest
      else stack
  end.

(** The whole [while (lastHeadingLevel >= headingLevel)] loop; before
    the first test the level of an empty stack is [0]. *)
Definition closeHeadings (headingLevel : nat) (stack : list string)
  : list string :=
  let lastHeadingLevel :=
    match stack with [] => O | top :: _ => leadingHashes top end in
  if (headingLevel <=? lastHeadingLevel)%nat
  then popLoop headingLevel (tl stack)
  else stack.

(** [acc.headingStack.join("\n")], in array order. *)
Definition stackLines (stack : list string) : string :=
  join nl (rev stack).

(** The reducer: one line of the file. *)
Definition step (fp : string) (acc : Acc) (line : string) : Acc :=
  let chunks0 :=
    match chunks acc with [] => [EmptyString] | cs => cs end in
  if startsWith line "#" then
    let headingLevel := leadingHashes line in
    let stack := line :: closeHeadings headingLevel (headingStack acc) in
    mkAcc stack (chunks0 ++ [fp +:+ nl +:+ stackLines stack])
  else
    mkAcc (headingStack acc)
          (alter (fun c => c +:+ nl +:+ line)
                 (length chunks0 - 1)%nat chunks0).

Definition initAcc : Acc := mkAcc [] [].

Definition isTruthy (s : string) : bool :=
  match s with EmptyString => false | _ => true end.

Definition chunkFile (filePath fileContent : string) : list string :=
  let lines := split fileContent nl in
  filter (fun c => isTruthy c = true)
         (chunks (fold_left (step (fileParts filePath)) lines initAcc)).

End Chunker.

(* ===================================================================== *)
(** * JSON text (the built-ins JSON.stringify and JSON.parse) *)
(* ===================================================================== *)

(** The cache file and the queue file are JSON texts.  The values the
    sources persist hold strings, arrays, objects and integer numbers
    (millisecond timestamps), so numbers are integers here; a number with
    a fraction or an exponent is not read. *)
Module Json.

Inductive Json : Type :=
| JNull
| JBool (b : bool)
| JNumber (z : Z)
| JString (s : string)
| JArray (items : list Json)
| JObject (members : list (string * Json)).

Definition quoteChar : ascii := "034"%char.
Definition backslash : ascii := "092"%char.

Definition hexDigit (n : nat) : ascii :=
  match n with
  | 0 => "0" | 1 => "1" | 2 => "2" | 3 => "3" | 4 => "4" | 5 => "5"
  | 6 => "6" | 7 => "7" | 8 => "8" | 9 => "9" | 10 => "a" | 11 => "b"
  | 12 => "c" | 13 => "d" | 14 => "e" | _ => "f"
  end%nat%char.

(** One character inside a string literal, as QuoteJSONString writes it. *)
Definition escapeChar (c : ascii) : string :=
  let n := nat_of_ascii c in
  if Ascii.eqb c quoteChar then String backslash (String quoteChar EmptyString)
  else if Ascii.eqb c backslash then String backslash (String backslash EmptyString)
  else if (n =? 8)%nat then String backslash "b"
  else if (n =? 12)%nat then String backslash "f"
  else if (n =? 10)%nat then String backslash "n"
  else if (n =? 13)%nat then String backslash "r"
  else if (n =? 9)%nat then String backslash "t"
  else if (n <? 32)%nat then
    String backslash
      (String "u" (String "0" (String "0"
         (String (hexDigit (n / 16)) (String (hexDigit (n mod 16)) EmptyString)))))
  else String c EmptyString.

Fixpoint escape (s : string) : string :=
  match s with
  | EmptyString => EmptyString
  | String c s' => escapeChar c +:+ escape s'
  end.

Definition quote (s : string) : string :=
  String quoteChar (escape s +:+ String quoteChar EmptyString).

(** Decimal text of an integer. *)
Definition numberText (z : Z) : string := NilZero.string_of_int (Z.to_int z).

Fixpoint spaces (n : nat) : string :=
  match n with O => EmptyString | S k => String " " (spaces k) end.

(** The line break and indentation JSON.stringify puts before an item at
    depth [indent]; nothing at all when [gap] is 0. *)
Definition breakAt (gap indent : nat) : string :=
  match gap with O => EmptyString | _ => nl +:+ spaces indent end.

Definition colon (gap : nat) : string :=
  match gap with O => ":" | _ => ": " end.

Fixpoint joinItems (sep : string) (parts : list string) : string :=
  match parts with
  | [] => EmptyString
  | [p] => p
  | p :: rest => p +:+ sep +:+ joinItems sep rest
  end.

(** [JSON.stringify(value, null, gap)], the text of a value that stands
    at indentation [indent]. *)
Fixpoint stringifyAt (gap indent : nat) (j : Json) : string :=
  match j with
  | JNull => "null"
  | JBool true => "true"
  | JBool false => "false"
  | JNumber z => numberText z
  | JString s => quote s
  | JArray [] => "[]"
  | JArray items =>
      "[" +:+ breakAt gap (indent + gap)
        +:+ joinItems ("," +:+ breakAt gap (indent + gap))
              (map (stringifyAt gap (indent + gap)) items)
        +:+ breakAt gap indent +:+ "]"
  | JObject [] => "{}"
  | JObject members =>
      "{" +:+ breakAt gap (indent + gap)
        +:+ joinItems ("," +:+ breakAt gap (indent + gap))
              (map (fun kv : string * Json =>
                      quote (fst kv) +:+ colon gap
                        +:+ stringifyAt gap (indent + gap) (snd kv))
                   members)
        +:+ breakAt gap indent +:+ "}"
  end.

Definition stringify (j : Json) : string := stringifyAt 0 0 j.
Definition stringifyPretty (j : Json) : string := stringifyAt 2 0 j.

(** ** Reading *)

Definition isWs (c : ascii) : bool :=
  let n := nat_of_ascii c in
  (n =? 32)%nat || (n =? 9)%nat || (n =? 10)%nat || (n =? 13)%nat.

Fixpoint skipWs (s : string) : string :=
  match s with
  | String c s' => if isWs c then skipWs s' else s
  | EmptyString => EmptyString
  end.

Definition digitValue (c : ascii) : option nat :=
  let n := nat_of_ascii c in
  if (48 <=? n)%nat && (n <=? 57)%nat then Some (n - 48)%nat else None.

Definition hexValue (c : ascii) : option nat :=
  let n := nat_of_ascii c in
  if (48 <=? n)%nat && (n <=? 57)%nat then Some (n - 48)%nat
  else if (97 <=? n)%nat && (n <=? 102)%nat then Some (n - 87)%nat
  else if (65 <=? n)%nat && (n <=? 70)%nat then Some (n - 55)%nat
  else None.

(** UTF-8 bytes of a code point of the basic plane (a [\uXXXX] escape);
    surrogates are not read. *)
Definition utf8 (cp : nat) : option string :=
  if (cp <? 128)%nat then Some (String (ascii_of_nat cp) EmptyString)
  else if (cp <? 2048)%nat then
    Some (String (ascii_of_nat (192 + cp / 64))
            (String (ascii_of_nat (128 + cp mod 64)) EmptyString))
  else if (55296 <=? cp)%nat && (cp <=? 57343)%nat then None
  else
    Some (String (ascii_of_nat (224 + cp / 4096))
            (String (ascii_of_nat (128 + (cp / 64) mod 64))
               (String (ascii_of_nat (128 + cp mod 64)) EmptyString))).

(** The characters of a string literal after its opening quote, up to
    and including the closing quote. *)
Fixpoint readString (s : string) : option (string * string) :=
  match s with
  | EmptyString => None
  | String c s' =>
      if Ascii.eqb c quoteChar then Some (EmptyString, s')
      else if Ascii.eqb c backslash then
        match s' with
        | String "u" (String h1 (String h2 (String h3 (String h4 s'')))) =>
            match hexValue h1, hexValue h2, hexValue h3, hexValue h4 with
            | Some a, Some b, Some c', Some d =>
                match utf8 (((a * 16 + b) * 16 + c') * 16 + d)%nat,
                      readString s'' with
                | Some bytes, Some (str, rest) => Some (bytes +:+ str, rest)
                | _, _ => None
                end
            | _, _, _, _ => None
            end
        | String e s'' =>
            let plain (x : ascii) :=
              match readString s'' with
              | Some (str, rest) => Some (String x str, rest)
              | None => None
              end in
            if Ascii.eqb e quoteChar then plain quoteChar
            else if Ascii.eqb e backslash then plain backslash
            else if Ascii.eqb e "/" then plain "/"%char
            else if Ascii.eqb e "b" then plain (ascii_of_nat 8)
            else if Ascii.eqb e "f" then plain (ascii_of_nat 12)
            else if Ascii.eqb e "n" then plain (ascii_of_nat 10)
            else if Ascii.eqb e "r" then plain (ascii_of_nat 13)
            else if Ascii.eqb e "t" then plain (ascii_of_nat 9)
            else None
        | EmptyString => None
        end
      else if (nat_of_ascii c <? 32)%nat then None
      else
        match readString s' with
        | Some (str, rest) => Some (String c str, rest)
        | None => None
        end
  end.

(** The longest run of decimal digits at the head of [s], as a number,
    with how many digits it has. *)
Fixpoint readDigits (acc : N) (count : nat) (s : string) : N * nat * string :=
  match s with
  | String c s' =>
      match digitValue c with
      | Some d => readDigits (acc * 10 + N.of_nat d)%N (S count) s'
      | None => (acc, count, s)
      end
  | EmptyString => (acc, count, s)
  end.

Definition startsFraction (s : string) : bool :=
  match s with
  | String c _ => Ascii.eqb c "." || Ascii.eqb c "e" || Ascii.eqb c "E"
  | EmptyString => false
  end.

(** An integer literal: no leading zero before another digit. *)
Definition readNatural (s : string) : option (N * string) :=
  match readDigits 0%N O s with
  | (_, O, _) => None
  | (n, count, rest) =>
      if startsFraction rest then None
      else match s with
           | String "0" _ => if (count =? 1)%nat then Some (n, rest) else None
           | _ => Some (n, rest)
           end
  end.

Definition readNumber (s : string) : option (Z * string) :=
  match s with
  | String "-" s' =>
      match readNatural s' with
      | Some (n, rest) => Some (- Z.of_N n, rest)
      | None => None
      end
  | _ =>
      match readNatural s with
      | Some (n, rest) => Some (Z.of_N n, rest)
      | None => None
      end
  end.

Definition readLiteral (word : string) (v : Json) (s : string)
  : option (Json * string) :=
  if String.prefix word s then Some (v, dropS (String.length word) s)
  else None.

(** Recursive descent; [fuel] bounds the nesting of calls. *)
Fixpoint readValue (fuel : nat) (s : string) {struct fuel}
  : option (Json * string) :=
  match fuel with
  | O => None
  | S f =>
      match skipWs s with
      | EmptyString => None
      | String c s' =>
          if Ascii.eqb c quoteChar then
            match readString s' with
            | Some (str, rest) => Some (JString str, rest)
            | None => None
            end
          else if Ascii.eqb c "[" then
            match skipWs s' with
            | String "]" rest => Some (JArray [], rest)
            | _ =>
                match readElements f s' with
                | Some (items, rest) => Some (JArray items, rest)
                | None => None
                end
            end
          else if Ascii.eqb c "{" then
            match skipWs s' with
            | String "}" rest => Some (JObject [], rest)
            | _ =>
                match readMembers f s' with
                | Some (members, rest) => Some (JObject members, rest)
                | None => None
                end
            end
          else if Ascii.eqb c "t" then readLiteral "true" (JBool true) (String c s')
          else if Ascii.eqb c "f" then readLiteral "false" (JBool false) (String c s')
          else if Ascii.eqb c "n" then readLiteral "null" JNull (String c s')
          else
            match readNumber (String c s') with
            | Some (z, rest) => Some (JNumber z, rest)
            | None => None
            end
      end
  end
with readElements (fuel : nat) (s : string) {struct fuel}
  : option (list Json * string) :=
  match fuel with
  | O => None
  | S f =>
      match readValue f s with
      | Some (v, rest) =>
          match skipWs rest with
          | String "," rest' =>
              match readElements f rest' with
              | Some (vs, rest'') => Some (v :: vs, rest'')
              | None => None
              end
          | String "]" rest' => Some ([v], rest')
          | _ => None
          end
      | None => None
      end
  end
with readMembers (fuel : nat) (s : string) {struct fuel}
  : option (list (string * Json) * string) :=
  match fuel with
  | O => None
  | S f =>
      match skipWs s with
      | String c s1 =>
          if Ascii.eqb c quoteChar then
            match readString s1 with
            | Some (key, s2) =>
                match skipWs s2 with
                | String ":" s3 =>
                    match readValue f s3 with
                    | Some (v, rest) =>
                        match skipWs rest with
                        | String "," rest' =>
                            match readMembers f rest' with
                            | Some (ms, rest'') => Some ((key, v) :: ms, rest'')
                            | None => None
                            end
                        | String "}" rest' => Some ([(key, v)], rest')
                        | _ => None
                        end
                    | None => None
                    end
                | _ => None
                end
            | None => None
            end
          else None
      | EmptyString => None
      end
  end.

(** [JSON.parse(text)] on the texts of this fragment; [None] stands for the
    SyntaxError it throws on a text that is not JSON, and is also the
    answer to JSON outside the fragment (a number with a fraction or an
    exponent, an escape of a surrogate), which the sources never write. *)
Definition parse (text : string) : option Json :=
  match readValue (S (String.length text)) text with
  | Some (v, rest) =>
      match skipWs rest with
      | EmptyString => Some v
      | _ => None
      end
  | None => None
  end.

End Json.

(* ===================================================================== *)
(** * The process and its environment *)
(* ===================================================================== *)

(** ** Values that are thrown *)

(** A thrown value: whether it is an instance of [Error], its [code]
    (set by the file system, the empty string otherwise) and its
    [message]. *)
Record Thrown : Type := mkThrown {
  isErrorInstance : bool;
  errCode : string;
  errMessage : string
}.

(** [new Error(message)] *)
Definition newError (message : string) : Thrown := mkThrown true "" message.

(** The error of a file system call on a path that does not exist. *)
Definition enoent (path : string) : Thrown :=
  mkThrown true "ENOENT" ("ENOENT: no such file or directory, " +:+ path).

(** ** Data model *)

(** A regular file: its text and its modification time, the whole number
    of milliseconds that [stat(path).mtime.getTime()] gives. *)
Record FileNode : Type := mkFile { content : string; mtime : Z }.

(** The value of a field that TypeScript declares [number] and that the
    program fills with a time.  The integers stand for the times in
    milliseconds; [NaN] (the time of an invalid date) and the infinities
    are numbers too; and [null] is what [JSON.parse] gives back for the
    three of them, which [JSON.stringify] writes as [null]. *)
Inductive JsNumber : Type :=
| JsInt (z : Z)
| JsNaN
| JsInfinity (negative : bool)
| JsNull.

Coercion JsInt : Z >-> JsNumber.

(** [a === t] for an integer [t]. *)
Definition sameNumber (a : JsNumber) (t : Z) : bool :=
  match a with
  | JsInt z => z =? t
  | _ => false
  end.

(** lib/cache.ts, [CacheEntry] and [Cache]. *)
Record CacheEntry : Type := mkEntry {
  contentHash : string;
  vectorIds : list string;
  modifiedTime : JsNumber
}.

Abbreviation Cache := (gmap string CacheEntry).

(** A metadata value of a vector record. *)
Inductive MetaValue : Type :=
| MString (s : string)
| MNumber (z : Z)
| MBool (b : bool).

(** The metadata bag of a record ([VectorMetadata] of vectorStore.ts is
    an open [Record<string, any>]).  The key [modifiedTime] is declared
    [modifiedTime?: number] and read arithmetically by the cleanup, so it
    is kept apart with its type; every other key lives in [mdFields]. *)
Record Metadata : Type := mkMetadata {
  mdModifiedTime : option Z;
  mdFields : gmap string MetaValue
}.

(** [metadata[key]]; [None] is [undefined]. *)
Definition metaGet (key : string) (m : Metadata) : option MetaValue :=
  if String.eqb key "modifiedTime" then MNumber <$> mdModifiedTime m
  else mdFields m !! key.

(** [VectorRecord]: an item of the vector index. *)
Record VectorRecord : Type := mkRecord {
  recId : string;
  recVector : list float;
  recMetadata : Metadata
}.

(** A query result of the index. *)
Record Scored : Type := mkScored { item : VectorRecord; score : float }.

(** What one request to the embedding endpoint comes to. *)
Inductive FetchResult : Type :=
| FetchRejected (e : Thrown)              (* fetch itself throws: network, timeout *)
| FetchNotOk (status : Z) (body : string) (* response.ok is false *)
| FetchInvalidJson (e : Thrown)           (* response.json() throws *)
| FetchOtherShape                         (* JSON, but not { embedding: number[] } *)
| FetchEmbedding (v : list float).

(** [QueueEntry] of fileProcessing.ts. *)
Record QueueEntry : Type := mkQueued { event : string; filePath : string }.

(** The in-memory state of vectra's [LocalIndex]. *)
Record LocalIndex : Type := mkIndex {
  created : bool;
  items : list VectorRecord;
  updating : bool
}.

(** A backup directory [backups/backup-<timestamp>] with the two files
    [backupVectorStore] writes into it, each absent until written. *)
Record BackupSnapshot : Type := mkSnapshot {
  snapTime : Z;
  snapCache : option Cache;
  snapVectors : option (list VectorRecord)
}.

Inductive LogLevel : Type := LInfo | LWarn | LError | LRetrying | LSkipped.

Record LogLine : Type := mkLog { logLevel : LogLevel; logText : string }.

(** External services, fixed during a run. *)
Record Env : Type := mkEnv {
  (** [crypto.createHash("sha256").update(s).digest("hex")] *)
  sha256hex : string -> string;
  (** [path.relative(process.cwd(), p)] *)
  relativeToCwd : string -> string;
  (** the outcome of the [n]-th request to [/api/embeddings], by prompt *)
  backend : nat -> string -> FetchResult;
  (** vectra's [queryItems(vector, query, topK, undefined, true)] over the
      items of the index *)
  queryEngine : list VectorRecord -> list float -> string -> nat
                -> Thrown + list Scored
}.

(** Everything the modules keep in module-level variables, and the part
    of the machine they touch. *)
Record World : Type := mkWorld {
  env : Env;
  (* the machine: files by their path from the working directory, without
     the file of the index and the folders of the backups, which the
     fields [index] and [backups] stand for *)
  files : gmap string FileNode;
  dirs : gset string;
  now : Z;
  fetchCount : nat;
  (* lib/rateLimiter.ts *)
  timestamps : list Z;
  (* lib/cache.ts *)
  cacheLock : bool;
  (* src/vectorStore.ts *)
  index : LocalIndex;
  vectorStoreLock : bool;
  vectorStoreLockTimeout : bool;   (* the variable holds a timer handle *)
  lockTimer : option Z;            (* when that timer fires, unless it is cleared first *)
  operationCount : N;
  lastBackupTime : Z;
  backups : list BackupSnapshot;
  (* src/fileProcessing.ts *)
  fileQueue : list QueueEntry;
  isProcessingFile : bool;
  (* lib/logging.ts: what was passed to the logger, oldest first *)
  logged : list LogLine
}.

Definition setFiles (f : gmap string FileNode) (w : World) : World :=
  mkWorld (env w) f (dirs w) (now w) (fetchCount w) (timestamps w)
    (cacheLock w) (index w) (vectorStoreLock w) (vectorStoreLockTimeout w)
    (lockTimer w) (operationCount w) (lastBackupTime w) (backups w)
    (fileQueue w) (isProcessingFile w) (logged w).
Definition setDirs (d : gset string) (w : World) : World :=
  mkWorld (env w) (files w) d (now w) (fetchCount w) (timestamps w)
    (cacheLock w) (index w) (vectorStoreLock w) (vectorStoreLockTimeout w)
    (lockTimer w) (operationCount w) (lastBackupTime w) (backups w)
    (fileQueue w) (isProcessingFile w) (logged w).
Definition setNow (t : Z) (w : World) : World :=
  mkWorld (env w) (files w) (dirs w) t (fetchCount w) (timestamps w)
    (cacheLock w) (index w) (vectorStoreLock w) (vectorStoreLockTimeout w)
    (lockTimer w) (operationCount w) (lastBackupTime w) (backups w)
    (fileQueue w) (isProcessingFile w) (logged w).
Definition setFetchCount (n : nat) (w : World) : World :=
  mkWorld (env w) (files w) (dirs w) (now w) n (timestamps w)
    (cacheLock w) (index w) (vectorStoreLock w) (vectorStoreLockTimeout w)
    (lockTimer w) (operationCount w) (lastBackupTime w) (backups w)
    (fileQueue w) (isProcessingFile w) (logged w).
Definition setTimestamps (ts : list Z) (w : World) : World :=
  mkWorld (env w) (files w) (dirs w) (now w) (fetchCount w) ts
    (cacheLock w) (index w) (vectorStoreLock w) (vectorStoreLockTimeout w)
    (lockTimer w) (operationCount w) (lastBackupTime w) (backups w)
    (fileQueue w) (isProcessingFile w) (logged w).
Definition setCacheLock (b : bool) (w : World) : World :=
  mkWorld (env w) (files w) (dirs w) (now w) (fetchCount w) (timestamps w)
    b (index w) (vectorStoreLock w) (vectorStoreLockTimeout w)
    (lockTimer w) (operationCount w) (lastBackupTime w) (backups w)
    (fileQueue w) (isProcessingFile w) (logged w).
Definition setIndex (i : LocalIndex) (w : World) : World :=
  mkWorld (env w) (files w) (dirs w) (now w) (fetchCount w) (timestamps w)
    (cacheLock w) i (vectorStoreLock w) (vectorStoreLockTimeout w)
    (lockTimer w) (operationCount w) (lastBackupTime w) (backups w)
    (fileQueue w) (isProcessingFile w) (logged w).
Definition setLock (held handle : bool) (timer : option Z) (w : World) : World :=
  mkWorld (env w) (files w) (dirs w) (now w) (fetchCount w) (timestamps w)
    (cacheLock w) (index w) held handle timer
    (operationCount w) (lastBackupTime w) (backups w)
    (fileQueue w) (isProcessingFile w) (logged w).
Definition setOperationCount (n : N) (w : World) : World :=
  mkWorld (env w) (files w) (dirs w) (now w) (fetchCount w) (timestamps w)
    (cacheLock w) (index w) (vectorStoreLock w) (vectorStoreLockTimeout w)
    (lockTimer w) n (lastBackupTime w) (backups w)
    (fileQueue w) (isProcessingFile w) (logged w).
Definition setLastBackupTime (t : Z) (w : World) : World :=
  mkWorld (env w) (files w) (dirs w) (now w) (fetchCount w) (timestamps w)
    (cacheLock w) (index w) (vectorStoreLock w) (vectorStoreLockTimeout w)
    (lockTimer w) (operationCount w) t (backups w)
    (fileQueue w) (isProcessingFile w) (logged w).
Definition setBackups (b : list BackupSnapshot) (w : World) : World :=
  mkWorld (env w) (files w) (dirs w) (now w) (fetchCount w) (timestamps w)
    (cacheLock w) (index w) (vectorStoreLock w) (vectorStoreLockTimeout w)
    (lockTimer w) (operationCount w) (lastBackupTime w) b
    (fileQueue w) (isProcessingFile w) (logged w).
Definition setFileQueue (q : list QueueEntry) (w : World) : World :=
  mkWorld (env w) (files w) (dirs w) (now w) (fetchCount w) (timestamps w)
    (cacheLock w) (index w) (vectorStoreLock w) (vectorStoreLockTimeout w)
    (lockTimer w) (operationCount w) (lastBackupTime w) (backups w)
    q (isProcessingFile w) (logged w).
Definition setIsProcessingFile (b : bool) (w : World) : World :=
  mkWorld (env w) (files w) (dirs w) (now w) (fetchCount w) (timestamps w)
    (cacheLock w) (index w) (vectorStoreLock w) (vectorStoreLockTimeout w)
    (lockTimer w) (operationCount w) (lastBackupTime w) (backups w)
    (fileQueue w) b (logged w).
Definition setLogged (l : list LogLine) (w : World) : World :=
  mkWorld (env w) (files w) (dirs w) (now w) (fetchCount w) (timestamps w)
    (cacheLock w) (index w) (vectorStoreLock w) (vectorStoreLockTimeout w)
    (lockTimer w) (operationCount w) (lastBackupTime w) (backups w)
    (fileQueue w) (isProcessingFile w) l.

(** ** Computations *)

(** How a call ends: it returns, it throws, or it never comes back (the
    recursion budget of the model ran out, or it waits for something no
    other task of the model will do). *)
Inductive Outcome (A : Type) : Type :=
| Returned (a : A)
| Threw (e : Thrown)
| Diverged.
Arguments Returned {A} a.
Arguments Threw {A} e.
Arguments Diverged {A}.

(** An asynchronous function run to completion: a state transformer with
    an outcome.  State changes made before a throw persist. *)
Definition M (A : Type) : Type := World -> Outcome A * World.

Definition ret {A} (a : A) : M A := fun w => (Returned a, w).
Definition throw {A} (e : Thrown) : M A := fun w => (Threw e, w).
Definition diverge {A} : M A := fun w => (Diverged, w).

Definition bind {A B} (m : M A) (k : A -> M B) : M B :=
  fun w =>
    match m w with
    | (Returned a, w') => k a w'
    | (Threw e, w') => (Threw e, w')
    | (Diverged, w') => (Diverged, w')
    end.

#[global] Instance M_ret : MRet M := @ret.
#[global] Instance M_bind : MBind M := fun A B k m => bind m k.

(** [try { m } catch (e) { h e }] *)
Definition tryCatch {A} (m : M A) (h : Thrown -> M A) : M A :=
  fun w =>
    match m w with
    | (Threw e, w') => h e w'
    | r => r
    end.

(** [try { m } finally { fin }]: the outcome of [m] stands unless [fin]
    itself throws. *)
Definition tryFinally {A} (m : M A) (fin : M unit) : M A :=
  fun w =>
    match m w with
    | (Diverged, w') => (Diverged, w')
    | (r, w') =>
        match fin w' with
        | (Returned _, w'') => (r, w'')
        | (Threw e, w'') => (Threw e, w'')
        | (Diverged, w'') => (Diverged, w'')
        end
    end.

Definition gets {A} (f : World -> A) : M A := fun w => (Returned (f w), w).
Definition modify (f : World -> World) : M unit := fun w => (Returned tt, f w).

(** A [for ... of] loop that collects nothing. *)
Fixpoint forEach {A} (body : A -> M unit) (l : list A) : M unit :=
  match l with
  | [] => ret tt
  | x :: rest => body x ;; forEach body rest
  end.

(** ** lib/logging.ts *)

(** The log keeps the lines that report an error, a warning, a retry or a
    skip, and the [logInfo] lines of the chunker and of the file
    processing.  The progress lines ([logStatus], [logDebug], [logSuccess],
    [logProcessStart], [logProcessEnd], and the [logInfo] lines of the
    vector store) print and change nothing else; they are left out. *)
Definition logLine (lv : LogLevel) (msg : string) : M unit :=
  modify (fun w => setLogged (logged w ++ [mkLog lv msg]) w).

(** [logProcessError(processName, error)] *)
Definition logProcessError (processName : string) (e : Thrown) : M unit :=
  logLine LError ("Failed: " +:+ processName).
Definition logWarning (msg : string) : M unit := logLine LWarn msg.
Definition logInfo (msg : string) : M unit := logLine LInfo msg.
Definition logProcessRetrying (processName : string) : M unit :=
  logLine LRetrying ("Retrying: " +:+ processName).
Definition logProcessSkipped (processName : string) : M unit :=
  logLine LSkipped ("Skipped: " +:+ processName).

(** ** Timers and the file system *)

(** [await new Promise(resolve => setTimeout(resolve, ms))] *)
Definition sleep (ms : Z) : M unit :=
  modify (fun w => setNow (now w + Z.max 0 ms) w).

(** File system calls fail only for the reason their callers test for, a
    path that does not exist; failures of the device are not part of the
    model. *)
Definition readFile (path : string) : M string :=
  fun w =>
    match files w !! path with
    | Some f => (Returned (content f), w)
    | None => (Threw (enoent path), w)
    end.

Definition writeFile (path data : string) : M unit :=
  modify (fun w => setFiles (<[path := mkFile data (now w)]> (files w)) w).

Definition rename (src dst : string) : M unit :=
  fun w =>
    match files w !! src with
    | Some f => (Returned tt, setFiles (<[dst := f]> (delete src (files w))) w)
    | None => (Threw (enoent src), w)
    end.

Definition unlink (path : string) : M unit :=
  fun w =>
    match files w !! path with
    | Some _ => (Returned tt, setFiles (delete path (files w)) w)
    | None => (Threw (enoent path), w)
    end.

(** [stat(path)], of which only [mtime.getTime()] is used. *)
Definition statMtime (path : string) : M Z :=
  fun w =>
    match files w !! path with
    | Some f => (Returned (mtime f), w)
    | None => (Threw (enoent path), w)
    end.

(** [access(path)]: the path names a file or a directory. *)
Definition access (path : string) : M unit :=
  fun w =>
    if bool_decide (is_Some (files w !! path)) || bool_decide (path ∈ dirs w)
    then (Returned tt, w)
    else (Threw (enoent path), w).

(** [mkdir(path, { recursive: true })] *)
Definition mkdir (path : string) : M unit :=
  modify (fun w => setDirs ({[path]} ∪ dirs w) w).

(* ===================================================================== *)
(** * Change cache (lib/cache.ts) *)
(* ===================================================================== *)

Definition VECTOR_STORE_DIR : string := "db".
Definition CACHE_FILE_PATH : string := ".cache.json".

(** ** The cache as JSON *)

(** What [JSON.stringify] makes of a number: [NaN] and the infinities
    become [null]. *)
Definition numberToJson (n : JsNumber) : Json.Json :=
  match n with
  | JsInt z => Json.JNumber z
  | _ => Json.JNull
  end.

Definition entryToJson (e : CacheEntry) : Json.Json :=
  Json.JObject
    [("contentHash", Json.JString (contentHash e));
     ("vectorIds", Json.JArray (map Json.JString (vectorIds e)));
     ("modifiedTime", numberToJson (modifiedTime e))].

Definition cacheToJson (c : Cache) : Json.Json :=
  Json.JObject (map (fun kv => (fst kv, entryToJson (snd kv))) (map_to_list c)).

(** [obj[key]] of a parsed object: a repeated key keeps its last value. *)
Fixpoint memberLookup (key : string) (members : list (string * Json.Json))
  : option Json.Json :=
  match members with
  | [] => None
  | (k, v) :: rest =>
      match memberLookup key rest with
      | Some v' => Some v'
      | None => if String.eqb k key then Some v else None
      end
  end.

Definition stringOfJson (j : Json.Json) : option string :=
  match j with Json.JString s => Some s | _ => None end.

(** [JSON.parse(data) as Cache] asserts the shape without a test; a text
    of another shape is outside the typed model and read as a failure. *)
Definition entryOfJson (j : Json.Json) : option CacheEntry :=
  match j with
  | Json.JObject fields =>
      match memberLookup "contentHash" fields,
            memberLookup "vectorIds" fields,
            memberLookup "modifiedTime" fields with
      | Some (Json.JString h), Some (Json.JArray ids), Some (Json.JNumber t) =>
          ids' ← mapM stringOfJson ids; Some (mkEntry h ids' (JsInt t))
      | Some (Json.JString h), Some (Json.JArray ids), Some Json.JNull =>
          ids' ← mapM stringOfJson ids; Some (mkEntry h ids' JsNull)
      | _, _, _ => None
      end
  | _ => None
  end.

Fixpoint membersToCache (members : list (string * Json.Json)) (acc : Cache)
  : option Cache :=
  match members with
  | [] => Some acc
  | (k, v) :: rest =>
      e ← entryOfJson v; membersToCache rest (<[k := e]> acc)
  end.

Definition cacheOfJson (j : Json.Json) : option Cache :=
  match j with
  | Json.JObject members => membersToCache members ∅
  | _ => None
  end.

Definition syntaxError : Thrown :=
  mkThrown true "" "Unexpected token in JSON".

(** [JSON.parse(data) as Cache] *)
Definition decodeCache (data : string) : option Cache :=
  Json.parse data ≫= cacheOfJson.

(** [JSON.stringify(cache, null, 2)] *)
Definition encodeCache (cache : Cache) : string :=
  Json.stringifyPretty (cacheToJson cache).

(** ** saveCache, loadCache *)

(** [while (cacheLock) { await sleep(100) }]: within one task nothing
    else clears the flag, so a set flag is waited for without end. *)
Definition waitForCacheLock : M unit :=
  fun w => if cacheLock w then (Diverged, w) else (Returned tt, w).

Definition ignoreErrors (m : M unit) : M unit :=
  tryCatch m (fun _ => ret tt).

Definition saveCache (cache : Cache) : M unit :=
  waitForCacheLock ;;
  modify (setCacheLock true) ;;
  tryFinally
    (tryCatch
       (mkdir VECTOR_STORE_DIR ;;
        let tempPath := CACHE_FILE_PATH +:+ ".tmp" in
        let backupPath := CACHE_FILE_PATH +:+ ".bak" in
        let cacheData := encodeCache cache in
        tryCatch
          (writeFile tempPath cacheData ;;
           writtenData ← readFile tempPath ;
           (if String.eqb writtenData cacheData then ret tt
            else throw (newError
                   "Cache verification failed: written data doesn't match")) ;;
           ignoreErrors (rename CACHE_FILE_PATH backupPath) ;;
           rename tempPath CACHE_FILE_PATH ;;
           ignoreErrors (unlink backupPath))
          (fun error =>
             ignoreErrors (rename backupPath CACHE_FILE_PATH) ;;
             throw error))
       (fun error => logProcessError "Error saving cache:" error ;; throw error))
    (modify (setCacheLock false)).

Definition loadCache : M Cache :=
  waitForCacheLock ;;
  modify (setCacheLock true) ;;
  tryFinally
    (tryCatch
       (mkdir VECTOR_STORE_DIR ;;
        tryCatch
          (data ← readFile CACHE_FILE_PATH ;
           match decodeCache data with
           | Some cache => ret cache
           | None => throw syntaxError
           end)
          (fun error =>
             if String.eqb (errCode error) "ENOENT" then ret (∅ : Cache)
             else throw error))
       (fun error => logProcessError "Error loading cache:" error ;; throw error))
    (modify (setCacheLock false)).

(** The world [loadCache] leaves behind: the directory of the store
    exists, nothing else has changed. *)
Definition afterLoad (w : World) : World :=
  setCacheLock false
    (setDirs ({[VECTOR_STORE_DIR]} ∪ dirs w) (setCacheLock true w)).

(** The files [saveCache] leaves behind: the cache file holds the new
    text, and neither the temporary file nor the backup file exists. *)
Definition filesAfterSave (cache : Cache) (w : World) : gmap string FileNode :=
  delete (CACHE_FILE_PATH +:+ ".bak")
    (<[CACHE_FILE_PATH := mkFile (encodeCache cache) (now w)]>
       (delete (CACHE_FILE_PATH +:+ ".tmp") (files w))).

Definition afterSave (cache : Cache) (w : World) : World :=
  setCacheLock false
    (setFiles (filesAfterSave cache w)
       (setDirs ({[VECTOR_STORE_DIR]} ∪ dirs w) (setCacheLock true w))).

(* ===================================================================== *)
(** * Rate limiter (lib/rateLimiter.ts) and retry (lib/util.ts) *)
(* ===================================================================== *)

Definition RATE_maxRequests : nat := 10.
Definition RATE_timeWindow : Z := 1000.

(** [cleanup()] *)
Definition rateCleanup : M unit :=
  modify (fun w =>
    setTimestamps
      (filter (fun time => now w - time < RATE_timeWindow) (timestamps w)) w).

(** [rateLimiter.waitForSlot()] *)
Definition waitForSlot : M unit :=
  rateCleanup ;;
  t ← gets now ;
  ts ← gets timestamps ;
  (if (RATE_maxRequests <=? length ts)%nat then
     let oldestTimestamp := hd 0 ts in
     sleep (RATE_timeWindow - (t - oldestTimestamp))
   else ret tt) ;;
  modify (fun w => setTimestamps (timestamps w ++ [t]) w).

Record RetryConfig : Type := mkRetry {
  maxRetries : nat;
  initialDelay : Z;
  maxDelay : Z;
  factor : Z
}.

Definition defaultRetry : RetryConfig := mkRetry 3 1000 10000 2.

(** The [for] loop of [retryWithBackoff] from an attempt that has
    [left] retries after it. *)
Fixpoint retryFrom {A} (config : RetryConfig) (operation : M A)
  (left : nat) (delay : Z) : M A :=
  tryCatch operation
    (fun lastError =>
       match left with
       | O =>
           throw (newError
             ("Operation failed after "
                +:+ Json.numberText (Z.of_nat (maxRetries config))
                +:+ " retries: " +:+ errMessage lastError))
       | S left' =>
           logProcessRetrying "Operation" ;;
           sleep delay ;;
           retryFrom config operation left'
             (Z.min (delay * factor config) (maxDelay config))
       end).

Definition retryWithBackoff {A} (operation : M A) : M A :=
  retryFrom defaultRetry operation (maxRetries defaultRetry)
    (initialDelay defaultRetry).

(* ===================================================================== *)
(** * Embedder (src/chunker.ts embedChunks, src/ollama.ts) *)
(* ===================================================================== *)

(** The fields of [API_CONFIG] the pipeline reads. *)
Definition API_fallbackModels : list string := [].
Definition API_vectorDimensions : nat := 768.

(** [{ embedding, text }] *)
Record Embedded : Type := mkEmbedded { embedding : list float; text : string }.

(** One [fetch] of [/api/embeddings]: the environment answers, and the
    number of requests made so far goes up. *)
Definition fetchEmbeddings (prompt : string) : M FetchResult :=
  fun w => (Returned (backend (env w) (fetchCount w) prompt),
            setFetchCount (S (fetchCount w)) w).

Definition validateVectorDimensions (vector : list float) : bool :=
  (length vector =? API_vectorDimensions)%nat.

Definition notOkMessage (status : Z) (body : string) : string :=
  "Ollama API request failed with status " +:+ Json.numberText status
    +:+ ": " +:+ body.

(** The operation [embedChunks] hands to [retryWithBackoff]. *)
Definition embedOperation (chunk : string) : M (list float) :=
  r ← fetchEmbeddings chunk ;
  match r with
  | FetchRejected e => throw e
  | FetchNotOk status body => throw (newError (notOkMessage status body))
  | FetchInvalidJson e => throw e
  | FetchOtherShape =>
      throw (newError "Invalid embedding format received from Ollama")
  | FetchEmbedding v =>
      if validateVectorDimensions v then ret v
      else throw (newError "Vector dimension mismatch")
  end.

(** The operation of [queryOllama]: no check of the dimension. *)
Definition queryOperation (query : string) : M (list float) :=
  r ← fetchEmbeddings query ;
  match r with
  | FetchRejected e => throw e
  | FetchNotOk status body => throw (newError (notOkMessage status body))
  | FetchInvalidJson e => throw e
  | FetchOtherShape =>
      throw (newError "Invalid response format from Ollama API")
  | FetchEmbedding v => ret v
  end.

Definition queryOllama (query : string) : M (list float) :=
  retryWithBackoff (queryOperation query).

(** The loop [for (attempts = 0; attempts <= fallbackModels.length; ...)]
    with [remaining] iterations to go; [inl] carries the embedding that
    ended it, [inr] the last error when every attempt failed. *)
Fixpoint attemptLoop (chunk : string) (remaining : nat)
  (lastError : option Thrown) : M (list float + option Thrown) :=
  match remaining with
  | O => ret (inr lastError)
  | S remaining' =>
      r ← tryCatch
            (waitForSlot ;;
             embedding ← retryWithBackoff (embedOperation chunk) ;
             ret (inl embedding))
            (fun error =>
               logProcessError "Chunk Embedding" error ;;
               (if (0 <? remaining')%nat
                then logProcessRetrying "Chunk Embedding" else ret tt) ;;
               ret (inr error)) ;
      match r with
      | inl embedding => ret (inl embedding)
      | inr error => attemptLoop chunk remaining' (Some error)
      end
  end.

(** The loop [for (const [index, chunk] of chunks.entries())]: the
    results and the failed chunks it pushes, each in input order. *)
Fixpoint embedPass (chunks : list string)
  : M (list Embedded * list (string * option Thrown)) :=
  match chunks with
  | [] => ret ([], [])
  | chunk :: rest =>
      r ← attemptLoop chunk (S (length API_fallbackModels)) None ;
      match r with
      | inl embedding =>
          '(results, failedChunks) ← embedPass rest ;
          ret (mkEmbedded embedding chunk :: results, failedChunks)
      | inr lastError =>
          logWarning "Failed to embed chunk after all attempts" ;;
          '(results, failedChunks) ← embedPass rest ;
          ret (results, (chunk, lastError) :: failedChunks)
      end
  end.

(** [embedChunks]; [fuel] bounds the depth of its calls to itself. *)
Fixpoint embedChunks (fuel : nat) (chunks : list string) : M (list Embedded) :=
  match fuel with
  | O => diverge
  | S fuel' =>
      match chunks with
      | [] => logInfo "No chunks to embed" ;; ret []
      | _ =>
          pass ← embedPass chunks ;
          let results := fst pass in
          let failedChunks := snd pass in
          match failedChunks with
          | [] => ret results
          | _ =>
              logWarning "Retrying failed chunks" ;;
              retryResults ← embedChunks fuel' (map fst failedChunks) ;
              ret (results ++ retryResults)
          end
      end
  end.

(* ===================================================================== *)
(** * The vector index (vectra's LocalIndex, used through its interface) *)
(* ===================================================================== *)

(** The library is not part of the repository; the operations below
    state the behaviour its callers rely on, on the items the index holds
    in memory.  Ids are unique in an index ([insertItem] refuses a second
    item with an id), and an operation outside an update runs in an update
    of its own, which needs the index to exist.  The file the library
    keeps in the directory of the store is not among [files]: the field
    [index] stands for it. *)

Definition setItems (l : list VectorRecord) (i : LocalIndex) : LocalIndex :=
  mkIndex (created i) l (updating i).

Definition hasId (id : string) (r : VectorRecord) : bool :=
  String.eqb (recId r) id.

Definition indexMissing : Thrown := newError "Index does not exist".

Definition isIndexCreated : M bool := gets (fun w => created (index w)).

Definition createIndex : M unit :=
  fun w =>
    if created (index w) then (Threw (newError "Index already exists"), w)
    else (Returned tt, setIndex (mkIndex true [] (updating (index w))) w).

Definition deleteIndex : M unit :=
  modify (fun w => setIndex (mkIndex false [] (updating (index w))) w).

Definition beginUpdate : M unit :=
  fun w =>
    if updating (index w)
    then (Threw (newError "Update already in progress"), w)
    else if created (index w)
    then (Returned tt, setIndex (mkIndex true (items (index w)) true) w)
    else (Threw indexMissing, w).

Definition endUpdate : M unit :=
  fun w =>
    if updating (index w)
    then (Returned tt,
          setIndex (mkIndex (created (index w)) (items (index w)) false) w)
    else (Threw (newError "No update in progress"), w).

Definition listItems : M (list VectorRecord) :=
  fun w =>
    if created (index w) then (Returned (items (index w)), w)
    else (Threw indexMissing, w).

Definition getItem (id : string) : M (option VectorRecord) :=
  fun w =>
    if created (index w)
    then (Returned (List.find (hasId id) (items (index w))), w)
    else (Threw indexMissing, w).

Definition insertItem (r : VectorRecord) : M unit :=
  fun w =>
    if updating (index w) || created (index w) then
      if existsb (hasId (recId r)) (items (index w))
      then (Threw (newError ("Item with id " +:+ recId r +:+ " already exists")), w)
      else (Returned tt, setIndex (setItems (items (index w) ++ [r]) (index w)) w)
    else (Threw indexMissing, w).

Definition deleteItem (id : string) : M unit :=
  fun w =>
    if updating (index w) || created (index w) then
      (Returned tt,
       setIndex (setItems (List.filter (fun r => negb (hasId id r))
                             (items (index w))) (index w)) w)
    else (Threw indexMissing, w).

(** [queryItems(vector, query, topK, undefined, true)]: the ranking is
    the library's own; the environment gives its answer or its error. *)
Definition queryItems (vector : list float) (query : string) (topK : nat)
  : M (list Scored) :=
  fun w =>
    if created (index w) then
      match queryEngine (env w) (items (index w)) vector query topK with
      | inl e => (Threw e, w)
      | inr results => (Returned results, w)
      end
    else (Threw indexMissing, w).

(* ===================================================================== *)
(** * Vector store management (src/vectorStore.ts) *)
(* ===================================================================== *)

Definition maxOrphanedAge : Z := 1 * 24 * 60 * 60 * 1000.
Definition optimizationThreshold : N := 100000.
Definition backupInterval : Z := 24 * 60 * 60 * 1000.
Definition maxBackups : nat := 7.

Definition TEXT_FILES_DIR : string := VECTOR_STORE_DIR +:+ "/text_files".

(** [getAllVectorIds]: the ids of every entry of the cache, as a set. *)
Definition allVectorIds (cache : Cache) : gset string :=
  list_to_set (concat (map (fun kv => vectorIds (snd kv)) (map_to_list cache))).

Definition getAllVectorIds : M (gset string) :=
  cache ← loadCache ; ret (allVectorIds cache).

(** [acquireLock(timeout = 5000)].  A free lock is taken at once, and the
    timer that frees it after [timeout] is started.  A held lock is polled
    every 100 ms, and the poll gives up at the first look later than
    [timeout] after its start.  Only the timer frees a held lock while the
    caller waits: the flag is found down at the first look at or after
    the time the timer is due (a timer due earlier has fired by then).
    With no timer nothing frees the lock. *)
Definition lockTimeout : Z := 5000.

(** The time from [start] to the first look of the poll at or after [due]. *)
Definition pollsUntil (start due : Z) : Z :=
  100 * ((Z.max 0 (due - start) + 99) / 100).

Definition acquireLock : M bool :=
  fun w =>
    let start := now w in
    if vectorStoreLock w then
      match lockTimer w with
      | Some due =>
          if due - start <=? lockTimeout + 100 then
            let t := start + pollsUntil start due in
            (Returned true, setLock true true (Some (t + lockTimeout)) (setNow t w))
          else (Returned false, setNow (start + lockTimeout + 100) w)
      | None => (Returned false, setNow (start + lockTimeout + 100) w)
      end
    else (Returned true, setLock true true (Some (start + lockTimeout)) w).

(** [releaseLock()] *)
Definition releaseLock : M unit :=
  modify (setLock false false None).

Definition lockError : Thrown :=
  newError "Failed to acquire vector store lock within timeout".

(** [normalizePathForStorage] *)
Definition isPathSeparator (c : ascii) : bool :=
  Ascii.eqb c "\" || Ascii.eqb c "/" || Ascii.eqb c ":".

Definition normalizePathForStorage (path : string) : string :=
  replaceChars isPathSeparator "_" (replaceFirst "vault/" "" path).

(** The body of the loop of [cleanupOrphanedVectors] for one record. *)
Definition cleanupOne (cacheIds : gset string) (t : Z) (vector : VectorRecord)
  : M unit :=
  if bool_decide (recId vector ∈ cacheIds) then ret tt
  else
    let filePath := hd EmptyString (split (recId vector) "::") in
    tryCatch
      (access filePath)
      (fun _ =>
         let modifiedTime := default t (mdModifiedTime (recMetadata vector)) in
         let vectorAge := t - modifiedTime in
         if vectorAge <? maxOrphanedAge then ret tt
         else deleteItem (recId vector)).

Definition cleanupOrphanedVectors : M unit :=
  lockAcquired ← acquireLock ;
  if negb lockAcquired then
    logProcessError "Vector Store Lock" lockError ;; throw lockError
  else
    tryFinally
      (tryCatch
         (cacheIds ← getAllVectorIds ;
          allVectors ← listItems ;
          t ← gets now ;
          forEach (cleanupOne cacheIds t) allVectors)
         (fun error =>
            logProcessError "Orphaned Vector Cleanup" error ;; throw error))
      releaseLock.

Definition optimizeVectorStore : M unit :=
  lockAcquired ← acquireLock ;
  if negb lockAcquired then
    logProcessError "Vector Store Lock" lockError ;; throw lockError
  else
    tryFinally
      (tryCatch
         (beginUpdate ;;
          allVectors ← listItems ;
          deleteIndex ;;
          createIndex ;;
          forEach insertItem allVectors ;;
          endUpdate ;;
          modify (setOperationCount 0%N))
         (fun error =>
            logProcessError "Vector Store Optimization" error ;; throw error))
      releaseLock.

(** ** Backups *)

(** The directories of [BACKUP_DIR] are kept as snapshots; the time of a
    snapshot stands for its name and for the modification time that
    [cleanupBackups] sorts by. *)
Definition ensureSnapshot (t : Z) (bs : list BackupSnapshot)
  : list BackupSnapshot :=
  if existsb (fun b => snapTime b =? t) bs then bs
  else bs ++ [mkSnapshot t None None].

Definition writeSnapshotCache (t : Z) (c : Cache) (bs : list BackupSnapshot)
  : list BackupSnapshot :=
  map (fun b => if snapTime b =? t
                then mkSnapshot t (Some c) (snapVectors b) else b) bs.

Definition writeSnapshotVectors (t : Z) (vs : list VectorRecord)
  (bs : list BackupSnapshot) : list BackupSnapshot :=
  map (fun b => if snapTime b =? t
                then mkSnapshot t (snapCache b) (Some vs) else b) bs.

(** [sort((a, b) => b.time - a.time)]: newest first, stable. *)
Fixpoint insertNewestFirst (b : BackupSnapshot) (sorted : list BackupSnapshot)
  : list BackupSnapshot :=
  match sorted with
  | [] => [b]
  | x :: rest =>
      if snapTime x <? snapTime b then b :: sorted
      else x :: insertNewestFirst b rest
  end.

Definition sortNewestFirst (bs : list BackupSnapshot) : list BackupSnapshot :=
  fold_right insertNewestFirst [] bs.

Definition cleanupBackups : M unit :=
  modify (fun w =>
    if (maxBackups <? length (backups w))%nat
    then setBackups (firstn maxBackups (sortNewestFirst (backups w))) w
    else w).

Definition backupVectorStore : M unit :=
  t ← gets now ;
  last ← gets lastBackupTime ;
  if t - last <? backupInterval then ret tt
  else
    tryCatch
      (modify (fun w => setBackups (ensureSnapshot t (backups w)) w) ;;
       cache ← loadCache ;
       modify (fun w => setBackups (writeSnapshotCache t cache (backups w)) w) ;;
       allVectors ← listItems ;
       modify (fun w =>
         setBackups (writeSnapshotVectors t allVectors (backups w)) w) ;;
       cleanupBackups ;;
       modify (setLastBackupTime t))
      (fun error =>
         logProcessError "Vector Store Backup" error ;;
         logWarning "Continuing without backup").

(** ** storeChunks *)

(** [`${relativePath}::${index}`] *)
Definition chunkIdOf (relativePath : string) (index : nat) : string :=
  relativePath +:+ "::" +:+ Json.numberText (Z.of_nat index).

(** The record [vectorData] built for one chunk. *)
Definition vectorData (chunkId : string) (chunk : Embedded) : VectorRecord :=
  let sanitizedPath := normalizePathForStorage chunkId in
  mkRecord chunkId (embedding chunk)
    (mkMetadata None {[ "documentId" := MString ("text_files/" +:+ sanitizedPath) ]}).

(** One iteration of [for (const [index, chunk] of embeddedChunks.entries())]. *)
Definition storeOne (filePath : string) (index : nat) (chunk : Embedded)
  : M string :=
  rel ← gets (fun w => relativeToCwd (env w) filePath) ;
  let chunkId := chunkIdOf rel index in
  tryCatch
    (let textContent := text chunk in
     let sanitizedPath := normalizePathForStorage chunkId in
     let textFilePath := TEXT_FILES_DIR +:+ "/" +:+ sanitizedPath +:+ ".txt" in
     writeFile textFilePath textContent ;;
     existingVector ← getItem chunkId ;
     match existingVector with
     | Some _ => deleteItem chunkId ;; insertItem (vectorData chunkId chunk)
     | None => insertItem (vectorData chunkId chunk)
     end ;;
     modify (fun w => setOperationCount (operationCount w + 1)%N w) ;;
     ret chunkId)
    (fun error => logProcessError "Chunk Processing" error ;; throw error).

(** The whole loop, from position [index] on; it returns the ids it
    pushed on [generatedIds]. *)
Fixpoint storeLoop (filePath : string) (index : nat) (chunks : list Embedded)
  : M (list string) :=
  match chunks with
  | [] => ret []
  | chunk :: rest =>
      chunkId ← storeOne filePath index chunk ;
      ids ← storeLoop filePath (S index) rest ;
      ret (chunkId :: ids)
  end.

(** The ids of a [Set] built from an array: first occurrences, in order. *)
Fixpoint distinctIds (ids : list string) : list string :=
  match ids with
  | [] => []
  | id :: rest =>
      id :: List.filter (fun x => negb (String.eqb x id)) (distinctIds rest)
  end.

Definition storeChunks (filePath : string) (embeddedChunks : list Embedded)
  : M (list string) :=
  lockAcquired ← acquireLock ;
  if negb lockAcquired then
    logProcessError "Vector Store Lock" lockError ;; throw lockError
  else
    tryFinally
      (mkdir VECTOR_STORE_DIR ;;
       mkdir TEXT_FILES_DIR ;;
       indexExists ← isIndexCreated ;
       (if negb indexExists then
          tryCatch createIndex
            (fun e => logProcessError "Index Creation" e ;; throw e)
        else ret tt) ;;
       generatedIds ←
         tryFinally
           (beginUpdate ;;
            existingVectors ← listItems ;
            let existingIds :=
              distinctIds
                (map recId
                   (List.filter (fun v => startsWith (recId v) filePath)
                      existingVectors)) in
            forEach
              (fun id =>
                 tryCatch (deleteItem id)
                   (fun _ => logWarning "Failed to delete existing vector"))
              existingIds ;;
            sleep 100 ;;
            storeLoop filePath 0 embeddedChunks)
           (tryCatch endUpdate
              (fun e => logProcessError "Vector Store Update End" e ;; throw e)) ;
       count ← gets operationCount ;
       (if (optimizationThreshold <=? count)%N
        then optimizeVectorStore else ret tt) ;;
       tryCatch backupVectorStore
         (fun error => logProcessError "Vector Store Backup" error) ;;
       cleanupOrphanedVectors ;;
       ret generatedIds)
      releaseLock.

(* ===================================================================== *)
(** * File processing (src/fileProcessing.ts) *)
(* ===================================================================== *)

Definition QUEUE_FILE : string := ".queue.json".

Definition queueToJson (q : list QueueEntry) : Json.Json :=
  Json.JArray
    (map (fun e => Json.JObject [("event", Json.JString (event e));
                                 ("filePath", Json.JString (filePath e))]) q).

(** [saveQueue()] *)
Definition saveQueue : M unit :=
  q ← gets fileQueue ;
  tryCatch (writeFile QUEUE_FILE (Json.stringify (queueToJson q)))
    (fun error => logProcessError "Failed to save queue:" error).

(** [{ ...cachedFile, modifiedTime }] *)
Definition withModifiedTime (cachedFile : CacheEntry) (t : Z) : CacheEntry :=
  mkEntry (contentHash cachedFile) (vectorIds cachedFile) (JsInt t).

(** [processFile]; [fuel] is handed to [embedChunks]. *)
Definition processFile (fuel : nat) (path : string) : M unit :=
  tryCatch
    (modifiedTime' ← statMtime path ;
     cache ← tryCatch loadCache
               (fun error =>
                  logProcessError "Cache Loading" error ;; ret (∅ : Cache)) ;
     let cachedFile := cache !! path in
     fileContent ← readFile path ;
     contentHash' ← gets (fun w => sha256hex (env w) fileContent) ;
     let reindex : M unit :=
       let chunks := Chunker.chunkFile path fileContent in
       embeddings ← embedChunks fuel chunks ;
       vectorIds' ← storeChunks path embeddings ;
       let cache' :=
         <[path := mkEntry contentHash' vectorIds' (JsInt modifiedTime')]> cache in
       tryCatch (saveCache cache')
         (fun error => logProcessError "Cache Save" error) in
     match cachedFile with
     | Some cached =>
         if sameNumber (modifiedTime cached) modifiedTime'
            && String.eqb (contentHash cached) contentHash'
         then logProcessSkipped "File Processing"
         else if String.eqb (contentHash cached) contentHash'
         then
           logInfo "File content unchanged" ;;
           let cache' := <[path := withModifiedTime cached modifiedTime']> cache in
           tryCatch (saveCache cache')
             (fun error => logProcessError "Cache Update" error)
         else reindex
     | None => reindex
     end)
    (fun error => logProcessError "File Processing" error ;; throw error).

(** [deleteFile]: the loop variable [chunkId] ranges over the keys of the
    cache. *)
Definition deleteFile (path : string) : M unit :=
  cache ← loadCache ;
  let updated : Cache :=
    filter (fun kv : string * CacheEntry => startsWith (fst kv) path = false) cache in
  let deleted : Cache :=
    filter (fun kv : string * CacheEntry => startsWith (fst kv) path = true) cache in
  forEach (fun kv : string * CacheEntry => deleteItem (fst kv))
    (map_to_list deleted) ;;
  saveCache updated.

(** The [switch (event)] of [handleFileEvent]. *)
Definition dispatchEvent (fuel : nat) (ev path : string) : M unit :=
  if String.eqb ev "add" then processFile fuel path
  else if String.eqb ev "change" then
    deleteFile path ;; processFile fuel path
  else if String.eqb ev "unlink" then deleteFile path
  else ret tt.

(** The [try { ... } catch (error) { logProcessError(...) }] of
    [handleFileEvent]. *)
Definition handleBody (fuel : nat) (ev path : string) : M unit :=
  tryCatch (dispatchEvent fuel ev path)
    (fun error => logProcessError "Error processing" error).

(* ===================================================================== *)
(** * Retrieval (src/search.ts) *)
(* ===================================================================== *)

(** A value of [metadataFilter]: a plain value, or a list to choose from. *)
Inductive FilterValue : Type :=
| FPlain (v : MetaValue)
| FAnyOf (vs : list MetaValue).

Definition metaEqb (a b : MetaValue) : bool :=
  match a, b with
  | MString x, MString y => String.eqb x y
  | MNumber x, MNumber y => (x =? y)
  | MBool x, MBool y => Bool.eqb x y
  | _, _ => false
  end.

(** [found === value], where [found] may be [undefined]. *)
Definition strictEq (found : option MetaValue) (value : MetaValue) : bool :=
  match found with
  | Some v => metaEqb v value
  | None => false
  end.

(** The predicate of [vectorResults.filter(...)]. *)
Definition matchesFilter (metadataFilter : list (string * FilterValue))
  (result : Scored) : bool :=
  forallb
    (fun kv : string * FilterValue =>
       let found := metaGet (fst kv) (recMetadata (item result)) in
       match snd kv with
       | FAnyOf vs => existsb (strictEq found) vs
       | FPlain v => strictEq found v
       end)
    metadataFilter.

(** [SEARCH_CONFIG]: it names no [metadataFilter]. *)
Definition SEARCH_limit : nat := 10.
Definition SEARCH_minScore : float := 0.6%float.
Definition SEARCH_metadataFilter : option (list (string * FilterValue)) := None.

Definition tooSmall : string := "document collection is too small".

(** A result with its text loaded: [result.item.metadata.text = ...]. *)
Definition withText (t : string) (result : Scored) : Scored :=
  let r := item result in
  let md := recMetadata r in
  mkScored
    (mkRecord (recId r) (recVector r)
       (mkMetadata (mdModifiedTime md) (<["text" := MString t]> (mdFields md))))
    (score result).

Definition loadText (result : Scored) : M Scored :=
  match mdFields (recMetadata (item result)) !! "documentId" with
  | Some (MString documentId) =>
      if String.eqb documentId EmptyString
      then ret (withText "[Text unavailable]" result)
      else
        tryCatch
          (textContent ← readFile (VECTOR_STORE_DIR +:+ "/" +:+ documentId +:+ ".txt") ;
           ret (withText textContent result))
          (fun error =>
             logProcessError "Text Content Loading" error ;;
             ret (withText "[Text unavailable]" result))
  | _ => ret (withText "[Text unavailable]" result)
  end.

Fixpoint mapM_ {A B} (f : A -> M B) (l : list A) : M (list B) :=
  match l with
  | [] => ret []
  | x :: rest => y ← f x ; ys ← mapM_ f rest ; ret (y :: ys)
  end.

(** The [try] block of [searchContent] up to the query of the index. *)
Definition searchEmbed (query : string) : M (list float) :=
  indexExists ← isIndexCreated ;
  (if negb indexExists then createIndex else ret tt) ;;
  queryOllama query.

(** The rest of the [try] block, from the results of the index on. *)
Definition searchFinish (vectorResults : list Scored) : M (list Scored) :=
  let filteredResults :=
    match SEARCH_metadataFilter with
    | Some metadataFilter => List.filter (matchesFilter metadataFilter) vectorResults
    | None => vectorResults
    end in
  let filteredResults :=
    List.filter (fun result => PrimFloat.leb SEARCH_minScore (score result))
      filteredResults in
  let results := firstn SEARCH_limit filteredResults in
  mapM_ loadText results.

Definition searchBody (query : string) : M (list Scored) :=
  queryEmbedding ← searchEmbed query ;
  vectorResults ← queryItems queryEmbedding query (SEARCH_limit * 2) ;
  searchFinish vectorResults.

Definition searchContent (query : string) : M (list Scored) :=
  tryCatch (searchBody query)
    (fun error =>
       logProcessError "Content Search" error ;;
       if isErrorInstance error && includes (errMessage error) tooSmall
       then ret []
       else throw error).

(* ===================================================================== *)
(** * The event loop around handleFileEvent *)
(* ===================================================================== *)

(** Calls of [handleFileEvent] overlap at their [await]s.  A suspended
    call is at one of three places.  The work of the [try] block touches
    neither [fileQueue], [isProcessingFile] nor the queue file, and the
    other calls touch nothing else, so that work is taken in one step
    when it completes. *)
Inductive Task : Type :=
| Enqueued                          (* at [await saveQueue()] after the push *)
| Processing (ev path : string)     (* inside the [try] block *)
| HandingOver (next : QueueEntry).  (* at [await saveQueue()] in [finally] *)

Inductive Observation : Type :=
| Started (ev path : string)
| Finished (ev path : string).

Record Loop : Type := mkLoop {
  world : World;
  tasks : list Task;             (* the suspended calls *)
  immediates : list QueueEntry;  (* callbacks given to [setImmediate], oldest first *)
  trace : list Observation
}.

(** What the event loop may do next. *)
Inductive Label : Type :=
| Arrive (ev path : string)  (* the watcher calls [handleFileEvent(ev, path)] *)
| Complete (n : nat)         (* the work of the [n]-th suspended call ends *)
| Resume (n : nat)           (* the [saveQueue()] of the [n]-th suspended call resolves *)
| Immediate.                 (* the oldest [setImmediate] callback runs *)

(** [handleFileEvent] from its entry to its first [await]. *)
Definition enter (ev path : string) (l : Loop) : Loop :=
  let w := world l in
  if isProcessingFile w then
    let w1 := setFileQueue (fileQueue w ++ [mkQueued ev path]) w in
    mkLoop (snd (saveQueue w1)) (tasks l ++ [Enqueued]) (immediates l) (trace l)
  else
    mkLoop (setIsProcessingFile true w) (tasks l ++ [Processing ev path])
      (immediates l) (trace l ++ [Started ev path]).

(** The [finally] block up to its [await]: the task that replaces the
    call, if the call goes on. *)
Definition finallyBlock (w : World) : option Task * World :=
  let w1 := setIsProcessingFile false w in
  match fileQueue w1 with
  | nextFile :: rest =>
      let w2 := setFileQueue rest w1 in
      (Some (HandingOver nextFile), snd (saveQueue w2))
  | [] => (None, w1)
  end.

Definition replaceTask (n : nat) (t : option Task) (ts : list Task) : list Task :=
  match t with
  | Some t' => <[n := t']> ts
  | None => delete n ts
  end.

Definition step (fuel : nat) (lbl : Label) (l : Loop) : option Loop :=
  match lbl with
  | Arrive ev path => Some (enter ev path l)
  | Complete n =>
      match tasks l !! n with
      | Some (Processing ev path) =>
          match handleBody fuel ev path (world l) with
          | (Diverged, _) => None
          | (_, w1) =>
              let '(t, w2) := finallyBlock w1 in
              Some (mkLoop w2 (replaceTask n t (tasks l)) (immediates l)
                      (trace l ++ [Finished ev path]))
          end
      | _ => None
      end
  | Resume n =>
      match tasks l !! n with
      | Some Enqueued =>
          Some (mkLoop (world l) (delete n (tasks l)) (immediates l) (trace l))
      | Some (HandingOver nextFile) =>
          Some (mkLoop (world l) (delete n (tasks l))
                  (immediates l ++ [nextFile]) (trace l))
      | _ => None
      end
  | Immediate =>
      match immediates l with
      | nextFile :: rest =>
          Some (enter (event nextFile) (filePath nextFile)
                  (mkLoop (world l) (tasks l) rest (trace l)))
      | [] => None
      end
  end.

Fixpoint run (fuel : nat) (labels : list Label) (l : Loop) : option Loop :=
  match labels with
  | [] => Some l
  | lbl :: rest =>
      match step fuel lbl l with
      | Some l' => run fuel rest l'
      | None => None
      end
  end.

Definition idle (w : World) : Loop := mkLoop w [] [] [].

Definition isProcessing (t : Task) : bool :=
  match t with Processing _ _ => true | _ => false end.

(** The calls that are inside their [try] block. *)
Definition inFlight (l : Loop) : nat :=
  length (List.filter isProcessing (tasks l)).

(* ===================================================================== *)
(** * Worlds used in the examples *)
(* ===================================================================== *)

Definition zeros (n : nat) : list float := repeat 0%float n.

(** A backend whose first [k] answers are HTTP 500 and the later ones a
    well-formed embedding. *)
Definition backendFailingFirst (k : nat) : nat -> string -> FetchResult :=
  fun n _ => if (n <? k)%nat then FetchNotOk 500 "down"
             else FetchEmbedding (zeros API_vectorDimensions).

Definition backendDown : nat -> string -> FetchResult :=
  fun _ _ => FetchNotOk 500 "down".

Definition noSearch : list VectorRecord -> list float -> string -> nat
                      -> Thrown + list Scored :=
  fun _ _ _ _ => inr [].

Definition envWith (b : nat -> string -> FetchResult) : Env :=
  mkEnv (fun s => "sha256:" +:+ s) (fun p => p) b noSearch.

Definition emptyIndex : LocalIndex := mkIndex false [] false.

(** A fresh process in an empty directory at time [t]. *)
Definition freshWorld (e : Env) (t : Z) : World :=
  mkWorld e ∅ ∅ t 0 [] false emptyIndex false false None 0%N 0 [] [] false [].

(** The document of the chunk-nesting example. *)
Definition nestingExample : string :=
  "# A" +:+ nl +:+ "foo" +:+ nl +:+ "## B" +:+ nl +:+ "bar" +:+ nl
    +:+ "# C" +:+ nl +:+ "baz".

(** The accumulator of [chunkFile] after some lines. *)
Definition accAfter (fp : string) (lines : list string) : Chunker.Acc :=
  fold_left (Chunker.step fp) lines Chunker.initAcc.

(** The levels of a heading stack grow strictly towards its top. *)
Definition levelsDescend (stack : list string) : Prop :=
  StronglySorted (fun a b => (leadingHashes b < leadingHashes a)%nat) stack.

(* ===================================================================== *)
(** * Auxiliary definitions of the proofs *)
(* ===================================================================== *)

Section JsonAux.
Import Json.

(** Reading stops at [rest] when it cannot continue a number. *)
Definition endsNumber (rest : string) : Prop :=
  match rest with
  | EmptyString => True
  | String c _ => digitValue c = None /\ startsFraction rest = false
  end.

Fixpoint uintValue (acc : N) (d : Decimal.uint) : N :=
  match d with
  | Decimal.Nil => acc
  | Decimal.D0 d' => uintValue (acc * 10 + 0) d'
  | Decimal.D1 d' => uintValue (acc * 10 + 1) d'
  | Decimal.D2 d' => uintValue (acc * 10 + 2) d'
  | Decimal.D3 d' => uintValue (acc * 10 + 3) d'
  | Decimal.D4 d' => uintValue (acc * 10 + 4) d'
  | Decimal.D5 d' => uintValue (acc * 10 + 5) d'
  | Decimal.D6 d' => uintValue (acc * 10 + 6) d'
  | Decimal.D7 d' => uintValue (acc * 10 + 7) d'
  | Decimal.D8 d' => uintValue (acc * 10 + 8) d'
  | Decimal.D9 d' => uintValue (acc * 10 + 9) d'
  end%N.

(** The number of calls reading a value needs. *)
Fixpoint size (j : Json) : nat :=
  match j with
  | JArray l =>
      S ((fix sizeItems (l : list Json) : nat :=
            match l with
            | [] => O
            | v :: vs => S (size v + sizeItems vs)
            end) l)
  | JObject l =>
      S ((fix sizeMembers (l : list (string * Json)) : nat :=
            match l with
            | [] => O
            | kv :: kvs => S (size (snd kv) + sizeMembers kvs)
            end) l)
  | _ => 1
  end.

Fixpoint sizeItems (l : list Json) : nat :=
  match l with
  | [] => O
  | v :: vs => S (size v + sizeItems vs)
  end.

Fixpoint sizeMembers (l : list (string * Json)) : nat :=
  match l with
  | [] => O
  | kv :: kvs => S (size (snd kv) + sizeMembers kvs)
  end.

(** The characters a value can start with. *)
Definition valueStart (c : ascii) : bool :=
  match digitValue c with
  | Some _ => true
  | None =>
      Ascii.eqb c "-" || Ascii.eqb c quoteChar || Ascii.eqb c "[" || Ascii.eqb c "{"
      || Ascii.eqb c "t" || Ascii.eqb c "f" || Ascii.eqb c "n"
  end.

Definition numberStart (c : ascii) : bool :=
  match digitValue c with Some _ => true | None => Ascii.eqb c "-" end.

(** Reading a value back, with enough fuel. *)
Definition readsBack (j : Json) : Prop :=
  forall (gap indent fuel : nat) (rest : string),
    (size j <= fuel)%nat -> endsNumber rest ->
    readValue fuel (stringifyAt gap indent j +:+ rest) = Some (j, rest).

Definition memberText (gap indent : nat) (kv : string * Json) : string :=
  quote (fst kv) +:+ colon gap +:+ stringifyAt gap indent (snd kv).

Definition fitsText (gap : nat) (j : Json) : Prop :=
  forall indent, (size j <= String.length (stringifyAt gap indent j))%nat.

End JsonAux.

(** A number after [JSON.stringify] and [JSON.parse]. *)
Definition numberAsRead (n : JsNumber) : JsNumber :=
  match n with
  | JsInt z => JsInt z
  | _ => JsNull
  end.

(** A cache after it was written and read. *)
Definition entryAsRead (e : CacheEntry) : CacheEntry :=
  mkEntry (contentHash e) (vectorIds e) (numberAsRead (modifiedTime e)).

Definition cacheAsRead (c : Cache) : Cache := entryAsRead <$> c.

(** Every modification time of the cache is the time of a valid date: a
    whole number of milliseconds of magnitude at most 8.64e15. *)
Definition validTime (n : JsNumber) : Prop :=
  exists z, n = JsInt z /\ -8640000000000000 <= z <= 8640000000000000.

Definition validTimes (c : Cache) : Prop :=
  forall path entry, c !! path = Some entry -> validTime (modifiedTime entry).

(** A cache whose one entry has the modification time of an invalid
    date. *)
Definition invalidDateCache : Cache :=
  {[ "vault/a.md" := mkEntry "h" ["vault/a.md::0"] JsNaN ]}.

(** The object JSON.parse builds from the members of the cache file. *)
Definition insertAll (l : list (string * CacheEntry)) (acc : Cache) : Cache :=
  fold_left (fun acc kv => <[fst kv := snd kv]> acc) l acc.

(** An answer of the backend that [embedOperation] turns into an error. *)
Definition embedFails (r : FetchResult) : bool :=
  match r with
  | FetchEmbedding v => negb (validateVectorDimensions v)
  | _ => true
  end.

(** A backend from which no embedding can be had. *)
Definition backendAlwaysFails (e : Env) : Prop :=
  forall n prompt, embedFails (backend e n prompt) = true.

(** A backend that fails exactly the requests numbered [lo] to [hi]. *)
Definition backendFailingBetween (lo hi : nat) : nat -> string -> FetchResult :=
  fun n _ => if (lo <=? n)%nat && (n <=? hi)%nat then FetchNotOk 500 "down"
             else FetchEmbedding (zeros API_vectorDimensions).

(** What a call returned, if it did. *)
Definition returned {A} (r : Outcome A * World) : option A :=
  match fst r with Returned a => Some a | _ => None end.

(** Two chunks of which the first fails its first pass (four requests)
    and is embedded by the retry. *)
Definition firstChunkRetried : World :=
  freshWorld (envWith (backendFailingFirst 4)) 0.

(** Two chunks of which the second fails its first pass and is embedded
    by the retry. *)
Definition lastChunkRetried : World :=
  freshWorld (envWith (backendFailingBetween 1 4)) 0.

(** A backend that is down for good. *)
Definition backendDownWorld : World := freshWorld (envWith backendDown) 0.

(** A backend that fails the first pass and the first retry (eight
    requests) of a single chunk. *)
Definition twoPassesFail : World :=
  freshWorld (envWith (backendFailingFirst 8)) 0.

Definition exampleCache : Cache :=
  {[ "vault/a.md" := mkEntry "abc" ["vault/a.md::0"; "vault/a.md::1"] 1700000000000;
     "vault/b c.md" := mkEntry ("x" +:+ nl +:+ "y") [] (-5) ]}.

(** A vault with one note, before anything was indexed. *)
Definition vaultWorld : World :=
  setFiles {[ "vault/a.md" := mkFile ("# A" +:+ nl +:+ "foo") 5 ]}
    (freshWorld (envWith (backendFailingFirst 0)) 1000).

(** The same vault after the [add] event of the note was processed. *)
Definition indexedWorld : World :=
  snd (dispatchEvent 1 "add" "vault/a.md" vaultWorld).

(** The cache that the cache file holds. *)
Definition cacheOnDisk (w : World) : option Cache :=
  f ← files w !! CACHE_FILE_PATH ; decodeCache (content f).

(** The indexed vault after the note was touched: same text, a later
    modification time. *)
Definition touchedWorld : World :=
  setFiles (<["vault/a.md" := mkFile ("# A" +:+ nl +:+ "foo") 9]> (files indexedWorld))
    indexedWorld.

(** What [access(path)] finds. *)
Definition pathExists (w : World) (path : string) : bool :=
  bool_decide (is_Some (files w !! path)) || bool_decide (path ∈ dirs w).

(** [vector.id.split("::")[0]] *)
Definition ownerPath (r : VectorRecord) : string :=
  hd EmptyString (split (recId r) "::").

(** [now - (metadata.modifiedTime ?? now)] *)
Definition orphanAge (t : Z) (r : VectorRecord) : Z :=
  t - default t (mdModifiedTime (recMetadata r)).

(** The records the cleanup leaves in place, at time [t] with the ids
    [cacheIds] of the cache: those of the cache, those whose file exists,
    and those younger than the threshold. *)
Definition keptByCleanup (cacheIds : gset string) (w : World) (t : Z)
  (r : VectorRecord) : bool :=
  bool_decide (recId r ∈ cacheIds)
  || pathExists w (ownerPath r)
  || (orphanAge t r <? maxOrphanedAge).

(** The lock can be had: it is free, or the timer that frees it is due
    before the poll gives up. *)
Definition lockObtainable (w : World) : Prop :=
  vectorStoreLock w = false
  \/ exists due, lockTimer w = Some due /\ due - now w <= lockTimeout + 100.

(** The clock when the lock is obtained: the clock of the call for a free
    lock; for a held lock whose timer is due at [due], the first of the
    times [now], [now + 100], [now + 200], ... that is not before [due]. *)
Definition firstLook (start due : Z) : Z :=
  if due <=? start then start else due + (start - due) mod 100.

Definition lockTime (w : World) : Z :=
  if vectorStoreLock w then
    match lockTimer w with
    | Some due => firstLook (now w) due
    | None => now w
    end
  else now w.

(** The cache [loadCache] would return. *)
Definition cacheReadable (w : World) (c : Cache) : Prop :=
  cacheLock w = false
  /\ match files w !! CACHE_FILE_PATH with
     | Some f => decodeCache (content f) = Some c
     | None => c = ∅
     end.

(** A record of the index with the metadata the cleanup reads. *)
Definition recordAt (id : string) (modified : option Z) : VectorRecord :=
  mkRecord id [] (mkMetadata modified ∅).

(** One day after the epoch: a store whose cache knows [vault/c.md] only,
    a vault that holds [vault/a.md] only, and five records. *)
Definition cleanupWorld : World :=
  setIndex
    (mkIndex true
       [ recordAt "vault/c.md::0" None;
         recordAt "vault/a.md::0" (Some 0);
         recordAt "vault/old.md::0" (Some 0);
         recordAt "vault/new.md::0" (Some 1);
         recordAt "vault/gone.md::0" None ]
       false)
    (setFiles
       {[ "vault/a.md" := mkFile "text" 0;
          CACHE_FILE_PATH :=
            mkFile (encodeCache {[ "vault/c.md" := mkEntry "h" ["vault/c.md::0"] 1 ]}) 0 ]}
       (freshWorld (envWith backendDown) 86400000)).

(** The same store while the lock is held and the timer that frees it is
    due 250 ms later. *)
Definition heldCleanupWorld : World :=
  setLock true true (Some 86400250) cleanupWorld.

(** An entry of the cache lists the id. *)
Definition inCache (c : Cache) (id : string) : Prop :=
  exists path entry, c !! path = Some entry /\ id ∈ vectorIds entry.

(** The world after [deleteItem(id)]. *)
Definition dropId (id : string) (w : World) : World :=
  setIndex (setItems (List.filter (fun x => negb (hasId id x)) (items (index w)))
              (index w)) w.

(** The records whose id is none of [ids]. *)
Definition dropAll (ids : list string) (l : list VectorRecord) : list VectorRecord :=
  List.filter (fun x => negb (existsb (fun id => hasId id x) ids)) l.

(** The ids of the records of [l] that the cleanup deletes. *)
Definition doomed (ids : gset string) (w : World) (t : Z) (l : list VectorRecord)
  : list string :=
  map recId (List.filter (fun r => negb (keptByCleanup ids w t r)) l).

(** The characters a JSON text can begin with: white space (tab, line
    feed, carriage return, space) and the first characters of values. *)
Definition jsonFirstChars : list ascii :=
  [ascii_of_nat 9; ascii_of_nat 10; ascii_of_nat 13; " "%char; Json.quoteChar]
  ++ list_ascii_of_string "-0123456789[{tfn".

(** A text that cannot be JSON: it is empty or begins with a character no
    JSON text begins with. *)
Definition notJson (text : string) : Prop :=
  match text with
  | EmptyString => True
  | String c _ => c ∉ jsonFirstChars
  end.

(** The message holds the phrase the [catch] of [searchContent] looks for. *)
Definition hasPhrase (msg : string) : Prop :=
  exists before after, msg = before +:+ tooSmall +:+ after.

(** A step of the [try] block of [searchContent] fails with [e] and leaves
    the world [w1]: either a step before the query of the index (the
    creation of a missing index, the embedding of the query), or the query
    of the index on the embedding [v] of the query. *)
Definition searchFails (query : string) (w : World) (e : Thrown) (w1 : World)
  : Prop :=
  searchEmbed query w = (Threw e, w1)
  \/ exists v,
       searchEmbed query w = (Returned v, w1)
       /\ queryEngine (env w1) (items (index w1)) v query (SEARCH_limit * 2)
          = inl e.

(** An embedding backend that answers every request with status 500 and
    the phrase as body. *)
Definition backendTooSmall : nat -> string -> FetchResult :=
  fun _ _ => FetchNotOk 500 tooSmall.

(** An index whose query fails with [e]. *)
Definition failingSearch (e : Thrown)
  : list VectorRecord -> list float -> string -> nat -> Thrown + list Scored :=
  fun _ _ _ _ => inl e.

(** A fresh process whose embedding backend answers and whose index fails
    every query with [e]. *)
Definition searchWorld (e : Thrown) : World :=
  freshWorld
    (mkEnv (fun s => "sha256:" +:+ s) (fun p => p) (backendFailingFirst 0)
       (failingSearch e))
    0.

(** The index exists. *)
Definition indexCreated (w : World) : Prop := created (index w) = true.

(** Every record of the index satisfies [P]. *)
Definition itemsAll (P : VectorRecord -> Prop) (w : World) : Prop :=
  Forall P (items (index w)).

(** The metadata [storeChunks] gives the record of a chunk id. *)
Definition storedMetadata (chunkId : string) : Metadata :=
  mkMetadata None
    {[ "documentId" := MString ("text_files/" +:+ normalizePathForStorage chunkId) ]}.

(** A record as [storeChunks] builds it. *)
Definition builtByStore (r : VectorRecord) : Prop :=
  recMetadata r = storedMetadata (recId r).

(** A vault of four notes, nothing indexed yet. *)
Definition queueWorld : World :=
  setFiles
    {[ "e" := mkFile "# E" 1; "x" := mkFile "# X" 1;
       "y" := mkFile "# Y" 1; "z" := mkFile "# Z" 1 ]}
    (freshWorld (envWith (backendFailingFirst 0)) 1000).

(** While [e] is processed, [x] and then [y] arrive and are queued.  The
    work on [e] ends; its call takes [x] off the queue and waits for
    [saveQueue()].  Before that resolves, [z] arrives. *)
Definition raceSchedule : list Label :=
  [ Arrive "add" "e"; Arrive "add" "x"; Arrive "add" "y"; Resume 1; Resume 1;
    Complete 0; Arrive "add" "z"; Resume 0; Immediate; Resume 1;
    Complete 0; Resume 0; Immediate;
    Complete 0; Resume 0; Immediate;
    Complete 0 ]%nat.

(** The same arrivals without [z]. *)
Definition quietSchedule : list Label :=
  [ Arrive "add" "e"; Arrive "add" "x"; Arrive "add" "y"; Resume 1; Resume 1;
    Complete 0; Resume 0; Immediate;
    Complete 0; Resume 0; Immediate;
    Complete 0 ]%nat.

(** At most one call is inside its [try] block, and none when the flag
    [isProcessingFile] is down. *)
Definition singleFlight (l : Loop) : Prop :=
  (inFlight l <= 1)%nat
  /\ (isProcessingFile (world l) = false -> inFlight l = 0%nat).

(* ===================================================================== *)
(** * Auxiliary definitions for further properties *)
(* ===================================================================== *)

(** The lines of a text that open a chunk: [line.startsWith("#")]. *)
Definition headingCount (lines : list string) : nat :=
  length (List.filter (fun line => startsWith line "#") lines).

(** [whole] has [part] somewhere inside. *)
Definition contains (whole part : string) : Prop :=
  exists before after, whole = before +:+ part +:+ after.

(** The chunks of an accumulator are a first one, truthy or not as [first]
    says, and [n] later ones that are all truthy. *)
Definition chunksShape (acc : Chunker.Acc) (n : nat) (first : bool) : Prop :=
  exists c0 cs,
    Chunker.chunks acc = c0 :: cs
    /\ length cs = n
    /\ Forall (fun c => Chunker.isTruthy c = true) cs
    /\ Chunker.isTruthy c0 = first.

(** Every line of [seen] stands in a truthy chunk of the accumulator. *)
Definition linesKept (acc : Chunker.Acc) (seen : list string) : Prop :=
  forall line, line ∈ seen ->
    exists chunk, chunk ∈ Chunker.chunks acc
                  /\ Chunker.isTruthy chunk = true /\ contains chunk line.

(** The time [retryWithBackoff] has slept before its attempt number [k]
    (from 0), starting with [delay]. *)
Fixpoint backoffTotal (config : RetryConfig) (k : nat) (delay : Z) : Z :=
  match k with
  | O => 0
  | S k' =>
      Z.max 0 delay
      + backoffTotal config k' (Z.min (delay * factor config) (maxDelay config))
  end.

(** The vector of an answer of the backend. *)
Definition embeddingOf (r : FetchResult) : list float :=
  match r with FetchEmbedding v => v | _ => [] end.

(** A backend that answers every request with a vector of the expected
    dimension. *)
Definition backendHealthy (e : Env) : Prop :=
  forall n prompt, embedFails (backend e n prompt) = false.

(** The chunks with the vectors of the requests numbered from [n] on,
    one request for each chunk. *)
Fixpoint embedAll (e : Env) (n : nat) (chunks : list string) : list Embedded :=
  match chunks with
  | [] => []
  | chunk :: rest =>
      mkEmbedded (embeddingOf (backend e n chunk)) chunk :: embedAll e (S n) rest
  end.

(** The requests numbered [n] to [n + k - 1] for [chunk] fail. *)
Definition failsFrom (e : Env) (chunk : string) (n k : nat) : Prop :=
  forall i, (i < k)%nat -> embedFails (backend e (n + i) chunk) = true.

(** No request is recorded at a time that is still to come. *)
Definition timestampsPast (w : World) : Prop :=
  Forall (fun time => time <= now w) (timestamps w).

(** The requests of the last [timeWindow] milliseconds. *)
Definition recentRequests (w : World) : list Z :=
  filter (fun time => now w - time < RATE_timeWindow) (timestamps w).

(** A fresh process whose cache file holds [data]. *)
Definition cacheFileWorld (data : string) : World :=
  setFiles {[ CACHE_FILE_PATH := mkFile data 0 ]}
    (freshWorld (envWith backendDown) 0).

(* ===================================================================== *)
(** * Recovery of the queue (src/fileProcessing.ts) *)
(* ===================================================================== *)

(** An element of the array in the queue file. *)
Definition queueEntryOfJson (j : Json.Json) : option QueueEntry :=
  match j with
  | Json.JObject fields =>
      match memberLookup "event" fields, memberLookup "filePath" fields with
      | Some (Json.JString ev), Some (Json.JString path) => Some (mkQueued ev path)
      | _, _ => None
      end
  | _ => None
  end.

Definition queueOfJson (j : Json.Json) : option (list QueueEntry) :=
  match j with
  | Json.JArray elements => mapM queueEntryOfJson elements
  | _ => None
  end.

(** [loadQueue()]: a missing file and a text that is no JSON both give the
    empty queue.  [JSON.parse(data)] is untyped; a JSON text that is not
    an array of queue entries is outside the typed model and is read as the
    empty queue too. *)
Definition loadQueue : M (list QueueEntry) :=
  tryCatch
    (data ← readFile QUEUE_FILE ;
     match Json.parse data with
     | Some j => ret (default [] (queueOfJson j))
     | None => throw syntaxError
     end)
    (fun _ => ret []).

(** [recoverVaultWatchQueue()], as [main] awaits it before the watcher is
    attached: the call of [handleFileEvent] in it is not awaited, so it
    runs to its first [await] and stays behind as a task. *)
Definition recoverVaultWatchQueue (l : Loop) : Loop :=
  match loadQueue (world l) with
  | (Returned savedQueue, w1) =>
      if (0 <? length savedQueue)%nat then
        let w2 := setFileQueue (fileQueue w1 ++ savedQueue) w1 in
        match fileQueue w2 with
        | nextFile :: rest =>
            let w3 := snd (saveQueue (setFileQueue rest w2)) in
            enter (event nextFile) (filePath nextFile)
              (mkLoop w3 (tasks l) (immediates l) (trace l))
        | [] => mkLoop w2 (tasks l) (immediates l) (trace l)
        end
      else mkLoop w1 (tasks l) (immediates l) (trace l)
  | (_, w1) => mkLoop w1 (tasks l) (immediates l) (trace l)
  end.

(** The queue that the queue file holds. *)
Definition queueOnDisk (w : World) : option (list QueueEntry) :=
  f ← files w !! QUEUE_FILE ; Json.parse (content f) ≫= queueOfJson.

(** A process that starts again over the files [fs]: nothing is queued or
    in progress in memory. *)
Definition restarted (fs : gmap string FileNode) : World :=
  setFiles fs (freshWorld (envWith (backendFailingFirst 0)) 5000).

(** A path outside the directory of the store.  What the store keeps in
    its directory besides the chunk texts (the file of the index, the
    folders of the backups) is in the fields [index] and [backups] of the
    world and not in [files], so statements on files that are left alone
    speak of these paths only. *)
Definition outsideStore (p : string) : Prop :=
  startsWith p (VECTOR_STORE_DIR +:+ "/") = false.

(** A path that the processing of an event has no reason to write: not
    the cache file, not its temporary or backup file, and nothing in the
    directory of the store. *)
Definition protectedPath (p : string) : Prop :=
  p <> CACHE_FILE_PATH
  /\ p <> CACHE_FILE_PATH +:+ ".tmp"
  /\ p <> CACHE_FILE_PATH +:+ ".bak"
  /\ outsideStore p.

(** The path [p] holds [v] (or nothing). *)
Definition fileIs (p : string) (v : option FileNode) (w : World) : Prop :=
  files w !! p = v.

(** The cache entries of the paths that start with [path]:
    [chunkId.startsWith(filePath)] over the keys of the cache. *)
Definition cacheUnder (path : string) (cache : Cache) : Cache :=
  filter (fun kv : string * CacheEntry => startsWith (fst kv) path = true) cache.

(** The other entries. *)
Definition cacheOutside (path : string) (cache : Cache) : Cache :=
  filter (fun kv : string * CacheEntry => startsWith (fst kv) path = false) cache.

(** An index with three records, not being updated, and a free lock. *)
Definition threeRecords : World :=
  setIndex
    (mkIndex true
       [ recordAt "vault/a.md::0" None; recordAt "vault/a.md::1" None;
         recordAt "vault/a.md" (Some 7) ]
       false)
    (setOperationCount 100000%N
       (setFiles
          {[ CACHE_FILE_PATH :=
               mkFile (encodeCache
                         {[ "vault/a.md" :=
                              mkEntry "h" ["vault/a.md::0"; "vault/a.md::1"] 1;
                            "vault/b.md" := mkEntry "g" ["vault/b.md::0"] 2 ]}) 0 ]}
          (freshWorld (envWith backendDown) 10))).

(** The index answers every query with [results]. *)
Definition answering (results : list Scored)
  : list VectorRecord -> list float -> string -> nat -> Thrown + list Scored :=
  fun _ _ _ _ => inr results.

(** A store with the text file of one chunk, and an index that answers
    with that chunk at score 0.9, with a chunk whose text file is missing
    at score 0.7, and with a third one at score 0.5. *)
Definition answeringWorld : World :=
  setFiles {[ "db/text_files/a.md__0.txt" := mkFile "chunk text" 0 ]}
    (freshWorld
       (mkEnv (fun s => "sha256:" +:+ s) (fun p => p) (backendFailingFirst 0)
          (answering
             [ mkScored (vectorData "vault/a.md::0" (mkEmbedded [] "chunk text"))
                 0.9%float;
               mkScored (vectorData "vault/b.md::0" (mkEmbedded [] "other"))
                 0.7%float;
               mkScored (vectorData "vault/c.md::0" (mkEmbedded [] "third"))
                 0.5%float ]))
       0).

(** [result.item.metadata.text] *)
Definition resultText (result : Scored) : option MetaValue :=
  mdFields (recMetadata (item result)) !! "text".

(** [searchContent] from the query of the embedding on, the index being
    there. *)
Definition searchWithIndex (query : string) : M (list Scored) :=
  tryCatch
    (queryEmbedding ← queryOllama query ;
     vectorResults ← queryItems queryEmbedding query (SEARCH_limit * 2) ;
     searchFinish vectorResults)
    (fun error =>
       logProcessError "Content Search" error ;;
       if isErrorInstance error && includes (errMessage error) tooSmall
       then ret []
       else throw error).

(** ** Storing and indexing *)

(** The records after the loop of [storeChunks] has stored [chunks] from
    position [index] on, over the records [l]. *)
Fixpoint storeInto (rel : string) (index : nat) (chunks : list Embedded)
  (l : list VectorRecord) : list VectorRecord :=
  match chunks with
  | [] => l
  | chunk :: rest =>
      storeInto rel (S index) rest
        (List.filter (fun r => negb (hasId (chunkIdOf rel index) r)) l
         ++ [vectorData (chunkIdOf rel index) chunk])
  end.

(** The text file of a chunk id. *)
Definition textFileOf (chunkId : string) : string :=
  TEXT_FILES_DIR +:+ "/" +:+ normalizePathForStorage chunkId +:+ ".txt".

(** The files after the loop of [storeChunks], run at time [t], has
    written the texts of [chunks] from position [index] on. *)
Fixpoint textsInto (rel : string) (index : nat) (chunks : list Embedded) (t : Z)
  (fs : gmap string FileNode) : gmap string FileNode :=
  match chunks with
  | [] => fs
  | chunk :: rest =>
      textsInto rel (S index) rest t
        (<[textFileOf (chunkIdOf rel index) := mkFile (text chunk) t]> fs)
  end.

(** The records whose id does not start with [path]. *)
Definition notUnder (path : string) (l : list VectorRecord) : list VectorRecord :=
  List.filter (fun v => negb (startsWith (recId v) path)) l.

(** The records [storeChunks] starts from: those of the index, none when
    the index is still to be created. *)
Definition itemsBefore (w : World) : list VectorRecord :=
  if created (index w) then items (index w) else [].

(** [w] differs from [w0] at most in the clock, the request counter, the
    timestamps of the rate limiter and the log. *)
Definition sameStore (w0 w : World) : Prop :=
  env w = env w0 /\ files w = files w0 /\ dirs w = dirs w0
  /\ cacheLock w = cacheLock w0 /\ index w = index w0
  /\ vectorStoreLock w = vectorStoreLock w0
  /\ vectorStoreLockTimeout w = vectorStoreLockTimeout w0
  /\ lockTimer w = lockTimer w0
  /\ operationCount w = operationCount w0
  /\ lastBackupTime w = lastBackupTime w0 /\ backups w = backups w0
  /\ fileQueue w = fileQueue w0 /\ isProcessingFile w = isProcessingFile w0.

(* ===================================================================== *)
(** * Invariants of computations *)
(* ===================================================================== *)

(** [keeps I m]: whatever [m] does and however it ends, it leaves a world
    in which [I] still holds. *)
Definition keeps {A} (I : World -> Prop) (m : M A) : Prop :=
  forall w, I w -> I (snd (m w)).

(** An invariant that does not depend on the files, the clock, the
    counters, the locks, the backups or the log. *)
Record Insensitive (I : World -> Prop) : Prop := {
  ins_files : forall v w, I w -> I (setFiles v w);
  ins_dirs : forall v w, I w -> I (setDirs v w);
  ins_now : forall v w, I w -> I (setNow v w);
  ins_fetchCount : forall v w, I w -> I (setFetchCount v w);
  ins_timestamps : forall v w, I w -> I (setTimestamps v w);
  ins_cacheLock : forall v w, I w -> I (setCacheLock v w);
  ins_lock : forall a b c w, I w -> I (setLock a b c w);
  ins_operationCount : forall v w, I w -> I (setOperationCount v w);
  ins_lastBackupTime : forall v w, I w -> I (setLastBackupTime v w);
  ins_backups : forall v w, I w -> I (setBackups v w);
  ins_logged : forall v w, I w -> I (setLogged v w)
}.

(** ... nor on the vector index. *)
Record IndexInsensitive (I : World -> Prop) : Prop := {
  ins_base : Insensitive I;
  ins_index : forall v w, I w -> I (setIndex v w)
}.

(** The environment is [e]. *)
Definition envIs (e : Env) (w : World) : Prop := env w = e.

(** The flag and the queue of [handleFileEvent] are [busy] and [q]. *)
Definition queueIs (busy : bool) (q : list QueueEntry) (w : World) : Prop :=
  isProcessingFile w = busy /\ fileQueue w = q.

(* ===================================================================== *)
(** * Properties *)
(* ===================================================================== *)

(** ** Strings *)

Lemma append_cons (c : ascii) (a b : string) :
  String c a +:+ b = String c (a +:+ b).
Proof. reflexivity. Qed.

Lemma append_empty_l (b : string) : EmptyString +:+ b = b.
Proof. reflexivity. Qed.

Lemma append_assoc (a b c : string) : (a +:+ b) +:+ c = a +:+ (b +:+ c).
Proof.
  induction a as [|x a IH]; [reflexivity|].
  rewrite !append_cons. by rewrite IH.
Qed.

Lemma append_empty_r (a : string) : a +:+ EmptyString = a.
Proof.
  induction a as [|x a IH]; [reflexivity|]. by rewrite append_cons, IH.
Qed.

Lemma length_append (a b : string) :
  String.length (a +:+ b) = (String.length a + String.length b)%nat.
Proof.
  induction a as [|x a IH]; [reflexivity|].
  rewrite append_cons. simpl. by rewrite IH.
Qed.

(** ** Chunker *)

Section ChunkerFacts.
Import Chunker.

Lemma isTruthy_append (a b : string) :
  isTruthy b = true -> isTruthy (a +:+ b) = true.
Proof. destruct a; [by rewrite append_empty_l | by rewrite append_cons]. Qed.

Lemma popLoop_filter (h : nat) (stack : list string) :
  levelsDescend stack ->
  popLoop h stack = List.filter (fun e => (leadingHashes e <? h)%nat) stack.
Proof.
  induction 1 as [|a l Hs IH Hall]; simpl; [done|].
  destruct (Nat.leb_spec h (leadingHashes a)) as [Hle|Hlt].
  - rewrite IH. destruct (Nat.ltb_spec (leadingHashes a) h); [lia|done].
  - destruct (Nat.ltb_spec (leadingHashes a) h); [|lia].
    f_equal. symmetry. apply forallb_filter_id.
    apply forallb_forall. intros x Hx. rewrite Forall_forall in Hall.
    apply Nat.ltb_lt. apply list_elem_of_In in Hx. specialize (Hall x Hx). lia.
Qed.

Lemma startsWith_hash_level (line : string) :
  startsWith line "#" = true -> (1 <= leadingHashes line)%nat.
Proof.
  destruct line as [|c line]; [discriminate|].
  unfold startsWith.
  destruct c as [[] [] [] [] [] [] [] []]; try discriminate.
  intros _. cbn [leadingHashes]. lia.
Qed.

Lemma closeHeadings_filter (h : nat) (stack : list string) :
  levelsDescend stack -> (1 <= h)%nat ->
  closeHeadings h stack = List.filter (fun e => (leadingHashes e <? h)%nat) stack.
Proof.
  intros Hs Hh. rewrite <- (popLoop_filter h stack Hs).
  unfold closeHeadings. destruct stack as [|top rest]; cbn [tl popLoop].
  - destruct (Nat.leb_spec h 0); [lia|done].
  - by destruct (h <=? leadingHashes top)%nat.
Qed.

Lemma filter_levelsDescend (h : nat) (stack : list string) :
  levelsDescend stack ->
  levelsDescend (List.filter (fun e => (leadingHashes e <? h)%nat) stack).
Proof.
  induction 1 as [|a l Hs IH Hall]; simpl; [constructor|].
  destruct (_ <? _)%nat; [|done]. constructor; [done|].
  apply Forall_forall. intros x Hx. apply list_elem_of_In, filter_In in Hx as [Hx _].
  rewrite Forall_forall in Hall. apply Hall. by apply list_elem_of_In.
Qed.

Lemma step_levelsDescend (fp : string) (acc : Acc) (line : string) :
  levelsDescend (headingStack acc) ->
  levelsDescend (headingStack (step fp acc line)).
Proof.
  intros Hacc. unfold step.
  destruct (startsWith line "#") eqn:Hline; simpl; [|done].
  rewrite closeHeadings_filter by eauto using startsWith_hash_level.
  constructor; [by apply filter_levelsDescend|].
  apply Forall_forall. intros x Hx.
  apply list_elem_of_In, filter_In in Hx as [_ Hx]. by apply Nat.ltb_lt in Hx.
Qed.

Lemma accAfter_levelsDescend (fp : string) (lines : list string) :
  levelsDescend (headingStack (accAfter fp lines)).
Proof.
  unfold accAfter.
  assert (H : forall acc, levelsDescend (headingStack acc) ->
                levelsDescend (headingStack (fold_left (step fp) lines acc))).
  { induction lines as [|line lines IH]; intros acc Hacc; simpl; [done|].
    by apply IH, step_levelsDescend. }
  apply H. constructor.
Qed.

(** C5.  Chunking the example document gives exactly three chunks, built
    on the heading stacks [# A], [# A; ## B] and [# C]; in general a
    heading line first closes every open heading whose depth is at least
    its own and is then pushed. *)
Theorem chunk_nesting (path : string) :
  let fp := fileParts path in
  chunkFile path nestingExample =
    [fp +:+ nl +:+ "# A" +:+ nl +:+ "foo";
     fp +:+ nl +:+ "# A" +:+ nl +:+ "## B" +:+ nl +:+ "bar";
     fp +:+ nl +:+ "# C" +:+ nl +:+ "baz"]
  /\ map (fun k => rev (headingStack (accAfter fp (firstn k (split nestingExample nl)))))
       [1; 3; 5]%nat
     = [["# A"]; ["# A"; "## B"]; ["# C"]]
  /\ forall (fp' : string) (lines : list string) (line : string),
       headingStack (step fp' (accAfter fp' lines) line) =
         if startsWith line "#"
         then line :: List.filter
                        (fun h => (leadingHashes h <? leadingHashes line)%nat)
                        (headingStack (accAfter fp' lines))
         else headingStack (accAfter fp' lines).
Proof.
  intros fp. split; [|split].
  - unfold chunkFile. fold fp. generalize fp. clear. intros fp.
    replace (split nestingExample nl)
      with ["# A"; "foo"; "## B"; "bar"; "# C"; "baz"] by (by vm_compute).
    cbn -[String.append nl filter].
    rewrite !append_assoc.
    rewrite filter_cons_False by (simpl; discriminate).
    rewrite !filter_cons_True by (repeat apply isTruthy_append; reflexivity).
    reflexivity.
  - generalize fp. clear. intros fp.
    replace (split nestingExample nl)
      with ["# A"; "foo"; "## B"; "bar"; "# C"; "baz"] by (by vm_compute).
    reflexivity.
  - intros fp' lines line. unfold step at 1.
    destruct (startsWith line "#") eqn:Hline; cbn [headingStack]; [|done].
    rewrite closeHeadings_filter;
      eauto using accAfter_levelsDescend, startsWith_hash_level.
Qed.

End ChunkerFacts.
(** ** Running computations *)

Ltac munfold :=
  repeat (progress unfold mbind, M_bind, mret, M_ret, bind, ret, throw, diverge,
    tryCatch, tryFinally, gets, modify, ignoreErrors in * ).

Ltac wsimpl :=
  cbn [env files dirs now fetchCount timestamps cacheLock index
       vectorStoreLock vectorStoreLockTimeout lockTimer operationCount
       lastBackupTime backups fileQueue isProcessingFile logged
       setFiles setDirs setNow setFetchCount setTimestamps setCacheLock
       setIndex setLock setOperationCount setLastBackupTime setBackups
       setFileQueue setIsProcessingFile setLogged
       content mtime created items updating setItems fst snd] in *.

Lemma world_ext (w1 w2 : World) :
  env w1 = env w2 -> files w1 = files w2 -> dirs w1 = dirs w2 ->
  now w1 = now w2 -> fetchCount w1 = fetchCount w2 ->
  timestamps w1 = timestamps w2 -> cacheLock w1 = cacheLock w2 ->
  index w1 = index w2 -> vectorStoreLock w1 = vectorStoreLock w2 ->
  vectorStoreLockTimeout w1 = vectorStoreLockTimeout w2 ->
  lockTimer w1 = lockTimer w2 ->
  operationCount w1 = operationCount w2 ->
  lastBackupTime w1 = lastBackupTime w2 -> backups w1 = backups w2 ->
  fileQueue w1 = fileQueue w2 -> isProcessingFile w1 = isProcessingFile w2 ->
  logged w1 = logged w2 -> w1 = w2.
Proof. destruct w1, w2; simpl; intros; subst; reflexivity. Qed.

Ltac world_eq := apply world_ext; wsimpl; try reflexivity.

(** ** Change cache *)

Lemma loadCache_present (w : World) (f : FileNode) (c : Cache) :
  cacheLock w = false ->
  files w !! CACHE_FILE_PATH = Some f ->
  decodeCache (content f) = Some c ->
  loadCache w = (Returned c, afterLoad w).
Proof.
  intros Hlock Hf Hc. unfold loadCache, waitForCacheLock, mkdir, readFile.
  munfold. rewrite Hlock. wsimpl. by rewrite Hf, Hc.
Qed.

Lemma loadCache_absent (w : World) :
  cacheLock w = false ->
  files w !! CACHE_FILE_PATH = None ->
  loadCache w = (Returned ∅, afterLoad w).
Proof.
  intros Hlock Hf. unfold loadCache, waitForCacheLock, mkdir, readFile.
  munfold. rewrite Hlock. wsimpl. by rewrite Hf.
Qed.

Lemma cache_paths_distinct :
  CACHE_FILE_PATH ≠ CACHE_FILE_PATH +:+ ".tmp"
  /\ CACHE_FILE_PATH ≠ CACHE_FILE_PATH +:+ ".bak"
  /\ CACHE_FILE_PATH +:+ ".tmp" ≠ CACHE_FILE_PATH +:+ ".bak".
Proof. by vm_compute. Qed.

Lemma saveCache_run (c : Cache) (w : World) :
  cacheLock w = false ->
  saveCache c w = (Returned tt, afterSave c w).
Proof.
  intros Hlock.
  destruct cache_paths_distinct as (Hct & Hcb & Htb).
  unfold saveCache, waitForCacheLock, mkdir, readFile, writeFile, rename, unlink.
  munfold. rewrite Hlock. wsimpl.
  rewrite lookup_insert_eq. wsimpl. rewrite String.eqb_refl. wsimpl.
  rewrite lookup_insert_ne by done.
  unfold afterSave, filesAfterSave.
  destruct (files w !! CACHE_FILE_PATH) as [g|] eqn:Hg; wsimpl.
  - rewrite lookup_insert_ne by done. rewrite lookup_delete_ne by done.
    rewrite lookup_insert_eq. wsimpl.
    rewrite lookup_insert_ne by done. rewrite lookup_delete_ne by done.
    rewrite lookup_insert_eq. wsimpl.
    f_equal. world_eq. apply map_eq. intros p.
    destruct (decide (p = CACHE_FILE_PATH +:+ ".bak")) as [->|];
      [by rewrite !lookup_delete_eq|rewrite !(lookup_delete_ne _ (CACHE_FILE_PATH +:+ ".bak")) by done].
    destruct (decide (p = CACHE_FILE_PATH)) as [->|];
      [by rewrite !lookup_insert_eq|rewrite !(lookup_insert_ne _ CACHE_FILE_PATH) by done].
    destruct (decide (p = CACHE_FILE_PATH +:+ ".tmp")) as [->|];
      [by rewrite !lookup_delete_eq|rewrite !(lookup_delete_ne _ (CACHE_FILE_PATH +:+ ".tmp")) by done].
    rewrite lookup_insert_ne by done. rewrite lookup_delete_ne by done.
    by rewrite lookup_insert_ne.
  - rewrite lookup_insert_eq. wsimpl.
    rewrite lookup_insert_ne by done. rewrite lookup_delete_ne by done.
    rewrite lookup_insert_ne by done.
    destruct (files w !! (CACHE_FILE_PATH +:+ ".bak")) as [b|] eqn:Hb;
      wsimpl; f_equal; world_eq.
    + by rewrite delete_insert_eq.
    + rewrite delete_insert_eq. symmetry. apply delete_id.
      rewrite lookup_insert_ne by done. by rewrite lookup_delete_ne.
Qed.

(** ** JSON: what is written is read back *)

Section JsonFacts.
Import Json.

Lemma readDigits_end (acc : N) (count : nat) (rest : string) :
  endsNumber rest -> readDigits acc count rest = (acc, count, rest).
Proof.
  destruct rest as [|c rest]; [done|]. intros [Hc _]. simpl. by rewrite Hc.
Qed.

Lemma readDigits_cons (acc : N) (count : nat) (c : ascii) (k : nat) (s : string) :
  digitValue c = Some k ->
  readDigits acc count (String c s) = readDigits (acc * 10 + N.of_nat k) (S count) s.
Proof. intros H. cbn [readDigits]. by rewrite H. Qed.

Lemma readDigits_uint (d : Decimal.uint) (acc : N) (count : nat) (rest : string) :
  endsNumber rest ->
  readDigits acc count (NilEmpty.string_of_uint d +:+ rest)
  = (uintValue acc d, (count + Decimal.nb_digits d)%nat, rest).
Proof.
  intros Hrest. revert acc count.
  induction d; intros acc count;
    cbn [NilEmpty.string_of_uint uintValue Decimal.nb_digits];
    rewrite ?append_cons, ?append_empty_l.
  1: { rewrite readDigits_end by done. do 2 f_equal. lia. }
  all: erewrite readDigits_cons by reflexivity; rewrite IHd;
    f_equal; f_equal; lia.
Qed.

Lemma uintValue_acc (d : Decimal.uint) (acc : positive) :
  uintValue (Npos acc) d = Npos (Pos.of_uint_acc d acc).
Proof.
  revert acc. induction d; intros acc; cbn [uintValue Pos.of_uint_acc]; [done|..];
    (etransitivity; [|apply IHd]); f_equal; lia.
Qed.

Lemma uintValue_zero (d : Decimal.uint) : uintValue 0 d = Pos.of_uint d.
Proof.
  induction d; cbn [uintValue Pos.of_uint]; try done;
    apply (uintValue_acc d).
Qed.

Lemma uint_head_nonzero (p : positive) (d : Decimal.uint) :
  Pos.to_uint p <> Decimal.D0 d.
Proof.
  intros H.
  pose proof (DecimalPos.Unsigned.to_of (Pos.to_uint p)) as Hn.
  rewrite DecimalPos.Unsigned.of_to in Hn. cbn [N.to_uint] in Hn.
  pose proof (DecimalPos.Unsigned.to_uint_nonzero p) as Hz.
  assert (Hh : Decimal.nzhead (Pos.to_uint p) <> Decimal.Nil).
  { intros Hnil. apply Hz. rewrite Hn. by apply DecimalFacts.unorm_0. }
  rewrite (DecimalFacts.unorm_nzhead _ Hh) in Hn.
  apply (DecimalFacts.nzhead_nonzero (Pos.to_uint p) d). congruence.
Qed.

Lemma readNatural_pos (p : positive) (rest : string) :
  endsNumber rest ->
  readNatural (NilEmpty.string_of_uint (Pos.to_uint p) +:+ rest)
  = Some (Npos p, rest).
Proof.
  intros Hrest. unfold readNatural. rewrite readDigits_uint by done.
  rewrite uintValue_zero, DecimalPos.Unsigned.of_to.
  pose proof (DecimalPos.Unsigned.to_uint_nonnil p) as Hnil.
  pose proof (uint_head_nonzero p) as Hhead.
  assert (Hfrac : startsFraction rest = false)
    by (destruct rest; [done | by destruct Hrest]).
  rewrite Hfrac.
  destruct (Pos.to_uint p) as [|d|d|d|d|d|d|d|d|d|d];
    try done; try (by exfalso; eapply Hhead).
Qed.

Lemma readNumber_text (z : Z) (rest : string) :
  endsNumber rest ->
  readNumber (numberText z +:+ rest) = Some (z, rest).
Proof.
  intros Hrest. unfold numberText, NilZero.string_of_int.
  assert (Hfrac : startsFraction rest = false)
    by (destruct rest; [done | by destruct Hrest]).
  destruct z as [|p|p]; cbn [Z.to_int].
  - change (NilZero.string_of_uint (Decimal.D0 Decimal.Nil)) with "0".
    rewrite append_cons, append_empty_l. unfold readNumber, readNatural.
    erewrite readDigits_cons by reflexivity.
    rewrite readDigits_end by done. cbn. by rewrite Hfrac.
  - unfold NilZero.string_of_uint.
    pose proof (DecimalPos.Unsigned.to_uint_nonnil p) as Hnil.
    pose proof (uint_head_nonzero p) as Hhead.
    pose proof (readNatural_pos p rest Hrest) as Hread.
    unfold readNumber.
    destruct (Pos.to_uint p) as [|d|d|d|d|d|d|d|d|d|d] eqn:E; try done;
      try (by exfalso; eapply Hhead);
      cbn [NilEmpty.string_of_uint] in *; rewrite append_cons in *;
      cbn; cbn in Hread; by rewrite Hread.
  - unfold NilZero.string_of_uint.
    pose proof (DecimalPos.Unsigned.to_uint_nonnil p) as Hnil.
    pose proof (readNatural_pos p rest Hrest) as Hread.
    destruct (Pos.to_uint p) eqn:E; try done;
      rewrite append_cons; cbn [readNumber]; by rewrite Hread.
Qed.

Lemma readString_escapeChar (c : ascii) (tail str rest : string) :
  readString tail = Some (str, rest) ->
  readString (escapeChar c +:+ tail) = Some (String c str, rest).
Proof.
  intros H.
  destruct c as [[] [] [] [] [] [] [] []];
    match goal with
    | |- context [escapeChar ?a] =>
        let e := eval vm_compute in (escapeChar a) in
        change (escapeChar a) with e
    end;
    rewrite ?append_cons, ?append_empty_l;
    cbn -[String.append]; rewrite H; reflexivity.
Qed.

Lemma readString_escape (s rest : string) :
  readString (escape s +:+ String quoteChar rest) = Some (s, rest).
Proof.
  induction s as [|c s IH]; [reflexivity|].
  cbn [escape]. rewrite append_assoc. by apply readString_escapeChar.
Qed.

Lemma readString_quote (s rest : string) :
  exists body, quote s +:+ rest = String quoteChar body
               /\ readString body = Some (s, rest).
Proof.
  exists (escape s +:+ String quoteChar rest). split; [|apply readString_escape].
  unfold quote. by rewrite append_cons, append_assoc.
Qed.

Lemma size_array (l : list Json) : size (JArray l) = S (sizeItems l).
Proof. reflexivity. Qed.

Lemma size_object (l : list (string * Json)) : size (JObject l) = S (sizeMembers l).
Proof. reflexivity. Qed.

Lemma json_rect' (P : Json -> Prop) :
  P JNull -> (forall b, P (JBool b)) -> (forall z, P (JNumber z)) ->
  (forall s, P (JString s)) ->
  (forall l, Forall P l -> P (JArray l)) ->
  (forall l, Forall (fun kv => P (snd kv)) l -> P (JObject l)) ->
  forall j, P j.
Proof.
  intros Hnull Hbool Hnum Hstr Harr Hobj.
  fix IH 1. intros [|b|z|s|l|l].
  - exact Hnull.
  - apply Hbool.
  - apply Hnum.
  - apply Hstr.
  - apply Harr.
    exact ((fix go (l : list Json) : Forall P l :=
              match l with
              | [] => @List.Forall_nil Json P
              | v :: vs => @List.Forall_cons Json P v vs (IH v) (go vs)
              end) l).
  - apply Hobj.
    exact ((fix go (l : list (string * Json))
              : Forall (fun kv => P (snd kv)) l :=
              match l with
              | [] => @List.Forall_nil (string * Json) (fun kv => P (snd kv))
              | kv :: kvs => @List.Forall_cons (string * Json) (fun kv => P (snd kv)) kv kvs (IH (snd kv)) (go kvs)
              end) l).
Qed.

Lemma uint_text_start (d : Decimal.uint) :
  d <> Decimal.Nil ->
  exists c s, NilEmpty.string_of_uint d = String c s /\ numberStart c = true.
Proof. destruct d; [done|..]; intros _; eexists _, _; split; reflexivity. Qed.

Lemma numberText_start (z : Z) :
  exists c s, numberText z = String c s /\ numberStart c = true.
Proof.
  unfold numberText, NilZero.string_of_int.
  destruct z as [|p|p]; cbn [Z.to_int].
  - by eexists _, _.
  - pose proof (DecimalPos.Unsigned.to_uint_nonnil p) as Hnil.
    unfold NilZero.string_of_uint.
    destruct (uint_text_start _ Hnil) as (c & s & Hs & Hc).
    destruct (Pos.to_uint p); [done|..]; eauto.
  - by eexists _, _.
Qed.

Lemma stringify_start (gap indent : nat) (j : Json) :
  exists c s, stringifyAt gap indent j = String c s /\ valueStart c = true.
Proof.
  destruct j as [|[]|z|s|[|v l]|[|kv l]]; cbn [stringifyAt];
    try (by eexists _, _; split; [rewrite ?append_cons; reflexivity|reflexivity]).
  destruct (numberText_start z) as (c & s & -> & Hc).
  exists c, s. split; [done|].
  unfold numberStart, valueStart in *. destruct (digitValue c); [done|].
  by rewrite Hc.
Qed.

Lemma valueStart_facts (c : ascii) :
  valueStart c = true ->
  isWs c = false /\ c <> "]"%char /\ c <> "}"%char /\ c <> ","%char.
Proof.
  destruct c as [[] [] [] [] [] [] [] []]; vm_compute; intros H;
    try discriminate; repeat split; discriminate.
Qed.

Lemma numberStart_facts (c : ascii) :
  numberStart c = true ->
  isWs c = false /\ Ascii.eqb c quoteChar = false /\ Ascii.eqb c "[" = false
  /\ Ascii.eqb c "{" = false /\ Ascii.eqb c "t" = false
  /\ Ascii.eqb c "f" = false /\ Ascii.eqb c "n" = false.
Proof.
  destruct c as [[] [] [] [] [] [] [] []]; vm_compute; intros H;
    try discriminate; repeat split; reflexivity.
Qed.

Lemma skipWs_spaces (n : nat) (s : string) : skipWs (spaces n +:+ s) = skipWs s.
Proof. induction n as [|n IH]; [done|]. cbn [spaces]. by rewrite append_cons. Qed.

Lemma skipWs_break (gap indent : nat) (s : string) :
  skipWs (breakAt gap indent +:+ s) = skipWs s.
Proof.
  unfold breakAt. destruct gap; [done|].
  rewrite append_assoc. unfold nl. rewrite append_cons, append_empty_l.
  cbn [skipWs]. change (isWs (ascii_of_nat 10)) with true. cbn iota.
  apply skipWs_spaces.
Qed.

Lemma skipWs_start (c : ascii) (s : string) :
  isWs c = false -> skipWs (String c s) = String c s.
Proof. intros H. cbn [skipWs]. by rewrite H. Qed.

Lemma skipWs_idemp (s : string) : skipWs (skipWs s) = skipWs s.
Proof.
  induction s as [|c s IH]; [done|]. cbn [skipWs].
  destruct (isWs c) eqn:E; [done|]. cbn [skipWs]. by rewrite E.
Qed.

Lemma readValue_skip (fuel : nat) (a b : string) :
  skipWs a = skipWs b -> readValue fuel a = readValue fuel b.
Proof. intros H. destruct fuel; [done|]. cbn [readValue]. by rewrite H. Qed.

Lemma readElements_skip (fuel : nat) (a b : string) :
  skipWs a = skipWs b -> readElements fuel a = readElements fuel b.
Proof.
  intros H. destruct fuel; [done|]. cbn [readElements].
  by rewrite (readValue_skip fuel a b H).
Qed.

Lemma readMembers_skip (fuel : nat) (a b : string) :
  skipWs a = skipWs b -> readMembers fuel a = readMembers fuel b.
Proof. intros H. destruct fuel; [done|]. cbn [readMembers]. by rewrite H. Qed.

Lemma endsNumber_start (c : ascii) (s : string) :
  digitValue c = None -> startsFraction (String c s) = false ->
  endsNumber (String c s).
Proof. done. Qed.

Lemma endsNumber_break (gap indent : nat) (c : ascii) (s : string) :
  digitValue c = None -> startsFraction (String c s) = false ->
  endsNumber (breakAt gap indent +:+ String c s).
Proof.
  intros Hc Hf. unfold breakAt. destruct gap; [done|].
  rewrite append_assoc. unfold nl. rewrite append_cons. done.
Qed.

Lemma readsBack_items (gap indent closing : nat) (l : list Json) :
  Forall readsBack l -> l <> [] ->
  forall (fuel : nat) (rest : string),
    (sizeItems l <= fuel)%nat ->
    readElements fuel
      (joinItems ("," +:+ breakAt gap indent) (map (stringifyAt gap indent) l)
         +:+ breakAt gap closing +:+ String "]" rest)
    = Some (l, rest).
Proof.
  induction 1 as [|v l Hv Hl IH]; [done|]. intros _ fuel rest Hfuel.
  cbn [sizeItems] in Hfuel. destruct fuel as [|fuel]; [lia|].
  cbn [readElements]. destruct l as [|v' l'].
  - cbn [map joinItems]. rewrite Hv; [|lia|by apply endsNumber_break].
    rewrite skipWs_break. by rewrite skipWs_start.
  - change (joinItems ?sep (map ?f (v :: v' :: l')))
      with (f v +:+ sep +:+ joinItems sep (map f (v' :: l'))).
    rewrite !append_assoc. rewrite Hv; [|lia|by rewrite append_cons].
    rewrite append_cons, append_empty_l. rewrite skipWs_start by done.
    rewrite (readElements_skip fuel _
               (joinItems ("," +:+ breakAt gap indent)
                  (map (stringifyAt gap indent) (v' :: l'))
                  +:+ breakAt gap closing +:+ String "]" rest)).
    + rewrite IH; [done|done|]. cbn [sizeItems] in *. lia.
    + by rewrite skipWs_break.
Qed.

Lemma skipWs_colon (gap : nat) (s : string) :
  exists s', skipWs (colon gap +:+ s) = String ":" s' /\ skipWs s' = skipWs s.
Proof.
  destruct gap; cbn [colon]; rewrite !append_cons, append_empty_l.
  - exists s. by rewrite skipWs_start.
  - exists (String " " s). by rewrite skipWs_start.
Qed.

Lemma readsBack_members (gap indent closing : nat) (l : list (string * Json)) :
  Forall (fun kv => readsBack (snd kv)) l -> l <> [] ->
  forall (fuel : nat) (rest : string),
    (sizeMembers l <= fuel)%nat ->
    readMembers fuel
      (joinItems ("," +:+ breakAt gap indent) (map (memberText gap indent) l)
         +:+ breakAt gap closing +:+ String "}" rest)
    = Some (l, rest).
Proof.
  induction 1 as [|[k v] l Hv Hl IH]; [done|]. intros _ fuel rest Hfuel.
  cbn [sizeMembers snd] in Hfuel. destruct fuel as [|fuel]; [lia|].
  cbn [readMembers snd] in *. destruct l as [|kv' l'].
  - cbn [map joinItems]. unfold memberText at 1. cbn [fst snd].
    rewrite !append_assoc.
    destruct (readString_quote k
                (colon gap +:+ stringifyAt gap indent v
                   +:+ breakAt gap closing +:+ String "}" rest))
      as (body & -> & Hbody).
    rewrite skipWs_start by done. change (Ascii.eqb quoteChar quoteChar) with true.
    cbn iota. rewrite Hbody.
    destruct (skipWs_colon gap
                (stringifyAt gap indent v +:+ breakAt gap closing +:+ String "}" rest))
      as (s' & -> & Hs').
    rewrite (readValue_skip fuel _ _ Hs').
    rewrite Hv; [|lia|by apply endsNumber_break].
    rewrite skipWs_break. by rewrite skipWs_start.
  - change (joinItems ?sep (map ?f ((k, v) :: kv' :: l')))
      with (f (k, v) +:+ sep +:+ joinItems sep (map f (kv' :: l'))).
    unfold memberText at 1. cbn [fst snd]. rewrite !append_assoc.
    destruct (readString_quote k
                (colon gap +:+ stringifyAt gap indent v +:+ ","
                   +:+ breakAt gap indent
                   +:+ joinItems ("," +:+ breakAt gap indent)
                         (map (memberText gap indent) (kv' :: l'))
                   +:+ breakAt gap closing +:+ String "}" rest))
      as (body & -> & Hbody).
    rewrite skipWs_start by done. change (Ascii.eqb quoteChar quoteChar) with true.
    cbn iota. rewrite Hbody.
    match goal with
    | |- context [skipWs (colon gap +:+ ?s)] =>
        destruct (skipWs_colon gap s) as (s' & -> & Hs')
    end.
    rewrite (readValue_skip fuel _ _ Hs').
    rewrite Hv; [|lia|by rewrite append_cons].
    rewrite append_cons, append_empty_l. rewrite skipWs_start by done.
    rewrite (readMembers_skip fuel _
               (joinItems ("," +:+ breakAt gap indent)
                  (map (memberText gap indent) (kv' :: l'))
                  +:+ breakAt gap closing +:+ String "}" rest)).
    + rewrite IH; [done|done|]. cbn [sizeMembers] in *. lia.
    + by rewrite skipWs_break.
Qed.

Lemma readValue_number (fuel : nat) (z : Z) (rest : string) :
  endsNumber rest ->
  readValue (S fuel) (numberText z +:+ rest) = Some (JNumber z, rest).
Proof.
  intros Hrest. pose proof (readNumber_text z rest Hrest) as Hread.
  destruct (numberText_start z) as (c & s & Hz & Hc). rewrite Hz in *.
  rewrite append_cons in *.
  destruct (numberStart_facts c Hc) as (Hws & H1 & H2 & H3 & H4 & H5 & H6).
  cbn [readValue]. rewrite skipWs_start by done.
  by rewrite H1, H2, H3, H4, H5, H6, Hread.
Qed.

Lemma prefix_append (a b : string) : String.prefix a (a +:+ b) = true.
Proof.
  induction a as [|c a IH]; [by destruct b|].
  rewrite append_cons. cbn [String.prefix].
  by destruct (Ascii.ascii_dec c c).
Qed.

Lemma dropS_append (a b : string) : dropS (String.length a) (a +:+ b) = b.
Proof. induction a as [|c a IH]; [done|]. by rewrite append_cons. Qed.

Lemma readValue_literal (fuel : nat) (word : string) (v : Json) (rest : string) :
  (word = "null" /\ v = JNull) \/ (word = "true" /\ v = JBool true)
  \/ (word = "false" /\ v = JBool false) ->
  readValue (S fuel) (word +:+ rest) = Some (v, rest).
Proof.
  intros H.
  assert (Hlit : readLiteral word v (word +:+ rest) = Some (v, rest)).
  { unfold readLiteral. by rewrite prefix_append, dropS_append. }
  destruct H as [[-> ->]|[[-> ->]|[-> ->]]]; rewrite append_cons in *;
    cbn [readValue]; rewrite skipWs_start by done; exact Hlit.
Qed.

Lemma readsBack_all (j : Json) : readsBack j.
Proof.
  induction j as [|b|z|s|l IH|l IH] using json_rect';
    intros gap indent fuel rest Hfuel Hrest;
    (destruct fuel as [|fuel]; [cbn in Hfuel; lia|]).
  - apply readValue_literal; auto.
  - destruct b; apply readValue_literal; auto.
  - by apply readValue_number.
  - cbn [stringifyAt].
    destruct (readString_quote s rest) as (body & -> & Hbody).
    cbn [readValue]. rewrite skipWs_start by done.
    change (Ascii.eqb quoteChar quoteChar) with true. cbn iota. by rewrite Hbody.
  - destruct l as [|v l]; [reflexivity|].
    rewrite size_array in Hfuel.
    change (stringifyAt gap indent (JArray (v :: l)))
      with ("[" +:+ breakAt gap (indent + gap)
              +:+ joinItems ("," +:+ breakAt gap (indent + gap))
                    (map (stringifyAt gap (indent + gap)) (v :: l))
              +:+ breakAt gap indent +:+ "]").
    rewrite !append_assoc, append_cons, append_empty_l.
    rewrite (append_cons "]"), append_empty_l.
    cbn [readValue]. rewrite skipWs_start by done.
    change (Ascii.eqb "[" quoteChar) with false.
    change (Ascii.eqb "[" "[") with true. cbn iota.
    rewrite skipWs_break.
    destruct (stringify_start gap (indent + gap) v) as (c & s & Hs & Hc).
    destruct (valueStart_facts c Hc) as (Hws & Hb & _).
    rewrite (readElements_skip fuel _
               (joinItems ("," +:+ breakAt gap (indent + gap))
                  (map (stringifyAt gap (indent + gap)) (v :: l))
                  +:+ breakAt gap indent +:+ String "]" rest))
      by (by rewrite skipWs_break).
    rewrite (readsBack_items gap (indent + gap) indent (v :: l) IH) by (done || lia).
    destruct l as [|v' l']; cbn [map joinItems]; rewrite Hs, ?append_cons;
      rewrite skipWs_start by done;
      destruct c as [[] [] [] [] [] [] [] []]; done.
  - destruct l as [|kv l]; [reflexivity|].
    rewrite size_object in Hfuel.
    change (stringifyAt gap indent (JObject (kv :: l)))
      with ("{" +:+ breakAt gap (indent + gap)
              +:+ joinItems ("," +:+ breakAt gap (indent + gap))
                    (map (memberText gap (indent + gap)) (kv :: l))
              +:+ breakAt gap indent +:+ "}").
    rewrite !append_assoc, append_cons, append_empty_l.
    rewrite (append_cons "}"), append_empty_l.
    cbn [readValue]. rewrite skipWs_start by done.
    change (Ascii.eqb "{" quoteChar) with false.
    change (Ascii.eqb "{" "[") with false.
    change (Ascii.eqb "{" "{") with true. cbn iota.
    rewrite skipWs_break.
    rewrite (readMembers_skip fuel _
               (joinItems ("," +:+ breakAt gap (indent + gap))
                  (map (memberText gap (indent + gap)) (kv :: l))
                  +:+ breakAt gap indent +:+ String "}" rest))
      by (by rewrite skipWs_break).
    rewrite (readsBack_members gap (indent + gap) indent (kv :: l) IH) by (done || lia).
    destruct l as [|kv' l']; cbn [map joinItems]; unfold memberText at 1;
      unfold quote; rewrite !append_cons; by rewrite skipWs_start.
Qed.

Lemma sep_length (gap indent : nat) :
  (1 <= String.length ("," +:+ breakAt gap indent))%nat.
Proof. rewrite append_cons. simpl. lia. Qed.

Lemma items_fit (sep : string) (texts : list string) (sizes : list nat) :
  (1 <= String.length sep)%nat ->
  Forall2 (fun n t => (n <= String.length t)%nat) sizes texts ->
  (fold_right (fun n acc => S (n + acc)) O sizes
   <= S (String.length (joinItems sep texts)))%nat.
Proof.
  intros Hsep. induction 1 as [|n t sizes texts Hn Hrest IH]; [simpl; lia|].
  cbn [fold_right]. destruct texts as [|t' texts'].
  - inversion Hrest; subst. cbn. lia.
  - change (joinItems sep (t :: t' :: texts'))
      with (t +:+ sep +:+ joinItems sep (t' :: texts')).
    rewrite !length_append. lia.
Qed.

Lemma fitsText_all (gap : nat) (j : Json) : fitsText gap j.
Proof.
  induction j as [|b|z|s|l IH|l IH] using json_rect'; intros indent.
  - simpl. lia.
  - destruct b; simpl; lia.
  - cbn [size stringifyAt].
    destruct (numberText_start z) as (c & s & -> & _). simpl. lia.
  - cbn [size stringifyAt]. unfold quote. simpl. lia.
  - destruct l as [|v l]; [simpl; lia|].
    rewrite size_array.
    change (stringifyAt gap indent (JArray (v :: l)))
      with ("[" +:+ breakAt gap (indent + gap)
              +:+ joinItems ("," +:+ breakAt gap (indent + gap))
                    (map (stringifyAt gap (indent + gap)) (v :: l))
              +:+ breakAt gap indent +:+ "]").
    rewrite !length_append.
    pose proof (items_fit ("," +:+ breakAt gap (indent + gap))
                  (map (stringifyAt gap (indent + gap)) (v :: l))
                  (map size (v :: l)) (sep_length _ _)) as Hfit.
    assert (Hsz : sizeItems (v :: l)
                  = fold_right (fun n acc => S (n + acc)) O (map size (v :: l))).
    { clear. induction (v :: l) as [|x xs IHxs]; [done|].
      cbn [sizeItems map fold_right]. by rewrite IHxs. }
    rewrite Hsz. change (String.length "[") with 1%nat.
    change (String.length "]") with 1%nat.
    enough (Forall2 (fun n t => (n <= String.length t)%nat)
              (map size (v :: l)) (map (stringifyAt gap (indent + gap)) (v :: l)))
      by (specialize (Hfit H); lia).
    clear -IH. induction IH as [|x xs Hx Hxs IHxs]; [constructor|].
    cbn [map]. constructor; [apply Hx | apply IHxs].
  - destruct l as [|kv l]; [simpl; lia|].
    rewrite size_object.
    change (stringifyAt gap indent (JObject (kv :: l)))
      with ("{" +:+ breakAt gap (indent + gap)
              +:+ joinItems ("," +:+ breakAt gap (indent + gap))
                    (map (memberText gap (indent + gap)) (kv :: l))
              +:+ breakAt gap indent +:+ "}").
    rewrite !length_append.
    pose proof (items_fit ("," +:+ breakAt gap (indent + gap))
                  (map (memberText gap (indent + gap)) (kv :: l))
                  (map (fun kv => size (snd kv)) (kv :: l)) (sep_length _ _)) as Hfit.
    assert (Hsz : sizeMembers (kv :: l)
                  = fold_right (fun n acc => S (n + acc)) O
                      (map (fun kv => size (snd kv)) (kv :: l))).
    { clear. induction (kv :: l) as [|x xs IHxs]; [done|].
      cbn [sizeMembers map fold_right]. by rewrite IHxs. }
    rewrite Hsz. change (String.length "{") with 1%nat.
    change (String.length "}") with 1%nat.
    enough (Forall2 (fun n t => (n <= String.length t)%nat)
              (map (fun kv => size (snd kv)) (kv :: l))
              (map (memberText gap (indent + gap)) (kv :: l)))
      by (specialize (Hfit H); lia).
    clear -IH. induction IH as [|x xs Hx Hxs IHxs]; [constructor|].
    cbn [map]. constructor; [|apply IHxs].
    unfold memberText. rewrite !length_append. specialize (Hx (indent + gap)%nat). lia.
Qed.

(** What [JSON.stringify] writes, with or without indentation,
    [JSON.parse] reads back. *)
Lemma parse_stringifyAt (gap : nat) (j : Json) :
  parse (stringifyAt gap 0 j) = Some j.
Proof.
  unfold parse.
  pose proof (readsBack_all j gap 0%nat (S (String.length (stringifyAt gap 0 j)))
                EmptyString) as H.
  rewrite append_empty_r in H. rewrite H; [done| |done].
  pose proof (fitsText_all gap j 0%nat). lia.
Qed.
End JsonFacts.

(** ** The cache file: what saveCache writes, loadCache reads *)

Lemma mapM_stringOfJson (ids : list string) :
  mapM stringOfJson (map Json.JString ids) = Some ids.
Proof.
  induction ids as [|id ids IH]; [done|].
  cbn. cbn in IH. by rewrite IH.
Qed.

Lemma entryOfJson_entryToJson (e : CacheEntry) :
  entryOfJson (entryToJson e) = Some (entryAsRead e).
Proof.
  destruct e as [h ids t]. unfold entryToJson, entryOfJson, entryAsRead.
  cbn [contentHash vectorIds modifiedTime].
  change (memberLookup "contentHash" _) with (Some (Json.JString h)).
  change (memberLookup "vectorIds" _) with (Some (Json.JArray (map Json.JString ids))).
  change (memberLookup "modifiedTime" _) with (Some (numberToJson t)).
  destruct t; cbn [numberToJson numberAsRead]; cbv iota beta;
    by rewrite mapM_stringOfJson.
Qed.

Lemma membersToCache_encoded (l : list (string * CacheEntry)) (acc : Cache) :
  membersToCache (map (fun kv => (fst kv, entryToJson (snd kv))) l) acc
  = Some (insertAll (prod_map id entryAsRead <$> l) acc).
Proof.
  revert acc. induction l as [|[k e] l IH]; intros acc; [done|].
  cbn [map membersToCache fst snd]. rewrite entryOfJson_entryToJson.
  cbn. apply IH.
Qed.

Lemma insertAll_list_to_map (l : list (string * CacheEntry)) (acc : Cache) :
  NoDup (map fst l) ->
  insertAll l acc = (list_to_map l : Cache) ∪ acc.
Proof.
  revert acc. induction l as [|[k e] l IH]; intros acc Hnd.
  - cbn. by rewrite (left_id_L ∅ (∪)).
  - cbn [map fst] in Hnd. apply NoDup_cons in Hnd as [Hk Hnd].
    unfold insertAll in *. cbn [fold_left fst snd]. rewrite IH by done.
    cbn [list_to_map foldr]. rewrite <- insert_union_l.
    symmetry. apply insert_union_r.
    by apply not_elem_of_list_to_map_1.
Qed.

(** What is read is what was written, but for the times that JSON cannot
    write. *)
Lemma decode_encode (c : Cache) :
  decodeCache (encodeCache c) = Some (cacheAsRead c).
Proof.
  unfold decodeCache, encodeCache, Json.stringifyPretty.
  rewrite parse_stringifyAt. cbn [mbind option_bind].
  unfold cacheToJson, cacheOfJson. rewrite membersToCache_encoded.
  rewrite insertAll_list_to_map.
  - rewrite (right_id_L ∅ (∪)). unfold cacheAsRead.
    by rewrite list_to_map_fmap, list_to_map_to_list.
  - replace (map fst (prod_map id entryAsRead <$> map_to_list c))
      with (map fst (map_to_list c)); [apply NoDup_fst_map_to_list|].
    generalize (map_to_list c). intros l.
    induction l as [|[k e] l IH]; [done|]. cbn. by rewrite IH.
Qed.

Lemma numberAsRead_valid (n : JsNumber) : validTime n -> numberAsRead n = n.
Proof. by intros (z & -> & _). Qed.

Lemma cacheAsRead_valid (c : Cache) : validTimes c -> cacheAsRead c = c.
Proof.
  intros Hvalid. apply map_eq. intros path. unfold cacheAsRead.
  rewrite lookup_fmap. destruct (c !! path) as [[h ids t]|] eqn:Hpath; [|done].
  cbn. unfold entryAsRead. cbn [contentHash vectorIds modifiedTime].
  by rewrite (numberAsRead_valid t (Hvalid path _ Hpath)).
Qed.

(** A cache that was read from a file reads back as itself. *)
Lemma entryOfJson_fixed (j : Json.Json) (e : CacheEntry) :
  entryOfJson j = Some e -> entryAsRead e = e.
Proof.
  unfold entryOfJson. intros H.
  repeat case_match; try discriminate;
    (destruct (mapM stringOfJson _); cbn in H; [|discriminate]);
    injection H as <-; reflexivity.
Qed.

Lemma membersToCache_fixed (members : list (string * Json.Json)) :
  forall acc c,
    cacheAsRead acc = acc -> membersToCache members acc = Some c ->
    cacheAsRead c = c.
Proof.
  induction members as [|[k v] members IH]; intros acc c Hacc H.
  - cbn in H. by injection H as <-.
  - cbn [membersToCache] in H.
    destruct (entryOfJson v) as [e|] eqn:He; [|discriminate]. cbn in H.
    apply (IH (<[k := e]> acc)); [|done].
    unfold cacheAsRead in *. rewrite fmap_insert, Hacc.
    by rewrite (entryOfJson_fixed v e He).
Qed.

Lemma decodeCache_fixed (data : string) (c : Cache) :
  decodeCache data = Some c -> cacheAsRead c = c.
Proof.
  unfold decodeCache. destruct (Json.parse data) as [j|]; [|done]. cbn.
  destruct j; try done. apply membersToCache_fixed.
  unfold cacheAsRead. apply fmap_empty.
Qed.

Lemma cacheReadable_fixed (w : World) (c : Cache) :
  cacheReadable w c -> cacheAsRead c = c.
Proof.
  intros [_ Hfile]. destruct (files w !! CACHE_FILE_PATH) as [f|].
  - by apply (decodeCache_fixed (content f)).
  - subst c. unfold cacheAsRead. apply fmap_empty.
Qed.

Lemma cache_read_back (c : Cache) (w w1 : World) :
  saveCache c w = (Returned tt, w1) ->
  loadCache w1 = (Returned (cacheAsRead c), afterLoad w1).
Proof.
  intros Hsave.
  destruct (cacheLock w) eqn:Hlock.
  - exfalso. unfold saveCache, waitForCacheLock in Hsave. munfold.
    by rewrite Hlock in Hsave.
  - rewrite saveCache_run in Hsave by done. injection Hsave as <-.
    apply (loadCache_present _ (mkFile (encodeCache c) (now w))).
    + reflexivity.
    + unfold afterSave, filesAfterSave. wsimpl.
      destruct cache_paths_distinct as (_ & Hcb & _).
      rewrite lookup_delete_ne by done. apply lookup_insert_eq.
    + apply decode_encode.
Qed.

(** C8.  A cache whose modification times are times of valid dates is
    read back as it was saved: after a [saveCache] of it that returned,
    [loadCache] returns it. *)
Theorem cache_round_trip (c : Cache) (w w1 : World) :
  validTimes c ->
  saveCache c w = (Returned tt, w1) ->
  loadCache w1 = (Returned c, afterLoad w1).
Proof.
  intros Hvalid Hsave.
  rewrite <- (cacheAsRead_valid c Hvalid) at 1. by apply (cache_read_back c w).
Qed.

(** A modification time that is [NaN] is saved as [null] and read back as
    [null]: the cache that [loadCache] returns is not the one saved. *)
Lemma nan_time_is_not_read_back :
  saveCache invalidDateCache (freshWorld (envWith backendDown) 10)
  = (Returned tt, afterSave invalidDateCache (freshWorld (envWith backendDown) 10))
  /\ fst (loadCache (afterSave invalidDateCache (freshWorld (envWith backendDown) 10)))
     = Returned {[ "vault/a.md" := mkEntry "h" ["vault/a.md::0"] JsNull ]}
  /\ fst (loadCache (afterSave invalidDateCache (freshWorld (envWith backendDown) 10)))
     <> Returned invalidDateCache.
Proof.
  pose proof (cache_read_back invalidDateCache
                (freshWorld (envWith backendDown) 10) _
                (saveCache_run invalidDateCache
                   (freshWorld (envWith backendDown) 10) eq_refl)) as Hload.
  split_and!.
  - by apply saveCache_run.
  - rewrite Hload. cbn [fst]. f_equal; unfold cacheAsRead, invalidDateCache;
      by rewrite ?map_fmap_singleton.
  - rewrite Hload. cbn [fst]. intros H.
    apply (f_equal (fun o : Outcome Cache =>
                      match o with
                      | Returned m => modifiedTime <$> m !! "vault/a.md"
                      | _ => None
                      end)) in H.
    unfold cacheAsRead, invalidDateCache in H.
    rewrite map_fmap_singleton, !lookup_singleton_eq in H. discriminate H.
Qed.

(** ** Preservation of invariants *)

Create HintDb keeps.

Section Keeps.
Context {A B : Type} (I : World -> Prop).

Lemma keeps_ret (a : A) : keeps I (mret a).
Proof. by intros w. Qed.

Lemma keeps_ret' (a : A) : keeps I (ret a).
Proof. by intros w. Qed.

Lemma keeps_throw (e : Thrown) : keeps I (throw e : M A).
Proof. by intros w. Qed.

Lemma keeps_diverge : keeps I (diverge : M A).
Proof. by intros w. Qed.

Lemma keeps_bind (m : M A) (k : A -> M B) :
  keeps I m -> (forall a, keeps I (k a)) -> keeps I (m ≫= k).
Proof.
  intros Hm Hk w HI. specialize (Hm w HI). unfold mbind, M_bind, bind.
  destruct (m w) as [[a|e|] w']; cbn in *; [by apply Hk|done|done].
Qed.

Lemma keeps_tryCatch (m : M A) (h : Thrown -> M A) :
  keeps I m -> (forall e, keeps I (h e)) -> keeps I (tryCatch m h).
Proof.
  intros Hm Hh w HI. specialize (Hm w HI). unfold tryCatch.
  destruct (m w) as [[a|e|] w']; cbn in *; [done|by apply Hh|done].
Qed.

Lemma keeps_tryFinally (m : M A) (fin : M unit) :
  keeps I m -> keeps I fin -> keeps I (tryFinally m fin).
Proof.
  intros Hm Hf w HI. specialize (Hm w HI). unfold tryFinally.
  destruct (m w) as [[a|e|] w']; cbn in *; [| |done];
    specialize (Hf w' Hm); by destruct (fin w') as [[[]|e'|] w''].
Qed.

Lemma keeps_gets (f : World -> A) : keeps I (gets f).
Proof. by intros w. Qed.

Lemma keeps_modify (f : World -> World) :
  (forall w, I w -> I (f w)) -> keeps I (modify f).
Proof. intros Hf w HI. by apply Hf. Qed.

End Keeps.

Lemma keeps_forEach {A} (I : World -> Prop) (body : A -> M unit) (l : list A) :
  (forall x, keeps I (body x)) -> keeps I (forEach body l).
Proof.
  intros Hb. induction l as [|x l IH]; [by intros w|].
  cbn [forEach]. apply keeps_bind; [apply Hb|done].
Qed.

Lemma keeps_mapM_ {A B} (I : World -> Prop) (f : A -> M B) (l : list A) :
  (forall x, keeps I (f x)) -> keeps I (mapM_ f l).
Proof.
  intros Hf. induction l as [|x l IH]; [by intros w|].
  cbn [mapM_]. apply keeps_bind; [apply Hf|intros y].
  apply keeps_bind; [done|intros ys]. apply keeps_ret.
Qed.

(** Goals of the shape [I w -> I (setX v w)] for an insensitive [I]. *)
Ltac ins_solve :=
  intros;
  repeat match goal with
    | |- _ => assumption
    | |- Insensitive _ => apply ins_base
    | |- ?J (setFiles _ _) => apply (ins_files J)
    | |- ?J (setDirs _ _) => apply (ins_dirs J)
    | |- ?J (setNow _ _) => apply (ins_now J)
    | |- ?J (setFetchCount _ _) => apply (ins_fetchCount J)
    | |- ?J (setTimestamps _ _) => apply (ins_timestamps J)
    | |- ?J (setCacheLock _ _) => apply (ins_cacheLock J)
    | |- ?J (setLock _ _ _ _) => apply (ins_lock J)
    | |- ?J (setOperationCount _ _) => apply (ins_operationCount J)
    | |- ?J (setLastBackupTime _ _) => apply (ins_lastBackupTime J)
    | |- ?J (setBackups _ _) => apply (ins_backups J)
    | |- ?J (setLogged _ _) => apply (ins_logged J)
    | |- ?J (setIndex _ _) => apply (ins_index J)
    end.

(** One step through the structure of a computation. *)
Ltac keeps_step :=
  first
    [ solve [eauto 2 with keeps]
    | apply keeps_ret | apply keeps_ret' | apply keeps_throw | apply keeps_diverge
    | apply keeps_gets
    | apply keeps_modify; solve [ins_solve]
    | apply keeps_bind | apply keeps_tryCatch | apply keeps_tryFinally
    | apply keeps_forEach | apply keeps_mapM_
    | match goal with
      | |- forall _, _ => intro
      | |- keeps _ (if ?b then _ else _) => destruct b
      | |- keeps _ (match ?x with _ => _ end) => destruct x
      | |- keeps _ (let _ := _ in _) => cbv zeta
      end ].

Ltac keeps_auto := repeat keeps_step.

(** A primitive given as a function of the world. *)
Ltac keeps_prim :=
  let w := fresh "w" in
  let HI := fresh "HI" in
  intros w HI; cbv beta zeta delta [readFile writeFile rename unlink statMtime access
    mkdir sleep fetchEmbeddings waitForCacheLock acquireLock releaseLock
    isIndexCreated createIndex deleteIndex beginUpdate endUpdate listItems
    getItem insertItem deleteItem queryItems modify gets ret];
  repeat case_match; cbn [snd]; ins_solve.

Section Leaves.
Context (I : World -> Prop) (HI : Insensitive I).

Lemma keeps_logLine lv msg : keeps I (logLine lv msg).
Proof. unfold logLine. keeps_auto. Qed.
Hint Resolve keeps_logLine : keeps.

Lemma keeps_logProcessError p e : keeps I (logProcessError p e).
Proof. unfold logProcessError. keeps_auto. Qed.
Lemma keeps_logWarning msg : keeps I (logWarning msg).
Proof. unfold logWarning. keeps_auto. Qed.
Lemma keeps_logInfo msg : keeps I (logInfo msg).
Proof. unfold logInfo. keeps_auto. Qed.
Lemma keeps_logProcessRetrying p : keeps I (logProcessRetrying p).
Proof. unfold logProcessRetrying. keeps_auto. Qed.
Lemma keeps_logProcessSkipped p : keeps I (logProcessSkipped p).
Proof. unfold logProcessSkipped. keeps_auto. Qed.
Hint Resolve keeps_logProcessError keeps_logWarning keeps_logInfo
  keeps_logProcessRetrying keeps_logProcessSkipped : keeps.

Lemma keeps_sleep ms : keeps I (sleep ms).
Proof. keeps_prim. Qed.
Lemma keeps_readFile p : keeps I (readFile p).
Proof. keeps_prim. Qed.
Lemma keeps_writeFile p d : keeps I (writeFile p d).
Proof. keeps_prim. Qed.
Lemma keeps_rename a b : keeps I (rename a b).
Proof. keeps_prim. Qed.
Lemma keeps_unlink p : keeps I (unlink p).
Proof. keeps_prim. Qed.
Lemma keeps_statMtime p : keeps I (statMtime p).
Proof. keeps_prim. Qed.
Lemma keeps_access p : keeps I (access p).
Proof. keeps_prim. Qed.
Lemma keeps_mkdir p : keeps I (mkdir p).
Proof. keeps_prim. Qed.
Lemma keeps_fetchEmbeddings p : keeps I (fetchEmbeddings p).
Proof. keeps_prim. Qed.
Lemma keeps_waitForCacheLock : keeps I waitForCacheLock.
Proof. keeps_prim. Qed.
Lemma keeps_acquireLock : keeps I acquireLock.
Proof. keeps_prim. Qed.
Lemma keeps_releaseLock : keeps I releaseLock.
Proof. keeps_prim. Qed.
Lemma keeps_isIndexCreated : keeps I isIndexCreated.
Proof. keeps_prim. Qed.
Lemma keeps_listItems : keeps I listItems.
Proof. keeps_prim. Qed.
Lemma keeps_getItem id : keeps I (getItem id).
Proof. keeps_prim. Qed.
Lemma keeps_queryItems v q k : keeps I (queryItems v q k).
Proof. keeps_prim. Qed.
Hint Resolve keeps_sleep keeps_readFile keeps_writeFile keeps_rename
  keeps_unlink keeps_statMtime keeps_access keeps_mkdir keeps_fetchEmbeddings
  keeps_waitForCacheLock keeps_acquireLock keeps_releaseLock
  keeps_isIndexCreated keeps_listItems keeps_getItem keeps_queryItems : keeps.

Lemma keeps_ignoreErrors m : keeps I m -> keeps I (ignoreErrors m).
Proof. intros Hm. unfold ignoreErrors. keeps_auto. Qed.
Hint Resolve keeps_ignoreErrors : keeps.

Lemma keeps_saveCache c : keeps I (saveCache c).
Proof. unfold saveCache. keeps_auto. Qed.

Lemma keeps_loadCache : keeps I loadCache.
Proof. unfold loadCache. keeps_auto. Qed.
Hint Resolve keeps_saveCache keeps_loadCache : keeps.

Lemma keeps_waitForSlot : keeps I waitForSlot.
Proof. unfold waitForSlot, rateCleanup. keeps_auto. Qed.
Hint Resolve keeps_waitForSlot : keeps.

Lemma keeps_retryFrom {A} cfg (op : M A) left delay :
  keeps I op -> keeps I (retryFrom cfg op left delay).
Proof.
  intros Hop. revert delay. induction left as [|left IH]; intros delay;
    cbn [retryFrom]; keeps_auto.
Qed.

Lemma keeps_retryWithBackoff {A} (op : M A) :
  keeps I op -> keeps I (retryWithBackoff op).
Proof. apply keeps_retryFrom. Qed.
Hint Resolve keeps_retryWithBackoff : keeps.

Lemma keeps_embedOperation chunk : keeps I (embedOperation chunk).
Proof. unfold embedOperation. keeps_auto. Qed.
Lemma keeps_queryOperation q : keeps I (queryOperation q).
Proof. unfold queryOperation. keeps_auto. Qed.
Hint Resolve keeps_embedOperation keeps_queryOperation : keeps.

Lemma keeps_queryOllama q : keeps I (queryOllama q).
Proof. unfold queryOllama. keeps_auto. Qed.

Lemma keeps_attemptLoop chunk remaining last :
  keeps I (attemptLoop chunk remaining last).
Proof.
  revert last. induction remaining as [|n IH]; intros last;
    cbn [attemptLoop]; keeps_auto.
Qed.
Hint Resolve keeps_attemptLoop keeps_queryOllama : keeps.

Lemma keeps_embedPass chunks : keeps I (embedPass chunks).
Proof. induction chunks as [|c chunks IH]; cbn [embedPass]; keeps_auto. Qed.
Hint Resolve keeps_embedPass : keeps.

Lemma keeps_embedChunks fuel chunks : keeps I (embedChunks fuel chunks).
Proof.
  revert chunks. induction fuel as [|fuel IH]; intros chunks;
    cbn [embedChunks]; keeps_auto.
Qed.

End Leaves.

#[global] Hint Resolve keeps_logLine keeps_logProcessError keeps_logWarning
  keeps_logInfo keeps_logProcessRetrying keeps_logProcessSkipped
  keeps_sleep keeps_readFile keeps_writeFile keeps_rename
  keeps_unlink keeps_statMtime keeps_access keeps_mkdir keeps_fetchEmbeddings
  keeps_waitForCacheLock keeps_acquireLock keeps_releaseLock
  keeps_isIndexCreated keeps_listItems keeps_getItem keeps_queryItems
  keeps_ignoreErrors keeps_saveCache keeps_loadCache keeps_waitForSlot
  keeps_retryWithBackoff keeps_embedOperation keeps_queryOperation
  keeps_attemptLoop keeps_queryOllama keeps_embedPass keeps_embedChunks : keeps.

Section Store.
Context (I : World -> Prop) (HI : IndexInsensitive I).

Local Lemma HbaseI : Insensitive I.
Proof. apply HI. Qed.
Hint Resolve HbaseI : keeps.

Lemma keeps_createIndex : keeps I createIndex.
Proof. keeps_prim. Qed.
Lemma keeps_deleteIndex : keeps I deleteIndex.
Proof. keeps_prim. Qed.
Lemma keeps_beginUpdate : keeps I beginUpdate.
Proof. keeps_prim. Qed.
Lemma keeps_endUpdate : keeps I endUpdate.
Proof. keeps_prim. Qed.
Lemma keeps_insertItem r : keeps I (insertItem r).
Proof. keeps_prim. Qed.
Lemma keeps_deleteItem id : keeps I (deleteItem id).
Proof. keeps_prim. Qed.
Hint Resolve keeps_createIndex keeps_deleteIndex keeps_beginUpdate
  keeps_endUpdate keeps_insertItem keeps_deleteItem : keeps.

Lemma keeps_getAllVectorIds : keeps I getAllVectorIds.
Proof. unfold getAllVectorIds. keeps_auto. Qed.
Hint Resolve keeps_getAllVectorIds : keeps.

Lemma keeps_cleanupOne ids t v : keeps I (cleanupOne ids t v).
Proof. unfold cleanupOne. keeps_auto. Qed.
Hint Resolve keeps_cleanupOne : keeps.

Lemma keeps_cleanupOrphanedVectors : keeps I cleanupOrphanedVectors.
Proof. unfold cleanupOrphanedVectors. keeps_auto. Qed.

Lemma keeps_optimizeVectorStore : keeps I optimizeVectorStore.
Proof. unfold optimizeVectorStore. keeps_auto. Qed.

Lemma keeps_cleanupBackups : keeps I cleanupBackups.
Proof. unfold cleanupBackups. apply keeps_modify. intros w Hw.
  destruct (_ <? _)%nat; ins_solve. Qed.
Hint Resolve keeps_cleanupOrphanedVectors keeps_optimizeVectorStore
  keeps_cleanupBackups : keeps.

Lemma keeps_backupVectorStore : keeps I backupVectorStore.
Proof. unfold backupVectorStore. keeps_auto. Qed.
Hint Resolve keeps_backupVectorStore : keeps.

Lemma keeps_storeOne p i c : keeps I (storeOne p i c).
Proof. unfold storeOne. keeps_auto. Qed.
Hint Resolve keeps_storeOne : keeps.

Lemma keeps_storeLoop p i cs : keeps I (storeLoop p i cs).
Proof. revert i. induction cs as [|c cs IH]; intros i; cbn [storeLoop]; keeps_auto. Qed.
Hint Resolve keeps_storeLoop : keeps.

Lemma keeps_storeChunks p cs : keeps I (storeChunks p cs).
Proof. unfold storeChunks. keeps_auto. Qed.
Hint Resolve keeps_storeChunks : keeps.

Lemma keeps_processFile fuel p : keeps I (processFile fuel p).
Proof. unfold processFile. keeps_auto. Qed.

Lemma keeps_deleteFile p : keeps I (deleteFile p).
Proof. unfold deleteFile. keeps_auto. Qed.
Hint Resolve keeps_processFile keeps_deleteFile : keeps.

Lemma keeps_dispatchEvent fuel ev p : keeps I (dispatchEvent fuel ev p).
Proof. unfold dispatchEvent. keeps_auto. Qed.
Hint Resolve keeps_dispatchEvent : keeps.

Lemma keeps_handleBody fuel ev p : keeps I (handleBody fuel ev p).
Proof. unfold handleBody. keeps_auto. Qed.

Lemma keeps_loadText r : keeps I (loadText r).
Proof. unfold loadText. keeps_auto. Qed.
Hint Resolve keeps_loadText : keeps.

Lemma keeps_searchContent q : keeps I (searchContent q).
Proof.
  unfold searchContent, searchBody, searchEmbed, searchFinish. keeps_auto.
Qed.

End Store.

Lemma envIs_insensitive (e : Env) : IndexInsensitive (envIs e).
Proof. split; [split|]; intros; assumption. Qed.

Lemma queueIs_insensitive (busy : bool) (q : list QueueEntry) :
  IndexInsensitive (queueIs busy q).
Proof. split; [split|]; intros; assumption. Qed.

(** ** Embedder *)

#[global] Hint Resolve keeps_createIndex keeps_deleteIndex keeps_beginUpdate
  keeps_endUpdate keeps_insertItem keeps_deleteItem keeps_getAllVectorIds
  keeps_cleanupOne keeps_cleanupOrphanedVectors keeps_optimizeVectorStore
  keeps_cleanupBackups keeps_backupVectorStore keeps_storeOne keeps_storeLoop
  keeps_storeChunks keeps_processFile keeps_deleteFile keeps_dispatchEvent
  keeps_handleBody keeps_loadText keeps_searchContent : keeps.

Lemma env_kept {A} (m : M A) (w : World) :
  keeps (envIs (env w)) m -> env (snd (m w)) = env w.
Proof. intros H. by apply H. Qed.

Lemma embedOperation_fails (chunk : string) (w : World) :
  backendAlwaysFails (env w) ->
  exists e, fst (embedOperation chunk w) = Threw e.
Proof.
  intros Hdown. unfold embedOperation, fetchEmbeddings. munfold.
  specialize (Hdown (fetchCount w) chunk).
  destruct (backend (env w) (fetchCount w) chunk) as [e|st body|e| |v];
    cbn in *; eauto.
  apply negb_true_iff in Hdown. rewrite Hdown. cbn. eauto.
Qed.

Lemma retryFrom_env {A} (op : M A) (left : nat) (delay : Z) (w : World) :
  (forall e, keeps (envIs e) op) ->
  env (snd (retryFrom defaultRetry op left delay w)) = env w.
Proof.
  intros Hop. apply env_kept. apply keeps_retryFrom; [apply envIs_insensitive|done].
Qed.

Lemma embedOperation_env (chunk : string) (w : World) :
  env (snd (embedOperation chunk w)) = env w.
Proof. apply env_kept, keeps_embedOperation, envIs_insensitive. Qed.

Lemma waitForSlot_returns (w : World) : fst (waitForSlot w) = Returned tt.
Proof.
  unfold waitForSlot, rateCleanup, sleep. munfold. wsimpl.
  by destruct (_ <=? _)%nat.
Qed.

Lemma retryFrom_fails (chunk : string) (left : nat) (delay : Z) (w : World) :
  backendAlwaysFails (env w) ->
  exists e, fst (retryFrom defaultRetry (embedOperation chunk) left delay w) = Threw e.
Proof.
  revert delay w. induction left as [|left IH]; intros delay w Hdown;
    cbn [retryFrom]; unfold tryCatch;
    destruct (embedOperation_fails chunk w Hdown) as [e He];
    pose proof (embedOperation_env chunk w) as Henv;
    destruct (embedOperation chunk w) as [o w1]; cbn [fst snd] in He, Henv; subst o.
  - cbn. eauto.
  - rewrite <- Henv in Hdown.
    unfold logProcessRetrying, logLine, sleep. munfold. wsimpl.
    apply IH. exact Hdown.
Qed.

Lemma attemptLoop_fails (chunk : string) (remaining : nat) (last : option Thrown)
  (w : World) :
  backendAlwaysFails (env w) ->
  exists err, fst (attemptLoop chunk remaining last w) = Returned (inr err).
Proof.
  revert last w. induction remaining as [|n IH]; intros last w Hdown;
    cbn [attemptLoop]; [by eexists|].
  unfold mbind, M_bind, bind, tryCatch.
  pose proof (env_kept waitForSlot w
                (keeps_waitForSlot _ (ins_base _ (envIs_insensitive _)))) as Hslot.
  pose proof (waitForSlot_returns w) as Hret.
  destruct (waitForSlot w) as [o w1]; cbn [fst snd] in *; subst o.
  rewrite <- Hslot in Hdown. unfold retryWithBackoff.
  destruct (retryFrom_fails chunk (maxRetries defaultRetry)
              (initialDelay defaultRetry) w1 Hdown) as [e He].
  pose proof (retryFrom_env (embedOperation chunk) (maxRetries defaultRetry)
                (initialDelay defaultRetry) w1) as Henv.
  destruct (retryFrom defaultRetry (embedOperation chunk) (maxRetries defaultRetry)
              (initialDelay defaultRetry) w1) as [o w2];
    cbn [fst snd] in He, Henv; subst o.
  rewrite <- Henv in Hdown
    by (intros e0; apply keeps_embedOperation, envIs_insensitive).
  unfold logProcessError, logProcessRetrying, logLine. munfold.
  destruct (0 <? n)%nat; wsimpl; apply IH; exact Hdown.
Qed.

Lemma attemptLoop_env (chunk : string) (remaining : nat) (last : option Thrown)
  (w : World) :
  env (snd (attemptLoop chunk remaining last w)) = env w.
Proof. apply env_kept, keeps_attemptLoop, envIs_insensitive. Qed.

Lemma embedPass_fails (chunks : list string) (w : World) :
  backendAlwaysFails (env w) ->
  exists failed,
    fst (embedPass chunks w) = Returned ([], failed) /\ map fst failed = chunks.
Proof.
  revert w. induction chunks as [|chunk chunks IH]; intros w Hdown;
    cbn [embedPass]; [by exists []|].
  unfold mbind, M_bind, bind.
  destruct (attemptLoop_fails chunk (S (length API_fallbackModels)) None w Hdown)
    as [err Herr].
  pose proof (attemptLoop_env chunk (S (length API_fallbackModels)) None w) as Henv.
  destruct (attemptLoop chunk (S (length API_fallbackModels)) None w) as [o w1];
    cbn [fst snd] in Herr, Henv; subst o.
  rewrite <- Henv in Hdown.
  unfold logWarning, logLine. munfold. wsimpl.
  match goal with
  | |- context [embedPass chunks ?w2] =>
      destruct (IH w2 Hdown) as (failed & Hf & Hm);
      destruct (embedPass chunks w2) as [o w3]
  end.
  cbn [fst] in Hf. subst o. cbn. exists ((chunk, err) :: failed).
  split; [done|]. cbn. by rewrite Hm.
Qed.

Lemma embedPass_env (chunks : list string) (w : World) :
  env (snd (embedPass chunks w)) = env w.
Proof. apply env_kept, keeps_embedPass, envIs_insensitive. Qed.

(** C1 (as the code has it).  With a backend from which no embedding can be
    had, a call of [embedChunks] on a non-empty list does not come back,
    whatever depth of self-calls is allowed: each call retries all its
    failed chunks with a further call. *)
Theorem embedChunks_never_returns (fuel : nat) (chunks : list string) (w : World) :
  backendAlwaysFails (env w) -> chunks <> [] ->
  fst (embedChunks fuel chunks w) = Diverged.
Proof.
  revert chunks w. induction fuel as [|fuel IH]; intros chunks w Hdown Hne;
    [done|].
  cbn [embedChunks]. destruct chunks as [|c chunks]; [done|].
  unfold mbind, M_bind, bind.
  destruct (embedPass_fails (c :: chunks) w Hdown) as (failed & Hf & Hm).
  pose proof (embedPass_env (c :: chunks) w) as Henv.
  destruct (embedPass (c :: chunks) w) as [o w1]; cbn [fst snd] in Hf, Henv; subst o.
  cbn [fst snd]. destruct failed as [|f failed]; [done|].
  unfold logWarning, logLine. munfold. wsimpl.
  match goal with
  | |- context [embedChunks fuel ?l ?w2] =>
      specialize (IH l w2); destruct (embedChunks fuel l w2) as [o w3]
  end.
  cbn [fst] in IH. rewrite IH; [done| by rewrite <- Henv in Hdown | done].
Qed.

(** *** The order of the results *)

Lemma bind_returned {A B} (m : M A) (k : A -> M B) (w w' : World) (b : B) :
  (m ≫= k) w = (Returned b, w') ->
  exists a w1, m w = (Returned a, w1) /\ k a w1 = (Returned b, w').
Proof.
  unfold mbind, M_bind, bind. destruct (m w) as [[a|e|] w1]; [eauto|done|done].
Qed.

Lemma embedPass_split (chunks : list string) (w w1 : World)
  (results : list Embedded) (failed : list (string * option Thrown)) :
  embedPass chunks w = (Returned (results, failed), w1) ->
  sublist (map text results) chunks
  /\ sublist (map fst failed) chunks
  /\ map text results ++ map fst failed ≡ₚ chunks.
Proof.
  revert w w1 results failed.
  induction chunks as [|c chunks IH]; intros w w1 results failed Hrun.
  - cbn in Hrun. injection Hrun as <- <- <-. by repeat split.
  - cbn [embedPass] in Hrun.
    apply bind_returned in Hrun as ([emb|err] & w2 & _ & Hrun).
    + apply bind_returned in Hrun as ([res fl] & w3 & Hpass & Hret).
      cbn in Hret. injection Hret as <- <- <-.
      destruct (IH _ _ _ _ Hpass) as (Hr & Hf & Hp).
      cbn [map text]. repeat split.
      * by apply sublist_skip.
      * by apply sublist_cons.
      * cbn. by rewrite Hp.
    + apply bind_returned in Hrun as ([] & w3 & _ & Hrun).
      apply bind_returned in Hrun as ([res fl] & w4 & Hpass & Hret).
      cbn in Hret. injection Hret as <- <- <-.
      destruct (IH _ _ _ _ Hpass) as (Hr & Hf & Hp).
      cbn [map fst]. repeat split.
      * by apply sublist_cons.
      * by apply sublist_skip.
      * rewrite <- Hp. symmetry. apply Permutation_middle.
Qed.
Lemma embedChunks_unfold (fuel : nat) (chunks : list string) (w w' : World)
  (out : list Embedded) :
  embedChunks fuel chunks w = (Returned out, w') ->
  chunks <> [] ->
  exists fuel' results failed w1 retry,
    fuel = S fuel'
    /\ embedPass chunks w = (Returned (results, failed), w1)
    /\ out = results ++ retry
    /\ (failed = [] -> retry = [])
    /\ (failed <> [] ->
        exists w2, embedChunks fuel' (map fst failed) w2 = (Returned retry, w')).
Proof.
  intros Hrun Hne. destruct fuel as [|fuel]; [done|].
  cbn [embedChunks] in Hrun. destruct chunks as [|c chunks]; [done|].
  apply bind_returned in Hrun as ([results failed] & w1 & Hpass & Hrun).
  cbn [fst snd] in Hrun. exists fuel, results, failed, w1.
  destruct failed as [|f failed].
  - cbn in Hrun. injection Hrun as <- <-. exists []. rewrite app_nil_r.
    split_and!; done.
  - apply bind_returned in Hrun as ([] & w2 & _ & Hrun).
    apply bind_returned in Hrun as (retry & w3 & Hretry & Hret).
    cbn in Hret. injection Hret as <- <-. exists retry.
    split_and!; [done|done|done|done|]. intros _. by exists w2.
Qed.

Lemma embedChunks_permutation (fuel : nat) (chunks : list string) (w w' : World)
  (out : list Embedded) :
  embedChunks fuel chunks w = (Returned out, w') ->
  map text out ≡ₚ chunks.
Proof.
  revert chunks w w' out. induction fuel as [|fuel IH];
    intros chunks w w' out Hrun; [done|].
  destruct chunks as [|c chunks].
  - cbn in Hrun. by injection Hrun as <- <-.
  - destruct (embedChunks_unfold _ _ _ _ _ Hrun)
      as (fuel' & results & failed & w1 & retry & [= <-] & Hpass & -> & Hnil & Hretry);
      [done|].
    destruct (embedPass_split _ _ _ _ _ Hpass) as (_ & _ & Hperm).
    rewrite map_app, <- Hperm. f_equiv.
    destruct failed as [|f failed]; [by rewrite Hnil|].
    destruct Hretry as [w2 Hretry]; [done|]. by apply IH in Hretry.
Qed.

(** Two distinct elements of a duplicate-free list are not found in the
    opposite order in a splitting of that list. *)
Lemma order_differs (chunks first second : list string) (i j : nat) (c d : string) :
  NoDup chunks -> (i < j)%nat ->
  chunks !! i = Some c -> chunks !! j = Some d ->
  d ∈ first -> c ∈ second ->
  first ++ second <> chunks.
Proof.
  intros Hnd Hij Hc Hd Hdf Hcs Heq. subst chunks.
  apply list_elem_of_lookup in Hdf as [jd Hjd].
  apply list_elem_of_lookup in Hcs as [ic Hic].
  assert (Hj : j = jd).
  { eapply NoDup_lookup; [exact Hnd|exact Hd|]. by apply lookup_app_l_Some. }
  assert (Hi : i = (length first + ic)%nat).
  { eapply NoDup_lookup; [exact Hnd|exact Hc|].
    rewrite lookup_app_r by lia. by replace (length first + ic - length first)%nat with ic by lia. }
  apply lookup_lt_Some in Hjd. lia.
Qed.
Lemma tryCatch_returned {A} (m : M A) (h : Thrown -> M A) (w w' : World) (a : A) :
  tryCatch m h w = (Returned a, w') ->
  m w = (Returned a, w')
  \/ exists e w1, m w = (Threw e, w1) /\ h e w1 = (Returned a, w').
Proof.
  unfold tryCatch. destruct (m w) as [[x|e|] w1]; [by left|eauto|done].
Qed.

Lemma tryFinally_returned {A} (m : M A) (fin : M unit) (w w' : World) (a : A) :
  tryFinally m fin w = (Returned a, w') ->
  exists w1, m w = (Returned a, w1) /\ fin w1 = (Returned tt, w').
Proof.
  unfold tryFinally. destruct (m w) as [[x|e|] w1]; [| |done];
    destruct (fin w1) as [[[]|e'|] w2] eqn:Hfin; try done.
  intros [= -> ->]. eauto.
Qed.

Lemma rethrow_not_returned {A} (k : M unit) (e : Thrown) (w w' : World) (a : A) :
  (k ;; throw e) w = (Returned a, w') -> False.
Proof.
  intros H. apply bind_returned in H as (? & ? & _ & H). discriminate H.
Qed.

Lemma env_after {A} (m : M A) (w w' : World) (o : Outcome A) :
  m w = (o, w') -> (forall e, keeps (envIs e) m) -> env w' = env w.
Proof. intros Hrun Hm. specialize (Hm (env w) w eq_refl). by rewrite Hrun in Hm. Qed.

Lemma storeOne_id (path : string) (i : nat) (c : Embedded) (w w' : World)
  (id : string) :
  storeOne path i c w = (Returned id, w') ->
  id = chunkIdOf (relativeToCwd (env w) path) i.
Proof.
  unfold storeOne. intros H.
  apply bind_returned in H as (rel & w1 & Hrel & H).
  cbv [gets] in Hrel. injection Hrel as <- <-.
  apply tryCatch_returned in H as [H|(e & w2 & _ & H)].
  - apply bind_returned in H as (? & ? & _ & H).
    apply bind_returned in H as (? & ? & _ & H).
    apply bind_returned in H as (? & ? & _ & H).
    apply bind_returned in H as (? & ? & _ & H).
    cbv [ret] in H. by injection H as <- <-.
  - by apply rethrow_not_returned in H.
Qed.

Lemma storeLoop_ids (path : string) (chunks : list Embedded) (i : nat)
  (w w' : World) (ids : list string) :
  storeLoop path i chunks w = (Returned ids, w') ->
  ids = map (chunkIdOf (relativeToCwd (env w) path)) (seq i (length chunks)).
Proof.
  revert i w ids. induction chunks as [|c chunks IH]; intros i w ids H.
  - cbn in H. by injection H as <- <-.
  - cbn [storeLoop] in H.
    apply bind_returned in H as (id & w1 & Hone & H).
    apply bind_returned in H as (rest & w2 & Hloop & H).
    cbv [ret mret M_ret] in H. injection H as <- <-.
    pose proof (env_after _ _ _ _ Hone
                  (fun e => keeps_storeOne _ (envIs_insensitive e) _ _ _)) as Henv.
    apply storeOne_id in Hone as ->. apply IH in Hloop as ->.
    cbn [length seq map]. by rewrite Henv.
Qed.

Lemma storeChunks_ids (path : string) (chunks : list Embedded) (w w' : World)
  (ids : list string) :
  storeChunks path chunks w = (Returned ids, w') ->
  ids = map (chunkIdOf (relativeToCwd (env w) path)) (seq 0 (length chunks)).
Proof.
  unfold storeChunks. intros H.
  apply bind_returned in H as (locked & w1 & Hlock & H).
  assert (Hw1 : env w1 = env w)
    by (apply (env_after _ _ _ _ Hlock); intros;
        apply keeps_acquireLock, envIs_insensitive).
  destruct locked; cbn [negb] in H;
    [|by apply rethrow_not_returned in H].
  apply tryFinally_returned in H as (w2 & H & _).
  apply bind_returned in H as ([] & w3 & Hmk1 & H).
  apply bind_returned in H as ([] & w4 & Hmk2 & H).
  apply bind_returned in H as (ex & w5 & Hex & H).
  apply bind_returned in H as ([] & w6 & Hcreate & H).
  apply bind_returned in H as (gen & w7 & Hgen & H).
  apply bind_returned in H as (cnt & w8 & _ & H).
  apply bind_returned in H as ([] & w9 & _ & H).
  apply bind_returned in H as ([] & w10 & _ & H).
  apply bind_returned in H as ([] & w11 & _ & H).
  cbv [ret mret M_ret] in H. injection H as <- <-.
  apply tryFinally_returned in Hgen as (w12 & Hgen & _).
  apply bind_returned in Hgen as ([] & w13 & Hbegin & Hgen).
  apply bind_returned in Hgen as (existing & w14 & Hlist & Hgen).
  apply bind_returned in Hgen as ([] & w15 & Hdel & Hgen).
  apply bind_returned in Hgen as ([] & w16 & Hsleep & Hgen).
  apply storeLoop_ids in Hgen as ->. do 3 f_equal.
  pose proof envIs_insensitive as Hins.
  pose proof (fun e => ins_base _ (envIs_insensitive e)) as Hins'.
  rewrite (env_after _ _ _ _ Hsleep) by (intros; eauto with keeps).
  rewrite (env_after _ _ _ _ Hdel)
    by (intros; apply keeps_forEach; intros; apply keeps_tryCatch; eauto with keeps).
  rewrite (env_after _ _ _ _ Hlist) by (intros; eauto with keeps).
  rewrite (env_after _ _ _ _ Hbegin) by (intros; eauto with keeps).
  rewrite (env_after _ _ _ _ Hcreate)
    by (intros; destruct ex; cbn [negb];
        [apply keeps_ret'|apply keeps_tryCatch; [eauto with keeps|keeps_auto]]).
  rewrite (env_after _ _ _ _ Hex) by (intros; eauto with keeps).
  rewrite (env_after _ _ _ _ Hmk2) by (intros; eauto with keeps).
  rewrite (env_after _ _ _ _ Hmk1) by (intros; eauto with keeps).
  done.
Qed.
(** C1, at a concrete input: the backend is down, the call does not
    come back. *)
Lemma embedChunks_never_returns_witness :
  fst (embedChunks 5 ["# A"] backendDownWorld) = Diverged.
Proof.
  apply (embedChunks_never_returns 5 ["# A"] backendDownWorld).
  - intros n prompt. reflexivity.
  - discriminate.
Defined.

(** A chunk that fails two passes is retried by two nested self-calls:
    the call needs depth three. *)
Lemma embedChunks_retries_twice :
  fst (embedChunks 2 ["# A"] twoPassesFail) = Diverged
  /\ (map text <$> returned (embedChunks 3 ["# A"] twoPassesFail)) = Some ["# A"]
  /\ fetchCount (snd (embedChunks 3 ["# A"] twoPassesFail)) = 9%nat.
Proof. vm_compute. done. Qed.

(** C10, as stated, fails: the only chunk that fails the first pass is
    the last one; it is embedded by the retry, and the output is in the
    order of the input. *)
Lemma retried_last_chunk_keeps_order :
  (returned (embedPass ["a"; "b"] lastChunkRetried)
     ≫= fun pass => Some (map text (fst pass), map fst (snd pass)))
  = Some (["a"], ["b"])
  /\ (map text <$> returned (embedChunks 2 ["a"; "b"] lastChunkRetried))
     = Some ["a"; "b"].
Proof. vm_compute. done. Qed.

(** C10 (amended).  When [embedChunks] returns, its result is the first
    pass's successes, in input order, followed by the result of its call
    to itself on the chunks the first pass failed (which holds exactly
    those chunks); if the chunk texts are pairwise distinct and a chunk
    that failed the first pass stands before one that succeeded in it, the
    result is in another order than the input; and [storeChunks] gives
    the [i]-th element of its input the id [relativePath::i]. *)
Theorem embedChunks_order (fuel : nat) (chunks : list string) (w w' : World)
  (out : list Embedded) :
  embedChunks fuel chunks w = (Returned out, w') ->
  chunks <> [] ->
  exists results failed w1 retry,
    embedPass chunks w = (Returned (results, failed), w1)
    /\ out = results ++ retry
    /\ sublist (map text results) chunks
    /\ sublist (map fst failed) chunks
    /\ map text retry ≡ₚ map fst failed
    /\ (NoDup chunks ->
        forall (i j : nat) (c d : string),
          (i < j)%nat -> chunks !! i = Some c -> chunks !! j = Some d ->
          c ∈ map fst failed -> d ∈ map text results ->
          map text out <> chunks)
    /\ (forall (path : string) (ws ws' : World) (ids : list string),
          storeChunks path out ws = (Returned ids, ws') ->
          ids = map (chunkIdOf (relativeToCwd (env ws) path))
                  (seq 0 (length out))).
Proof.
  intros Hrun Hne.
  destruct (embedChunks_unfold _ _ _ _ _ Hrun Hne)
    as (fuel' & results & failed & w1 & retry & -> & Hpass & -> & Hnil & Hretry).
  destruct (embedPass_split _ _ _ _ _ Hpass) as (Hr & Hf & Hperm).
  assert (Hretry' : map text retry ≡ₚ map fst failed).
  { destruct failed as [|f failed]; [by rewrite Hnil|].
    destruct Hretry as [w2 Hretry]; [done|].
    by apply embedChunks_permutation in Hretry. }
  exists results, failed, w1, retry. split_and!; try done.
  - intros Hnd i j c d Hij Hc Hd Hcf Hdr. rewrite map_app.
    apply (order_differs chunks _ _ i j c d); try done.
    by rewrite Hretry'.
  - intros path ws ws' ids. apply storeChunks_ids.
Qed.

Lemma cache_round_trip_witness :
  loadCache (afterSave exampleCache (freshWorld (envWith backendDown) 10))
  = (Returned exampleCache,
     afterLoad (afterSave exampleCache (freshWorld (envWith backendDown) 10))).
Proof.
  apply (cache_round_trip exampleCache (freshWorld (envWith backendDown) 10)).
  - intros path entry Hentry. unfold exampleCache in Hentry.
    apply lookup_insert_Some in Hentry as [[_ <-]|[_ Hentry]].
    + eexists. split; [reflexivity|]. cbn. lia.
    + apply lookup_singleton_Some in Hentry as [_ <-].
      eexists. split; [reflexivity|]. cbn. lia.
  - vm_compute. reflexivity.
Defined.
Lemma embedChunks_order_witness :
  (map text <$> returned (embedChunks 2 ["a"; "b"] firstChunkRetried))
  = Some ["b"; "a"]
  /\ exists out,
       returned (embedChunks 2 ["a"; "b"] firstChunkRetried) = Some out
       /\ map text out <> ["a"; "b"].
Proof.
  split; [by vm_compute|].
  destruct (embedChunks 2 ["a"; "b"] firstChunkRetried) as [o w'] eqn:Hrun.
  assert (Ho : exists out, o = Returned out /\ map text out = ["b"; "a"]).
  { assert (H : (map text <$> returned (embedChunks 2 ["a"; "b"] firstChunkRetried))
                = Some ["b"; "a"]) by (by vm_compute).
    rewrite Hrun in H. unfold returned in H. cbn [fst] in H.
    destruct o as [out| |]; [|done|done]. exists out. split; [done|].
    cbn in H. by injection H. }
  destruct Ho as (out & -> & Hout). exists out. split; [done|].
  destruct (embedChunks_order 2 ["a"; "b"] firstChunkRetried w' out Hrun)
    as (results & failed & w1 & retry & Hpass & _ & _ & _ & _ & Hdiff & _);
    [discriminate|].
  assert (Hp : (returned (embedPass ["a"; "b"] firstChunkRetried)
                  ≫= fun pass => Some (map text (fst pass), map fst (snd pass)))
               = Some (["b"], ["a"])) by (by vm_compute).
  rewrite Hpass in Hp. cbn in Hp. injection Hp as Hres Hfail.
  assert (Hnd : NoDup ["a"; "b"]) by (apply (bool_decide_unpack _); by vm_compute).
  apply (Hdiff Hnd 0%nat 1%nat "a" "b");
    [lia|done|done|rewrite Hfail; apply list_elem_of_here
    |rewrite Hres; apply list_elem_of_here].
Defined.

(** C2, at a concrete input: the note [vault/a.md] was indexed into one
    record; its [unlink] event empties the cache and leaves the record in
    the index, because [deleteItem] is called with the keys of the cache
    (paths) and not with the ids of the records. *)
Lemma unlink_leaves_vectors :
  map recId (items (index indexedWorld)) = ["vault/a.md::0"]
  /\ cacheOnDisk indexedWorld
     = Some {[ "vault/a.md" :=
                 mkEntry ("sha256:# A" +:+ nl +:+ "foo") ["vault/a.md::0"] 5 ]}
  /\ fst (dispatchEvent 1 "unlink" "vault/a.md" indexedWorld) = Returned tt
  /\ cacheOnDisk (snd (dispatchEvent 1 "unlink" "vault/a.md" indexedWorld)) = Some ∅
  /\ map recId (items (index (snd (dispatchEvent 1 "unlink" "vault/a.md" indexedWorld))))
     = ["vault/a.md::0"].
Proof. split_and!; by vm_compute. Qed.
(** ** Processing an [add] event *)

Lemma cacheOnDisk_afterSave (c : Cache) (w : World) :
  cacheOnDisk (afterSave c w) = Some (cacheAsRead c).
Proof.
  unfold cacheOnDisk, afterSave, filesAfterSave. wsimpl.
  destruct cache_paths_distinct as (_ & Hcb & _).
  rewrite lookup_delete_ne by done. rewrite lookup_insert_eq. cbn.
  apply decode_encode.
Qed.

Lemma cacheAsRead_fixed (c : Cache) :
  cacheAsRead c = c <->
  forall path e, c !! path = Some e -> entryAsRead e = e.
Proof.
  unfold cacheAsRead. split.
  - intros H path e He. apply (f_equal (fun m : Cache => m !! path)) in H.
    rewrite lookup_fmap, He in H. cbn in H. by injection H.
  - intros H. apply map_eq. intros path. rewrite lookup_fmap.
    destruct (c !! path) as [e|] eqn:He; [|done]. cbn. f_equal. by apply (H path).
Qed.

Lemma cacheAsRead_insert (c : Cache) (path h : string) (ids : list string) (t : Z) :
  cacheAsRead c = c ->
  cacheAsRead (<[path := mkEntry h ids (JsInt t)]> c)
  = <[path := mkEntry h ids (JsInt t)]> c.
Proof.
  intros Hc. unfold cacheAsRead in *. by rewrite fmap_insert, Hc.
Qed.

Lemma cacheAsRead_filter (P : string * CacheEntry -> Prop)
  `{!forall kv, Decision (P kv)} (c : Cache) :
  cacheAsRead c = c -> cacheAsRead (filter P c) = filter P c.
Proof.
  rewrite !cacheAsRead_fixed. intros Hc path e He.
  apply map_lookup_filter_Some in He as [He _]. by apply (Hc path).
Qed.

Lemma cacheOnDisk_afterSave_fixed (c : Cache) (w : World) :
  cacheAsRead c = c -> cacheOnDisk (afterSave c w) = Some c.
Proof. intros Hc. by rewrite cacheOnDisk_afterSave, Hc. Qed.

Lemma filesAfterSave_other (c : Cache) (w : World) (p : string) :
  p <> CACHE_FILE_PATH -> p <> CACHE_FILE_PATH +:+ ".tmp" ->
  p <> CACHE_FILE_PATH +:+ ".bak" ->
  filesAfterSave c w !! p = files w !! p.
Proof.
  intros H1 H2 H3. unfold filesAfterSave.
  rewrite lookup_delete_ne by done. rewrite lookup_insert_ne by done.
  by rewrite lookup_delete_ne.
Qed.

(** C3.  An [add] event for a path whose cached fingerprint is the
    fingerprint of the file: the backend is not called and the index is
    not touched; with the cached modification time the files are left as
    they are, and with another one the cache file is rewritten with that
    entry's [modifiedTime] replaced and nothing else changed. *)
Theorem add_of_unchanged_content (fuel : nat) (path : string) (w : World)
  (node f : FileNode) (cache : Cache) (cached : CacheEntry) :
  cacheLock w = false ->
  files w !! path = Some node ->
  files w !! CACHE_FILE_PATH = Some f ->
  decodeCache (content f) = Some cache ->
  cache !! path = Some cached ->
  contentHash cached = sha256hex (env w) (content node) ->
  let w' := snd (dispatchEvent fuel "add" path w) in
  let touched := <[path := withModifiedTime cached (mtime node)]> cache in
  fst (dispatchEvent fuel "add" path w) = Returned tt
  /\ fetchCount w' = fetchCount w
  /\ index w' = index w
  /\ (if sameNumber (modifiedTime cached) (mtime node)
      then files w' = files w
      else files w' = filesAfterSave touched w
           /\ cacheOnDisk w' = Some touched
           /\ (forall q, q <> path -> touched !! q = cache !! q)
           /\ (forall p, p <> CACHE_FILE_PATH ->
                         p <> CACHE_FILE_PATH +:+ ".tmp" ->
                         p <> CACHE_FILE_PATH +:+ ".bak" ->
                         files w' !! p = files w !! p)).
Proof.
  intros Hlock Hnode Hf Hdec Hcached Hhash w' touched. subst w'.
  change (dispatchEvent fuel "add" path) with (processFile fuel path).
  unfold processFile, statMtime, readFile. munfold. rewrite Hnode.
  rewrite (loadCache_present w f cache Hlock Hf Hdec). unfold afterLoad. wsimpl.
  rewrite Hnode. wsimpl. rewrite Hcached, Hhash, String.eqb_refl, andb_true_r.
  destruct (sameNumber (modifiedTime cached) (mtime node)) eqn:Htime.
  - unfold logProcessSkipped, logLine. munfold. wsimpl. done.
  - unfold logInfo, logLine. munfold. wsimpl.
    rewrite saveCache_run by done. wsimpl.
    split_and!; try done.
    + fold touched. apply cacheOnDisk_afterSave_fixed.
      apply cacheAsRead_insert. by apply (decodeCache_fixed (content f)).
    + intros q Hq. unfold touched. by rewrite lookup_insert_ne.
    + intros p H1 H2 H3.
      transitivity (filesAfterSave touched w !! p);
        [done | by apply filesAfterSave_other].
Qed.

Lemma add_of_unchanged_content_witness :
  fst (dispatchEvent 1 "add" "vault/a.md" touchedWorld) = Returned tt
  /\ fetchCount (snd (dispatchEvent 1 "add" "vault/a.md" touchedWorld))
     = fetchCount touchedWorld
  /\ index (snd (dispatchEvent 1 "add" "vault/a.md" touchedWorld))
     = index touchedWorld
  /\ cacheOnDisk (snd (dispatchEvent 1 "add" "vault/a.md" touchedWorld))
     = Some {[ "vault/a.md" :=
                 mkEntry ("sha256:# A" +:+ nl +:+ "foo") ["vault/a.md::0"] 9 ]}.
Proof.
  pose proof (add_of_unchanged_content 1 "vault/a.md" touchedWorld
                (mkFile ("# A" +:+ nl +:+ "foo") 9)
                (default (mkFile "" 0) (files touchedWorld !! CACHE_FILE_PATH))
                {[ "vault/a.md" :=
                     mkEntry ("sha256:# A" +:+ nl +:+ "foo") ["vault/a.md::0"] 5 ]}
                (mkEntry ("sha256:# A" +:+ nl +:+ "foo") ["vault/a.md::0"] 5)) as H.
  destruct H as (Hret & Hfetch & Hindex & Hfiles).
  - by vm_compute.
  - by vm_compute.
  - by vm_compute.
  - by vm_compute.
  - by vm_compute.
  - by vm_compute.
  - split_and!; [exact Hret|exact Hfetch|exact Hindex|].
    change (sameNumber (modifiedTime _) (mtime _)) with false in Hfiles.
    destruct Hfiles as (_ & Hdisk & _). rewrite Hdisk. by vm_compute.
Defined.

(** ** Orphan cleanup *)

Lemma loadCache_readable (w : World) (c : Cache) :
  cacheReadable w c -> loadCache w = (Returned c, afterLoad w).
Proof.
  intros [Hlock Hfile]. destruct (files w !! CACHE_FILE_PATH) as [f|] eqn:Hf.
  - by apply (loadCache_present w f).
  - subst c. by apply loadCache_absent.
Qed.

Lemma cleanupOne_run (ids : gset string) (t : Z) (r : VectorRecord) (w : World) :
  updating (index w) || created (index w) = true ->
  cleanupOne ids t r w
  = (Returned tt, if keptByCleanup ids w t r then w else dropId (recId r) w).
Proof.
  intros Hidx. unfold cleanupOne, keptByCleanup, access, pathExists, deleteItem.
  destruct (bool_decide (recId r ∈ ids)); [done|]. cbn [orb].
  fold (ownerPath r). unfold tryCatch.
  destruct (bool_decide (is_Some (files w !! ownerPath r))
            || bool_decide (ownerPath r ∈ dirs w)); [done|].
  cbn [orb]. fold (orphanAge t r).
  destruct (orphanAge t r <? maxOrphanedAge); [done|]. by rewrite Hidx.
Qed.

Lemma filter_twice {A} (f g : A -> bool) (l : list A) :
  List.filter f (List.filter g l) = List.filter (fun x => g x && f x) l.
Proof.
  induction l as [|x l IH]; [done|]. cbn [List.filter].
  destruct (g x); cbn [List.filter andb]; by rewrite IH.
Qed.

Lemma cleanup_loop (ids : gset string) (t : Z) (l : list VectorRecord) (w : World) :
  updating (index w) || created (index w) = true ->
  exists w',
    forEach (cleanupOne ids t) l w = (Returned tt, w')
    /\ items (index w') = dropAll (doomed ids w t l) (items (index w))
    /\ created (index w') = created (index w)
    /\ updating (index w') = updating (index w)
    /\ w' = setIndex (index w') w.
Proof.
  revert w. induction l as [|r l IH]; intros w Hidx.
  - exists w. split_and!; try done.
    + unfold dropAll, doomed. cbn. symmetry. apply forallb_filter_id.
      by apply forallb_forall.
    + by destruct w.
  - cbn [forEach]. unfold mbind, M_bind, bind. rewrite cleanupOne_run by done.
    destruct (keptByCleanup ids w t r) eqn:Hkept.
    + destruct (IH w Hidx) as (w' & Hrun & Hitems & Hc & Hu & Hw).
      exists w'. split_and!; try done.
      rewrite Hitems. unfold doomed. cbn [List.filter]. by rewrite Hkept.
    + destruct (IH (dropId (recId r) w)) as (w' & Hrun & Hitems & Hc & Hu & Hw);
        [done|].
      exists w'. split_and!; try done.
      rewrite Hitems. unfold doomed. cbn [List.filter]. rewrite Hkept.
      cbn [negb map]. unfold dropAll, dropId. wsimpl.
        replace (doomed ids w t l) with
          (map recId (List.filter (fun r0 => negb (keptByCleanup ids
             (setIndex (setItems (List.filter (fun x => negb (hasId (recId r) x))
                (items (index w))) (index w)) w) t r0)) l)) by done.
        rewrite filter_twice. apply filter_ext. intros x.
        cbn [existsb]. by rewrite negb_orb.
Qed.

Lemma dropAll_doomed (ids : gset string) (w : World) (t : Z) (l : list VectorRecord) :
  NoDup (map recId l) ->
  dropAll (doomed ids w t l) l = List.filter (keptByCleanup ids w t) l.
Proof.
  intros Hnd. unfold dropAll. apply filter_ext_in. intros r Hr.
  destruct (keptByCleanup ids w t r) eqn:Hkept.
  - apply negb_true_iff. apply not_true_is_false. intros Hex.
    apply existsb_exists in Hex as (id & Hid & Hhas).
    unfold doomed in Hid. apply in_map_iff in Hid as (r' & <- & Hr').
    apply filter_In in Hr' as [Hr' Hk].
    unfold hasId in Hhas. apply String.eqb_eq in Hhas.
    assert (r' = r) as ->; [|by rewrite Hkept in Hk].
    clear -Hnd Hr Hr' Hhas. induction l as [|x l IH]; [done|].
    cbn in Hnd. apply NoDup_cons in Hnd as [Hx Hnd].
    destruct Hr as [->|Hr], Hr' as [->|Hr']; try done.
    + exfalso. apply Hx. apply list_elem_of_In, in_map_iff. by exists r'.
    + exfalso. apply Hx. apply list_elem_of_In, in_map_iff. by exists r.
    + by apply IH.
  - apply negb_false_iff. apply existsb_exists. exists (recId r). split.
    + unfold doomed. apply in_map, filter_In. by rewrite Hkept.
    + unfold hasId. apply String.eqb_refl.
Qed.

Lemma bind_run {A B} (m : M A) (k : A -> M B) (w w1 : World) (a : A) :
  m w = (Returned a, w1) -> (m ≫= k) w = k a w1.
Proof. intros H. unfold mbind, M_bind, bind. by rewrite H. Qed.

Lemma tryCatch_run {A} (m : M A) (h : Thrown -> M A) (w w1 : World) (a : A) :
  m w = (Returned a, w1) -> tryCatch m h w = (Returned a, w1).
Proof. intros H. unfold tryCatch. by rewrite H. Qed.

Lemma tryFinally_run {A} (m : M A) (fin : M unit) (w w1 w2 : World) (a : A) :
  m w = (Returned a, w1) -> fin w1 = (Returned tt, w2) ->
  tryFinally m fin w = (Returned a, w2).
Proof. intros H1 H2. unfold tryFinally. by rewrite H1, H2. Qed.

Lemma setNow_same (w : World) : setNow (now w) w = w.
Proof. by destruct w. Qed.

(** *** The lock *)

Lemma pollsUntil_firstLook (start due : Z) :
  start + pollsUntil start due = firstLook start due.
Proof.
  unfold pollsUntil, firstLook. destruct (due <=? start) eqn:Hdue.
  - apply Z.leb_le in Hdue. rewrite Z.max_l by lia. change ((0 + 99) / 100) with 0. lia.
  - apply Z.leb_gt in Hdue. rewrite Z.max_r by lia.
    pose proof (Z.div_mod (due - start + 99) 100 ltac:(lia)) as Hq.
    pose proof (Z.mod_pos_bound (due - start + 99) 100 ltac:(lia)) as Hr.
    pose proof (Z.div_mod (start - due) 100 ltac:(lia)) as Hk.
    pose proof (Z.mod_pos_bound (start - due) 100 ltac:(lia)) as Hm.
    lia.
Qed.

Lemma firstLook_bounds (start due : Z) :
  start <= firstLook start due
  /\ due <= firstLook start due
  /\ (firstLook start due = start \/ firstLook start due < due + 100)
  /\ exists k, 0 <= k /\ firstLook start due = start + 100 * k.
Proof.
  rewrite <- pollsUntil_firstLook. unfold pollsUntil.
  pose proof (Z.div_mod (Z.max 0 (due - start) + 99) 100 ltac:(lia)) as Hq.
  pose proof (Z.mod_pos_bound (Z.max 0 (due - start) + 99) 100 ltac:(lia)) as Hr.
  split_and!; try lia.
  exists ((Z.max 0 (due - start) + 99) / 100). split; lia.
Qed.

Lemma acquireLock_obtained (w : World) :
  lockObtainable w ->
  acquireLock w
  = (Returned true,
     setLock true true (Some (lockTime w + lockTimeout)) (setNow (lockTime w) w)).
Proof.
  unfold acquireLock, lockTime. intros [Hfree|(due & Hdue & Hsoon)].
  - rewrite Hfree. by rewrite setNow_same.
  - destruct (vectorStoreLock w); [|by rewrite setNow_same].
    rewrite Hdue. apply Z.leb_le in Hsoon. rewrite Hsoon. cbv zeta.
    by rewrite pollsUntil_firstLook.
Qed.

Lemma cleanup_run (w : World) (c : Cache) :
  lockObtainable w -> cacheReadable w c -> created (index w) = true ->
  exists idx,
    cleanupOrphanedVectors w
    = (Returned tt,
       setLock false false None
         (setIndex idx
            (setDirs ({[VECTOR_STORE_DIR]} ∪ dirs w) (setNow (lockTime w) w))))
    /\ items idx
       = dropAll (doomed (allVectorIds c) (afterLoad w) (lockTime w)
                    (items (index w)))
           (items (index w))
    /\ created idx = true
    /\ updating idx = updating (index w).
Proof.
  intros Hlock Hcache Hidx. pose proof Hcache as [Hfree _].
  pose proof (acquireLock_obtained w Hlock) as Hacq.
  set (wl := setLock true true _ (setNow (lockTime w) w)) in Hacq.
  assert (cacheReadable wl c) as Hcache' by done.
  apply loadCache_readable in Hcache'.
  set (w1 := afterLoad wl) in *.
  destruct (cleanup_loop (allVectorIds c) (lockTime w) (items (index w)) w1)
    as (w2 & Hloop & Hitems & Hcr & Hup & Hw2).
  { change (index w1) with (index w). rewrite Hidx. apply orb_true_r. }
  exists (index w2). split_and!.
  - unfold cleanupOrphanedVectors. rewrite (bind_run _ _ _ _ _ Hacq). cbn [negb].
    eapply tryFinally_run; [apply tryCatch_run|].
    + assert (getAllVectorIds wl = (Returned (allVectorIds c), w1)) as Hids
        by (unfold getAllVectorIds; by rewrite (bind_run _ _ _ _ _ Hcache')).
      rewrite (bind_run _ _ _ _ _ Hids).
      assert (listItems w1 = (Returned (items (index w)), w1)) as Hlist
        by (unfold listItems; change (index w1) with (index w); by rewrite Hidx).
      rewrite (bind_run _ _ _ _ _ Hlist).
      rewrite (bind_run (gets now) _ w1 w1 (lockTime w) eq_refl). exact Hloop.
    + unfold releaseLock, modify. f_equal.
      rewrite Hw2. subst w1 wl. unfold afterLoad. world_eq. by rewrite Hfree.
  - exact Hitems.
  - by rewrite Hcr.
  - by rewrite Hup.
Qed.

(** The ids [getAllVectorIds] collects are the ids listed by the entries
    of the cache. *)
Lemma allVectorIds_spec (c : Cache) (id : string) :
  id ∈ allVectorIds c <-> inCache c id.
Proof.
  unfold allVectorIds, inCache. rewrite elem_of_list_to_set, list_elem_of_In, in_concat.
  split.
  - intros (l & Hl & Hid). apply in_map_iff in Hl as ([path entry] & <- & Hkv).
    exists path, entry. split; [|by apply list_elem_of_In].
    by apply elem_of_map_to_list, list_elem_of_In.
  - intros (path & entry & Hentry & Hid). exists (vectorIds entry).
    split; [|by apply list_elem_of_In].
    apply in_map_iff. exists (path, entry). split; [done|].
    by apply list_elem_of_In, elem_of_map_to_list.
Qed.

(** C6.  Run with the lock to be had, the cache readable and the index
    created, over records of pairwise distinct ids, [cleanupOrphanedVectors]
    returns, and the clock is then the time [t] at which the lock was
    obtained: the time of the call for a free lock, and for a held lock
    the first look of the poll at or after the time its timer is due.  It
    leaves in the index, in their order, exactly the records whose id is
    listed by an entry of the cache, or whose file exists, or whose age
    [t - (modifiedTime ?? t)] is below [maxOrphanedAge].  So a record of
    the cache stays; a record outside the cache whose file exists stays;
    and a record outside the cache whose file is missing is deleted
    exactly when its age at [t] is the threshold of one day or more. *)
Theorem cleanup_keeps_exactly (w : World) (c : Cache) :
  lockObtainable w -> cacheReadable w c -> created (index w) = true ->
  NoDup (map recId (items (index w))) ->
  let w' := snd (cleanupOrphanedVectors w) in
  let t := lockTime w in
  fst (cleanupOrphanedVectors w) = Returned tt
  /\ now w' = t
  /\ (vectorStoreLock w = false -> t = now w)
  /\ (forall due, vectorStoreLock w = true -> lockTimer w = Some due ->
        now w <= t /\ due <= t /\ (t = now w \/ t < due + 100)
        /\ exists k, 0 <= k /\ t = now w + 100 * k)
  /\ (forall id, id ∈ allVectorIds c <-> inCache c id)
  /\ items (index w')
     = List.filter (keptByCleanup (allVectorIds c) (afterLoad w) t) (items (index w))
  /\ maxOrphanedAge = 86400000
  /\ forall r, r ∈ items (index w) ->
       (inCache c (recId r) -> r ∈ items (index w'))
       /\ (~ inCache c (recId r) ->
           pathExists (afterLoad w) (ownerPath r) = true -> r ∈ items (index w'))
       /\ (~ inCache c (recId r) ->
           pathExists (afterLoad w) (ownerPath r) = false ->
           (r ∉ items (index w') <->
            maxOrphanedAge <= t - default t (mdModifiedTime (recMetadata r)))).
Proof.
  intros Hlock Hcache Hidx Hnd w' t.
  destruct (cleanup_run w c Hlock Hcache Hidx) as (idx & Hrun & Hitems & _).
  subst w'. rewrite Hrun. cbn [fst snd]. wsimpl. fold t in Hitems.
  rewrite dropAll_doomed in Hitems by done.
  split_and!; [done|done| | | |done|done|].
  - intros Hfree. subst t. unfold lockTime. by rewrite Hfree.
  - intros due Hheld Hdue. subst t. unfold lockTime. rewrite Hheld, Hdue.
    pose proof (firstLook_bounds (now w) due). tauto.
  - apply allVectorIds_spec.
  - intros r Hr. rewrite Hitems.
    assert (r ∈ List.filter (keptByCleanup (allVectorIds c) (afterLoad w) t)
               (items (index w)) <->
            keptByCleanup (allVectorIds c) (afterLoad w) t r = true) as Hin.
    { rewrite list_elem_of_In, filter_In, <- list_elem_of_In. tauto. }
    rewrite Hin. unfold keptByCleanup, orphanAge.
    split_and!.
    + intros Hc. apply allVectorIds_spec in Hc. by rewrite bool_decide_eq_true_2.
    + intros _ ->. apply orb_true_iff. left. apply orb_true_r.
    + intros Hc ->. rewrite bool_decide_eq_false_2
        by (intros Hin'; by apply Hc, allVectorIds_spec).
      cbn [orb]. rewrite Z.ltb_lt. lia.
Qed.

Lemma cleanup_keeps_exactly_witness :
  fst (cleanupOrphanedVectors heldCleanupWorld) = Returned tt
  /\ now (snd (cleanupOrphanedVectors heldCleanupWorld)) = 86400300
  /\ map recId (items (index (snd (cleanupOrphanedVectors heldCleanupWorld))))
     = ["vault/c.md::0"; "vault/a.md::0"; "vault/gone.md::0"].
Proof.
  pose proof (cleanup_keeps_exactly heldCleanupWorld
                {[ "vault/c.md" := mkEntry "h" ["vault/c.md::0"] 1 ]}) as H.
  destruct H as (Hret & Hnow & _ & _ & _ & Hitems & _).
  - right. exists 86400250. split; [reflexivity|by vm_compute].
  - split; by vm_compute.
  - done.
  - apply (bool_decide_unpack _). by vm_compute.
  - split_and!; [exact Hret|exact Hnow|]. rewrite Hitems. by vm_compute.
Defined.

(** The same store with the lock free: the clock does not move, and the
    record that is one millisecond younger than a day stays. *)
Lemma cleanup_with_free_lock :
  now (snd (cleanupOrphanedVectors cleanupWorld)) = 86400000
  /\ map recId (items (index (snd (cleanupOrphanedVectors cleanupWorld))))
     = ["vault/c.md::0"; "vault/a.md::0"; "vault/new.md::0"; "vault/gone.md::0"].
Proof. by vm_compute. Qed.

(** ** Search *)

Lemma indexCreated_insensitive : Insensitive indexCreated.
Proof. split; intros; assumption. Qed.

Lemma searchEmbed_creates (query : string) (w w1 : World) (v : list float) :
  searchEmbed query w = (Returned v, w1) -> created (index w1) = true.
Proof.
  unfold searchEmbed. intros H.
  apply bind_returned in H as (b & w0 & Hb & H).
  apply bind_returned in H as ([] & w2 & Hc & H).
  assert (indexCreated w2) as Hw2.
  { unfold isIndexCreated, gets in Hb. injection Hb as <- <-.
    destruct (created (index w)) eqn:Hcr; cbn [negb] in Hc.
    - injection Hc as <-. exact Hcr.
    - unfold createIndex in Hc. rewrite Hcr in Hc. by injection Hc as <-. }
  pose proof (keeps_queryOllama indexCreated indexCreated_insensitive query w2 Hw2)
    as Hq.
  by rewrite H in Hq.
Qed.

(** When the query of the index fails, its error is what the [try] block
    of [searchContent] throws. *)
Lemma index_failure_thrown (query : string) (w w1 : World) (v : list float)
  (e : Thrown) :
  searchEmbed query w = (Returned v, w1) ->
  queryEngine (env w1) (items (index w1)) v query (SEARCH_limit * 2) = inl e ->
  searchBody query w = (Threw e, w1).
Proof.
  intros Hembed Hquery. unfold searchBody. unfold mbind at 1, M_bind, bind at 1.
  rewrite Hembed. unfold mbind, M_bind, bind, queryItems.
  by rewrite (searchEmbed_creates _ _ _ _ Hembed), Hquery.
Qed.

(** [includes s p] is [s.includes(p)]: [p] occurs somewhere in [s]. *)
Lemma prefix_spec (p s : string) :
  String.prefix p s = true <-> exists b, s = p +:+ b.
Proof.
  revert s. induction p as [|c p IH]; intros s.
  - split; [intros _; by exists s|by destruct s].
  - destruct s as [|d s]; simpl.
    + split; [done|intros [b Hb]; discriminate].
    + destruct (Ascii.ascii_dec c d) as [->|Hne].
      * rewrite IH. split; intros [b Hb]; exists b.
        -- by rewrite Hb.
        -- by injection Hb.
      * split; [done|intros [b Hb]; by injection Hb].
Qed.

Lemma includes_unfold (s p : string) :
  includes s p
  = String.prefix p s
    || match s with EmptyString => false | String _ rest => includes rest p end.
Proof. by destruct s. Qed.

Lemma includes_spec (s p : string) :
  includes s p = true <-> exists a b, s = a +:+ p +:+ b.
Proof.
  split.
  - induction s as [|c s IH]; rewrite includes_unfold; intros H;
      apply orb_true_iff in H as [H|H].
    + apply prefix_spec in H as [b Hb]. by exists EmptyString, b.
    + discriminate.
    + apply prefix_spec in H as [b Hb]. by exists EmptyString, b.
    + destruct (IH H) as (a & b & ->). by exists (String c a), b.
  - intros (a & b & ->). induction a as [|c a IH]; rewrite includes_unfold.
    + apply orb_true_iff. left. apply prefix_spec. by exists b.
    + apply orb_true_iff. by right.
Qed.

Lemma hasPhrase_includes (msg : string) :
  hasPhrase msg <-> includes msg tooSmall = true.
Proof. unfold hasPhrase. by rewrite includes_spec. Qed.

(** What the [try] block throws when one of its steps fails. *)
Lemma search_failure_thrown (query : string) (w w1 : World) (e : Thrown) :
  searchFails query w e w1 -> searchBody query w = (Threw e, w1).
Proof.
  intros [Hembed|(v & Hembed & Hquery)].
  - unfold searchBody. unfold mbind at 1, M_bind, bind at 1. by rewrite Hembed.
  - by eapply index_failure_thrown.
Qed.

(** C7.  Let a step of the search fail with [e]: the creation of a missing
    index or the embedding of the query, or the query of the index itself.
    If [e] is an [Error] whose message contains "document collection is too
    small", [searchContent] returns the empty list, whichever step raised
    it; in every other case (another message, or a thrown value that is no
    [Error]) it throws the same [e].  The index is left as the failing step
    left it. *)
Theorem searchContent_errors (query : string) (w w1 : World) (e : Thrown) :
  searchFails query w e w1 ->
  (isErrorInstance e = true -> hasPhrase (errMessage e) ->
   fst (searchContent query w) = Returned [])
  /\ (isErrorInstance e = false \/ ~ hasPhrase (errMessage e) ->
      fst (searchContent query w) = Threw e)
  /\ index (snd (searchContent query w)) = index w1.
Proof.
  intros Hfails. apply search_failure_thrown in Hfails as Hbody.
  unfold searchContent, tryCatch. rewrite Hbody.
  unfold mbind, M_bind, bind, logProcessError, logLine, modify.
  split_and!.
  - intros -> Hmsg%hasPhrase_includes. by rewrite Hmsg.
  - intros [->|Hmsg]; [done|].
    destruct (includes (errMessage e) tooSmall) eqn:Hinc.
    + by apply hasPhrase_includes in Hinc.
    + by rewrite andb_false_r.
  - by destruct (isErrorInstance e && includes (errMessage e) tooSmall).
Qed.

Lemma searchContent_errors_witness :
  fst (searchContent "notes" (searchWorld (newError ("The " +:+ tooSmall))))
  = Returned []
  /\ fst (searchContent "notes" (searchWorld (newError "index is corrupt")))
     = Threw (newError "index is corrupt")
  /\ index (snd (searchContent "notes" (searchWorld (newError "index is corrupt"))))
     = mkIndex true [] false.
Proof.
  pose proof (searchContent_errors "notes"
                (searchWorld (newError ("The " +:+ tooSmall)))
                (snd (searchEmbed "notes" (searchWorld (newError ("The " +:+ tooSmall)))))
                (newError ("The " +:+ tooSmall))) as H1.
  pose proof (searchContent_errors "notes"
                (searchWorld (newError "index is corrupt"))
                (snd (searchEmbed "notes" (searchWorld (newError "index is corrupt"))))
                (newError "index is corrupt")) as H2.
  destruct H1 as (Hempty & _ & _).
  { right. eexists. split; by vm_compute. }
  destruct H2 as (_ & Hthrown & Hindex).
  { right. eexists. split; by vm_compute. }
  split_and!.
  - apply Hempty; [done|]. by exists "The ", EmptyString.
  - apply Hthrown. right. intros Hp%hasPhrase_includes. by vm_compute in Hp.
  - rewrite Hindex. by vm_compute.
Defined.

(** The phrase is looked for in the message of whatever the [try] block
    threw.  Here the embedding backend answers the query with status 500
    and a body holding the phrase: the index is never queried, no error of
    the index exists, and still the error of the embedding is not thrown on
    but turned into the empty list. *)
Lemma embedding_error_is_swallowed :
  fst (searchEmbed "notes" (freshWorld (envWith backendTooSmall) 0))
  = Threw (newError ("Operation failed after 3 retries: "
                     +:+ notOkMessage 500 tooSmall))
  /\ fst (searchContent "notes" (freshWorld (envWith backendTooSmall) 0))
     = Returned []
  /\ fst (searchContent "notes" (freshWorld (envWith backendTooSmall) 0))
     <> Threw (newError ("Operation failed after 3 retries: "
                         +:+ notOkMessage 500 tooSmall)).
Proof. split_and!; by vm_compute. Qed.

(** An error of the embedding backend without the phrase is thrown on. *)
Lemma searchContent_rethrows :
  fst (searchContent "notes" (freshWorld (envWith backendDown) 0))
  = Threw (newError ("Operation failed after 3 retries: "
                     +:+ notOkMessage 500 "down")).
Proof. by vm_compute. Qed.

(** A thrown value that is no [Error] is thrown on whatever its message. *)
Lemma searchContent_rethrows_non_error :
  fst (searchContent "notes" (searchWorld (mkThrown false EmptyString tooSmall)))
  = Threw (mkThrown false EmptyString tooSmall).
Proof. by vm_compute. Qed.

(** ** The records of storeChunks *)

Section Shape.
Context (P : VectorRecord -> Prop).

Lemma itemsAll_insensitive : Insensitive (itemsAll P).
Proof. split; intros; assumption. Qed.
Hint Resolve itemsAll_insensitive : keeps.

Lemma shape_createIndex : keeps (itemsAll P) createIndex.
Proof.
  intros w Hw. unfold createIndex. destruct (created (index w)); [done|].
  by apply Forall_nil.
Qed.

Lemma shape_deleteIndex : keeps (itemsAll P) deleteIndex.
Proof. intros w Hw. by apply Forall_nil. Qed.

Lemma shape_beginUpdate : keeps (itemsAll P) beginUpdate.
Proof. intros w Hw. unfold beginUpdate. by repeat case_match. Qed.

Lemma shape_endUpdate : keeps (itemsAll P) endUpdate.
Proof. intros w Hw. unfold endUpdate. by repeat case_match. Qed.

Lemma shape_deleteItem id : keeps (itemsAll P) (deleteItem id).
Proof.
  intros w Hw. unfold deleteItem. case_match; [|done].
  unfold itemsAll in *. wsimpl. apply List.Forall_forall. intros r Hr.
  apply filter_In in Hr as [Hr _]. revert r Hr. by apply List.Forall_forall.
Qed.

Lemma shape_insertItem r : P r -> keeps (itemsAll P) (insertItem r).
Proof.
  intros Hr w Hw. unfold insertItem. repeat case_match; try done.
  unfold itemsAll in *. wsimpl. apply Forall_app. split; [done|].
  by apply Forall_singleton.
Qed.
Hint Resolve shape_createIndex shape_deleteIndex shape_beginUpdate
  shape_endUpdate shape_deleteItem shape_insertItem : keeps.

Lemma shape_insertAll l : Forall P l -> keeps (itemsAll P) (forEach insertItem l).
Proof.
  induction 1 as [|r l Hr Hl IH]; [by intros w|].
  cbn [forEach]. keeps_auto.
Qed.

Lemma shape_cleanupOrphanedVectors : keeps (itemsAll P) cleanupOrphanedVectors.
Proof. unfold cleanupOrphanedVectors, getAllVectorIds, cleanupOne. keeps_auto. Qed.

Lemma shape_optimizeVectorStore : keeps (itemsAll P) optimizeVectorStore.
Proof.
  unfold optimizeVectorStore.
  apply keeps_bind; [keeps_auto|intros b].
  destruct (negb b); [keeps_auto|].
  apply keeps_tryFinally; [|keeps_auto].
  apply keeps_tryCatch; [|keeps_auto].
  apply keeps_bind; [keeps_auto|intros _].
  intros w Hw. unfold mbind, M_bind, bind, listItems.
  destruct (created (index w)); [|done].
  assert (keeps (itemsAll P)
            (deleteIndex ;; createIndex ;; forEach insertItem (items (index w)) ;;
             endUpdate ;; modify (setOperationCount 0%N))) as Hk.
  { apply keeps_bind; [keeps_auto|intros _].
    apply keeps_bind; [keeps_auto|intros _].
    apply keeps_bind; [by apply shape_insertAll|intros _]. keeps_auto. }
  exact (Hk w Hw).
Qed.

Lemma shape_backupVectorStore : keeps (itemsAll P) backupVectorStore.
Proof.
  unfold backupVectorStore, cleanupBackups. keeps_auto.
  apply keeps_modify. intros w Hw. by destruct (_ <? _)%nat.
Qed.
Hint Resolve shape_cleanupOrphanedVectors shape_optimizeVectorStore
  shape_backupVectorStore : keeps.

Context (HP : forall id chunk, P (vectorData id chunk)).

Lemma shape_storeOne p i c : keeps (itemsAll P) (storeOne p i c).
Proof. unfold storeOne. keeps_auto. Qed.
Hint Resolve shape_storeOne : keeps.

Lemma shape_storeLoop p i cs : keeps (itemsAll P) (storeLoop p i cs).
Proof.
  revert i. induction cs as [|c cs IH]; intros i; cbn [storeLoop]; keeps_auto.
Qed.
Hint Resolve shape_storeLoop : keeps.

Lemma shape_storeChunks p cs : keeps (itemsAll P) (storeChunks p cs).
Proof. unfold storeChunks. keeps_auto. Qed.

End Shape.

Lemma storedMetadata_get (id key : string) :
  key <> "documentId" -> metaGet key (storedMetadata id) = None.
Proof.
  intros Hkey. unfold metaGet, storedMetadata. cbn [mdModifiedTime mdFields].
  destruct (String.eqb key "modifiedTime"); [done|].
  by apply lookup_singleton_ne.
Qed.

(** C9.  A record that is in the index when [storeChunks] is over, whatever
    way it ended, was in the index before or has the metadata built by
    [storeChunks]: no [modifiedTime], and the one field [documentId] with
    the text-file path of its id.  For such a record every key but
    [documentId] reads as undefined, a metadata filter that names another
    key rejects it, and the cleanup computes the age zero for it and keeps
    it. *)
Theorem stored_records_metadata (filePath : string) (chunks : list Embedded)
  (w : World) (r : VectorRecord) :
  r ∈ items (index (snd (storeChunks filePath chunks w))) ->
  r ∈ items (index w)
  \/ (recMetadata r
      = mkMetadata None
          {[ "documentId" :=
               MString ("text_files/" +:+ normalizePathForStorage (recId r)) ]}
      /\ (forall key, key <> "documentId" -> metaGet key (recMetadata r) = None)
      /\ (forall metadataFilter s,
            (exists kv, kv ∈ metadataFilter /\ fst kv <> "documentId") ->
            matchesFilter metadataFilter (mkScored r s) = false)
      /\ (forall t, default t (mdModifiedTime (recMetadata r)) = t
                    /\ orphanAge t r = 0)
      /\ (forall cacheIds w0 t, keptByCleanup cacheIds w0 t r = true)).
Proof.
  intros Hr.
  pose proof (shape_storeChunks
                (fun x => x ∈ items (index w) \/ builtByStore x)
                (fun id chunk => or_intror eq_refl) filePath chunks w) as Hkeep.
  unfold itemsAll in Hkeep. rewrite !List.Forall_forall in Hkeep.
  destruct (Hkeep (fun x Hx => or_introl (proj2 (list_elem_of_In _ _) Hx)) r
              (proj1 (list_elem_of_In _ _) Hr)) as [Hold|Hnew]; [by left|right].
  unfold builtByStore in Hnew. split_and!.
  - exact Hnew.
  - intros key Hkey. rewrite Hnew. by apply storedMetadata_get.
  - intros flt s (kv & Hkv & Hkey). unfold matchesFilter.
    apply not_true_is_false. intros Hall.
    rewrite forallb_forall in Hall. apply list_elem_of_In in Hkv.
    specialize (Hall kv Hkv). cbn [item] in Hall.
    rewrite Hnew, (storedMetadata_get _ _ Hkey) in Hall.
    destruct (snd kv) as [v|vs]; [done|].
    cbn [strictEq] in Hall. clear -Hall. by induction vs.
  - intros t. unfold orphanAge. rewrite Hnew. cbn [storedMetadata mdModifiedTime default].
    split; [done|lia].
  - intros ids w0 t. unfold keptByCleanup, orphanAge. rewrite Hnew.
    cbn [storedMetadata mdModifiedTime default]. rewrite Z.sub_diag.
    by rewrite orb_true_r.
Qed.

Lemma stored_records_metadata_witness :
  recMetadata (vectorData "vault/a.md::0" (mkEmbedded [] "body"))
  = mkMetadata None {[ "documentId" := MString "text_files/a.md__0" ]}
  /\ matchesFilter [("filePath", FPlain (MString "vault/a.md"))]
       (mkScored (vectorData "vault/a.md::0" (mkEmbedded [] "body")) 1%float)
     = false
  /\ keptByCleanup ∅ vaultWorld 86400001
       (vectorData "vault/a.md::0" (mkEmbedded [] "body"))
     = true.
Proof.
  destruct (stored_records_metadata "vault/a.md" [mkEmbedded [] "body"] vaultWorld
              (vectorData "vault/a.md::0" (mkEmbedded [] "body")))
    as [Hold|(Hmeta & _ & Hfilter & _ & Hkept)].
  - vm_compute. apply list_elem_of_here.
  - vm_compute in Hold. inversion Hold.
  - split_and!.
    + rewrite Hmeta. by vm_compute.
    + apply Hfilter. exists ("filePath", FPlain (MString "vault/a.md")).
      split; [apply list_elem_of_here|done].
    + apply Hkept.
Defined.
(** ** The queue of handleFileEvent *)

Lemma saveQueue_queue (w : World) :
  isProcessingFile (snd (saveQueue w)) = isProcessingFile w
  /\ fileQueue (snd (saveQueue w)) = fileQueue w.
Proof. done. Qed.

Lemma handleBody_queue (fuel : nat) (ev path : string) (w : World) :
  isProcessingFile (snd (handleBody fuel ev path w)) = isProcessingFile w
  /\ fileQueue (snd (handleBody fuel ev path w)) = fileQueue w.
Proof.
  exact (keeps_handleBody (queueIs (isProcessingFile w) (fileQueue w))
           (queueIs_insensitive _ _) fuel ev path w (conj eq_refl eq_refl)).
Qed.

Lemma inFlight_app (ts : list Task) (t : Task) :
  length (List.filter isProcessing (ts ++ [t]))
  = (length (List.filter isProcessing ts) + (if isProcessing t then 1 else 0))%nat.
Proof.
  rewrite List.filter_app, length_app. cbn [List.filter].
  by destruct (isProcessing t).
Qed.

Lemma inFlight_delete (ts : list Task) (n : nat) (t : Task) :
  ts !! n = Some t ->
  length (List.filter isProcessing ts)
  = (length (List.filter isProcessing (delete n ts))
     + (if isProcessing t then 1 else 0))%nat.
Proof.
  revert n. induction ts as [|x ts IH]; intros [|n] Hn; try done.
  - injection Hn as ->. simpl. destruct (isProcessing t); simpl; lia.
  - simpl in Hn. apply IH in Hn. simpl. destruct (isProcessing x); simpl; lia.
Qed.

Lemma inFlight_insert (ts : list Task) (n : nat) (t t' : Task) :
  ts !! n = Some t ->
  (length (List.filter isProcessing (<[n := t']> ts))
   + (if isProcessing t then 1 else 0))%nat
  = (length (List.filter isProcessing ts)
     + (if isProcessing t' then 1 else 0))%nat.
Proof.
  revert n. induction ts as [|x ts IH]; intros [|n] Hn; try done.
  - injection Hn as ->. simpl. destruct (isProcessing t), (isProcessing t'); simpl; lia.
  - simpl in Hn. apply (IH _) in Hn. simpl. destruct (isProcessing x); simpl; lia.
Qed.

Lemma enter_singleFlight (ev path : string) (l : Loop) :
  singleFlight l -> singleFlight (enter ev path l).
Proof.
  intros [Hone Hnone]. unfold enter.
  destruct (isProcessingFile (world l)) eqn:Hbusy; unfold singleFlight, inFlight.
  - cbn [tasks world]. rewrite inFlight_app. cbn [isProcessing].
    rewrite Nat.add_0_r. split; [done|]. intros Hfalse.
    rewrite (proj1 (saveQueue_queue _)) in Hfalse. wsimpl. congruence.
  - cbn [tasks world]. rewrite inFlight_app. cbn [isProcessing].
    specialize (Hnone eq_refl). unfold inFlight in Hnone. rewrite Hnone.
    split; [done|]. intros Hfalse. done.
Qed.

Lemma finallyBlock_idle (w : World) :
  isProcessingFile (snd (finallyBlock w)) = false
  /\ forall t, fst (finallyBlock w) = Some t -> isProcessing t = false.
Proof.
  unfold finallyBlock. wsimpl. destruct (fileQueue w); [done|].
  split; [done|]. intros t Ht. cbn [fst] in Ht. by injection Ht as <-.
Qed.

Lemma step_singleFlight (fuel : nat) (lbl : Label) (l l' : Loop) :
  singleFlight l -> step fuel lbl l = Some l' -> singleFlight l'.
Proof.
  intros Hl Hstep. destruct lbl as [ev path|n|n|]; cbn [step] in Hstep.
  - injection Hstep as <-. by apply enter_singleFlight.
  - destruct (tasks l !! n) as [[|ev path|next]|] eqn:Hn; try done.
    destruct (handleBody fuel ev path (world l)) as [[[]|e|] w1] eqn:Hbody;
      try done;
      destruct (finallyBlock w1) as [t w2] eqn:Hfin;
      injection Hstep as <-;
      pose proof (finallyBlock_idle w1) as [Hidle Htask];
      rewrite Hfin in Hidle, Htask; cbn [fst snd] in Hidle, Htask;
      destruct Hl as [Hone _]; unfold singleFlight, inFlight in *;
      cbn [tasks world];
      (destruct t as [t|]; cbn [replaceTask] in *;
       [pose proof (inFlight_insert (tasks l) n _ t Hn) as Hlen;
        rewrite (Htask t eq_refl) in Hlen
       |pose proof (inFlight_delete (tasks l) n _ Hn) as Hlen];
       cbn [isProcessing] in Hlen; (split; [lia|intros _; lia])).
  - destruct (tasks l !! n) as [[|ev path|next]|] eqn:Hn; try done;
      injection Hstep as <-;
      pose proof (inFlight_delete (tasks l) n _ Hn) as Hlen;
      cbn [isProcessing] in Hlen; rewrite Nat.add_0_r in Hlen;
      destruct Hl as [Hone Hnone]; unfold singleFlight, inFlight in *;
      cbn [tasks world]; rewrite <- Hlen; done.
  - destruct (immediates l) as [|next rest]; [done|].
    injection Hstep as <-. by apply enter_singleFlight.
Qed.

(** X22.  Single flight: whatever the watcher and the event loop do, at
    most one call of [handleFileEvent] is inside its [try] block. *)
Lemma single_flight (fuel : nat) (labels : list Label) (w : World) (l : Loop) :
  run fuel labels (idle w) = Some l -> (inFlight l <= 1)%nat.
Proof.
  assert (forall l0, singleFlight l0 -> run fuel labels l0 = Some l ->
                     singleFlight l) as Hrun.
  { induction labels as [|lbl labels IH]; intros l0 Hl0 Hrun; cbn [run] in Hrun.
    - by injection Hrun as <-.
    - destruct (step fuel lbl l0) as [l1|] eqn:Hstep; [|done].
      eapply IH; [|exact Hrun]. by eapply step_singleFlight. }
  intros H. apply (Hrun (idle w)); [|done]. split; [cbn; lia|done].
Qed.

(** X23.  Persist on enqueue: an event that arrives while the flag is up
    goes to the end of the queue, nothing is started, and the queue file
    holds the new queue. *)
Lemma enqueue_persists (ev path : string) (l : Loop) :
  isProcessingFile (world l) = true ->
  fileQueue (world (enter ev path l)) = fileQueue (world l) ++ [mkQueued ev path]
  /\ trace (enter ev path l) = trace l
  /\ content <$> files (world (enter ev path l)) !! QUEUE_FILE
     = Some (Json.stringify (queueToJson (fileQueue (world (enter ev path l))))).
Proof.
  intros Hbusy. unfold enter. rewrite Hbusy. cbn [world trace].
  split_and!; [done|done|].
  unfold saveQueue, tryCatch, writeFile, modify, gets, mbind, M_bind, bind.
  cbn [fst snd]. wsimpl. by rewrite lookup_insert_eq.
Qed.

(** C4.  The queue is not drained in the order of arrival when an event
    arrives while a finished call hands over to the next one.  [x] and then
    [y] are queued while [e] is processed.  When the work on [e] ends, the
    flag is lowered and [x] is taken off the queue before the call waits;
    [z] arrives then and is started at once; [x] comes back through
    [setImmediate], finds the flag up and is queued again, behind [y].  So
    [y] is processed before [x]. *)
Theorem queue_order_broken :
  option_map (fun l => (isProcessingFile (world l), fileQueue (world l), tasks l))
    (run 1 (firstn 6 raceSchedule) (idle queueWorld))
  = Some (false, [mkQueued "add" "y"], [HandingOver (mkQueued "add" "x")])
  /\ option_map (fun l => (isProcessingFile (world l), fileQueue (world l), tasks l))
       (run 1 (firstn 9 raceSchedule) (idle queueWorld))
     = Some (true, [mkQueued "add" "y"; mkQueued "add" "x"],
             [Processing "add" "z"; Enqueued])
  /\ option_map trace (run 1 raceSchedule (idle queueWorld))
     = Some [ Started "add" "e"; Finished "add" "e";
              Started "add" "z"; Finished "add" "z";
              Started "add" "y"; Finished "add" "y";
              Started "add" "x"; Finished "add" "x" ].
Proof.
  split_and!.
  - vm_compute. exact eq_refl.
  - vm_compute. exact eq_refl.
  - vm_compute. exact eq_refl.
Qed.

(** With no arrival during the hand-over the queue is drained in order. *)
Lemma quiet_queue_in_order :
  option_map trace (run 1 quietSchedule (idle queueWorld))
  = Some [ Started "add" "e"; Finished "add" "e";
           Started "add" "x"; Finished "add" "x";
           Started "add" "y"; Finished "add" "y" ].
Proof. vm_compute. exact eq_refl. Qed.

(** ** More on the chunker *)

Section ChunkerMore.
Import Chunker.

Lemma string_of_list_ascii_app (a b : list ascii) :
  string_of_list_ascii (a ++ b)
  = string_of_list_ascii a +:+ string_of_list_ascii b.
Proof. induction a as [|x a IH]; [done|]. cbn. by rewrite IH. Qed.

Lemma splitAux_join (c : ascii) (cur : list ascii) (s : string) :
  join (String c EmptyString) (splitAux (String c EmptyString) O cur s)
  = string_of_list_ascii (rev cur) +:+ s.
Proof.
  revert cur. induction s as [|x s IH]; intros cur.
  - cbn. by rewrite append_empty_r.
  - cbn [splitAux]. unfold String.prefix at 1. fold (String.prefix EmptyString s).
    destruct (ascii_dec c x) as [->|Hne].
    + assert (String.prefix EmptyString s = true) as -> by (by destruct s).
      cbn [String.length Nat.sub].
      specialize (IH []). cbn [rev string_of_list_ascii] in IH.
      rewrite append_empty_l in IH.
      destruct (splitAux (String x EmptyString) 0 [] s) as [|p ps] eqn:Hs.
      { by destruct s. }
      cbn [join]. cbn [join] in IH. rewrite IH.
      by rewrite (append_cons x).
    + rewrite IH. cbn [rev]. rewrite string_of_list_ascii_app.
      cbn [string_of_list_ascii]. rewrite append_assoc. by rewrite (append_cons x).
Qed.

Lemma split_join_line (s : string) : join nl (split s nl) = s.
Proof. unfold split, nl. by rewrite splitAux_join. Qed.

Lemma split_cons (s : string) : exists line rest, split s nl = line :: rest.
Proof.
  unfold split. generalize (@nil ascii).
  induction s as [|x s IH]; intros cur; [cbn; eauto|].
  cbn [splitAux]. destruct (String.prefix nl (String x s)); [eauto|apply IH].
Qed.

Lemma isTruthy_append_l (a b : string) :
  isTruthy a = true -> isTruthy (a +:+ b) = true.
Proof. by destruct a. Qed.

Lemma alter_last {A} (f : A -> A) (pre : list A) (c : A) :
  alter f (length (pre ++ [c]) - 1)%nat (pre ++ [c]) = pre ++ [f c].
Proof.
  induction pre as [|x pre IH]; [done|].
  cbn [app length]. rewrite Nat.sub_1_r. cbn [Nat.pred].
  rewrite length_app in *. cbn [length] in *.
  replace (length pre + 1)%nat with (S (length pre)) in * by lia.
  cbn [Nat.sub] in IH. rewrite Nat.sub_0_r in IH.
  change (alter f (S (length pre)) (x :: pre ++ [c]))
    with (x :: alter f (length pre) (pre ++ [c])).
  by rewrite IH.
Qed.

Lemma snoc_view {A} (l : list A) : l <> [] -> exists pre c, l = pre ++ [c].
Proof.
  intros Hl. destruct l as [|x l] using rev_ind; [done|]. eauto.
Qed.

(** The chunks the reducer works on: [acc.chunks] after the push of the
    empty chunk. *)
Lemma step_chunks (fp : string) (acc : Acc) (line : string) :
  exists pre c,
    (match chunks acc with [] => [EmptyString] | cs => cs end) = pre ++ [c]
    /\ (chunks acc = [] \/ chunks acc = pre ++ [c])
    /\ chunks (step fp acc line)
       = if startsWith line "#"
         then (pre ++ [c]) ++ [fp +:+ nl +:+ stackLines
                               (line :: closeHeadings (leadingHashes line)
                                          (headingStack acc))]
         else pre ++ [c +:+ nl +:+ line].
Proof.
  unfold step. destruct (chunks acc) as [|c0 cs] eqn:Hc.
  - exists [], EmptyString. split_and!; [done|by left|].
    by destruct (startsWith line "#").
  - destruct (snoc_view (c0 :: cs)) as (pre & c & Hpre); [done|].
    exists pre, c. rewrite Hpre. split_and!; [done|by right|].
    destruct (startsWith line "#"); cbn [chunks].
    + done.
    + apply (alter_last (fun c => c +:+ nl +:+ line)).
Qed.

Lemma filter_truthy_all (cs : list string) :
  Forall (fun c => isTruthy c = true) cs ->
  filter (fun c => isTruthy c = true) cs = cs.
Proof.
  induction 1 as [|c cs Hc _ IH]; [done|].
  by rewrite filter_cons_True, IH.
Qed.

Lemma step_shape (fp : string) (acc : Acc) (line : string) (n : nat)
  (first : bool) :
  chunksShape acc n first -> first = true \/ (0 < n)%nat ->
  chunksShape (step fp acc line)
    (n + if startsWith line "#" then 1 else 0)%nat first.
Proof.
  intros (c0 & cs & Hc & Hlen & Hall & Hfirst) Hn.
  destruct (step_chunks fp acc line) as (pre & c & _ & [Hnil|Hsame] & Hstep);
    [by rewrite Hc in Hnil|].
  unfold chunksShape. rewrite Hstep. rewrite Hc in Hsame.
  destruct (startsWith line "#").
  - exists c0, (cs ++ [fp +:+ nl +:+ stackLines
                         (line :: closeHeadings (leadingHashes line)
                                    (headingStack acc))]).
    split_and!.
    + rewrite <- Hsame. done.
    + rewrite length_app. cbn. lia.
    + apply Forall_app. split; [done|]. apply Forall_singleton.
      by apply isTruthy_append.
    + done.
  - destruct pre as [|p pre]; cbn [app] in *.
    + injection Hsame as -> ->. exists (c +:+ nl +:+ line), [].
      cbn [length] in *. split_and!; [done|lia|done|].
      destruct Hn as [->|Hn]; [|lia].
      by apply isTruthy_append.
    + injection Hsame as -> ->. exists p, (pre ++ [c +:+ nl +:+ line]).
      apply Forall_app in Hall as [Hpre Hc']. split_and!; [done| |  |done].
      * rewrite length_app in Hlen |- *. cbn [length] in *. lia.
      * apply Forall_app. split; [done|]. apply Forall_singleton.
        by apply isTruthy_append.
Qed.

Lemma fold_shape (fp : string) (lines : list string) (acc : Acc) (n : nat)
  (first : bool) :
  chunksShape acc n first -> first = true \/ (0 < n)%nat ->
  chunksShape (fold_left (step fp) lines acc) (n + headingCount lines)%nat first.
Proof.
  revert acc n. induction lines as [|line lines IH]; intros acc n Hacc Hn.
  - unfold headingCount. cbn. by rewrite Nat.add_0_r.
  - cbn [fold_left]. unfold headingCount. cbn [List.filter].
    pose proof (step_shape fp acc line n first Hacc Hn) as Hstep.
    apply IH in Hstep; [|destruct Hn; [by left|right; lia]].
    unfold headingCount in Hstep.
    refine (eq_rect _ (fun k => chunksShape _ k _) Hstep _ _).
    destruct (startsWith line "#"); cbn [length]; lia.
Qed.

(** X1.  [chunkFile] gives one chunk for every line that starts with [#],
    and one more, before them, when the first line of the text does not. *)
Theorem chunk_count (path content : string) :
  let lines := split content nl in
  length (chunkFile path content)
  = (headingCount lines
     + if startsWith (hd EmptyString lines) "#" then 0 else 1)%nat.
Proof.
  intros lines. unfold chunkFile. fold lines.
  destruct (split_cons content) as (line & rest & Hlines).
  subst lines. rewrite Hlines. cbn [fold_left hd].
  assert (chunksShape (step (fileParts path) initAcc line)
            (if startsWith line "#" then 1 else 0)
            (negb (startsWith line "#"))) as Hfirst.
  { destruct (step_chunks (fileParts path) initAcc line)
      as (pre & c & Hpush & _ & Hstep).
    cbn [initAcc chunks] in Hpush. destruct pre as [|? [|? ?]]; try done.
    injection Hpush as <-. unfold chunksShape. rewrite Hstep.
    destruct (startsWith line "#"); cbn [negb app].
    - eexists _, [_]. split_and!; [done|done| |done].
      apply Forall_singleton. by apply isTruthy_append.
    - eexists _, []. split_and!; [done|done|done|].
      by apply isTruthy_append. }
  apply (fold_shape (fileParts path) rest) in Hfirst;
    [|destruct (startsWith line "#"); [right; lia|by left]].
  destruct Hfirst as (c0 & cs & -> & Hlen & Hall & Hc0).
  unfold headingCount in *. cbn [List.filter].
  destruct (startsWith line "#"); cbn [negb length] in *.
  - rewrite filter_cons_False by (by rewrite Hc0).
    rewrite filter_truthy_all by done. lia.
  - rewrite filter_cons_True by done.
    rewrite filter_truthy_all by done. cbn [length]. lia.
Qed.

Lemma contains_refl_r (a line : string) : contains (a +:+ line) line.
Proof. exists a, EmptyString. by rewrite append_empty_r. Qed.

Lemma contains_append (chunk line more : string) :
  contains chunk line -> contains (chunk +:+ more) line.
Proof.
  intros (a & b & ->). exists a, (b +:+ more). by rewrite !append_assoc.
Qed.

Lemma join_snoc (sep : string) (xs : list string) (x : string) :
  exists before, join sep (xs ++ [x]) = before +:+ x.
Proof.
  induction xs as [|y xs (before & IH)]; [by exists EmptyString|].
  exists (y +:+ sep +:+ before). cbn [app].
  assert (join sep (y :: xs ++ [x]) = y +:+ sep +:+ join sep (xs ++ [x]))
    as -> by (by destruct xs).
  rewrite IH. by rewrite !append_assoc.
Qed.

Lemma step_linesKept (fp : string) (acc : Acc) (line : string)
  (seen : list string) :
  linesKept acc seen -> linesKept (step fp acc line) (line :: seen).
Proof.
  intros Hkept.
  destruct (step_chunks fp acc line) as (pre & c & _ & Hacc & Hstep).
  intros l Hl. rewrite Hstep. apply elem_of_cons in Hl as [->|Hl].
  - destruct (startsWith line "#").
    + eexists. split_and!.
      * apply elem_of_app. right. apply list_elem_of_here.
      * by apply isTruthy_append.
      * unfold stackLines. cbn [rev].
        destruct (join_snoc nl (rev (closeHeadings (leadingHashes line)
                                       (headingStack acc))) line)
          as (before & ->).
        rewrite <- !append_assoc. apply contains_refl_r.
    + eexists. split_and!.
      * apply elem_of_app. right. apply list_elem_of_here.
      * by apply isTruthy_append.
      * rewrite <- append_assoc. apply contains_refl_r.
  - destruct (Hkept l Hl) as (chunk & Hin & Htruthy & Hcontains).
    destruct Hacc as [Hnil|Hsame]; [by rewrite Hnil in Hin; inversion Hin|].
    rewrite Hsame in Hin. apply elem_of_app in Hin as [Hin|Hin].
    + exists chunk. split_and!; [|done|done].
      destruct (startsWith line "#"); [apply elem_of_app; left|];
        apply elem_of_app; by left.
    + apply list_elem_of_singleton in Hin as ->.
      destruct (startsWith line "#").
      * exists c. split_and!; [|done|done].
        apply elem_of_app. left.
        apply elem_of_app. right. apply list_elem_of_here.
      * exists (c +:+ nl +:+ line). split_and!.
        -- apply elem_of_app. right. apply list_elem_of_here.
        -- by apply isTruthy_append_l.
        -- by apply contains_append.
Qed.

Lemma fold_linesKept (fp : string) (lines : list string) (acc : Acc)
  (seen : list string) :
  linesKept acc seen ->
  linesKept (fold_left (step fp) lines acc) (rev lines ++ seen).
Proof.
  revert acc seen. induction lines as [|line lines IH]; intros acc seen Hacc;
    [done|].
  cbn [fold_left rev]. rewrite <- app_assoc. cbn [app].
  by apply IH, step_linesKept.
Qed.

(** X2.  No line of the text is lost: every line stands in one of the
    chunks that [chunkFile] returns. *)
Theorem chunk_keeps_lines (path content line : string) :
  line ∈ split content nl ->
  exists chunk, chunk ∈ chunkFile path content /\ contains chunk line.
Proof.
  intros Hline. unfold chunkFile.
  destruct (fold_linesKept (fileParts path) (split content nl) initAcc [])
    with (line := line) as (chunk & Hin & Htruthy & Hcontains).
  - intros l Hl. inversion Hl.
  - rewrite app_nil_r. apply list_elem_of_In, (proj1 (in_rev _ _)).
    by apply list_elem_of_In.
  - exists chunk. split; [|done]. by apply list_elem_of_filter.
Qed.

Lemma chunk_keeps_lines_witness :
  exists chunk,
    chunk ∈ chunkFile "vault/a.md" nestingExample /\ contains chunk "bar".
Proof.
  apply (chunk_keeps_lines "vault/a.md" nestingExample "bar").
  vm_compute. do 3 apply list_elem_of_further. apply list_elem_of_here.
Defined.

Lemma fold_text (lines : list string) (a line : string) :
  fold_left (fun c l => c +:+ nl +:+ l) lines (a +:+ line)
  = a +:+ join nl (line :: lines).
Proof.
  revert a line. induction lines as [|l lines IH]; intros a line; [done|].
  cbn [fold_left]. rewrite <- (append_assoc (a +:+ line) nl l), IH.
  change (join nl (line :: l :: lines))
    with (line +:+ nl +:+ join nl (l :: lines)).
  by rewrite !append_assoc.
Qed.

Lemma fold_plain (fp : string) (lines : list string) (acc : Acc) (c : string) :
  Forall (fun line => startsWith line "#" = false) lines ->
  chunks acc = [c] ->
  chunks (fold_left (step fp) lines acc)
  = [fold_left (fun c l => c +:+ nl +:+ l) lines c].
Proof.
  intros Hplain. revert acc c.
  induction Hplain as [|line lines Hline _ IH]; intros acc c Hacc; [done|].
  cbn [fold_left]. apply IH.
  destruct (step_chunks fp acc line) as (pre & c' & Hpush & _ & Hstep).
  rewrite Hstep, Hline. rewrite Hacc in Hpush.
  destruct pre as [|? [|? ?]]; try done. by injection Hpush as <-.
Qed.

(** X3.  A text in which no line starts with [#] is one chunk: a line feed
    followed by the whole text.  So the chunk of an empty file is the
    line feed alone. *)
Theorem chunk_without_headings (path content : string) :
  Forall (fun line => startsWith line "#" = false) (split content nl) ->
  chunkFile path content = [nl +:+ content].
Proof.
  intros Hplain. unfold chunkFile.
  destruct (split_cons content) as (line & rest & Hlines).
  pose proof (split_join_line content) as Hjoin.
  rewrite Hlines in *. cbn [fold_left].
  apply Forall_cons in Hplain as [Hline Hrest].
  rewrite (fold_plain _ rest _ (nl +:+ line) Hrest).
  - rewrite fold_text, Hjoin. by rewrite filter_cons_True.
  - destruct (step_chunks (fileParts path) initAcc line)
      as (pre & c & Hpush & _ & Hstep).
    rewrite Hstep, Hline. cbn [initAcc chunks] in Hpush.
    destruct pre as [|? [|? ?]]; try done. by injection Hpush as <-.
Qed.

Lemma chunk_without_headings_witness :
  chunkFile "vault/a.md" EmptyString = [nl]
  /\ chunkFile "vault/a.md" ("one" +:+ nl +:+ "two # three")
     = [nl +:+ "one" +:+ nl +:+ "two # three"].
Proof.
  split.
  - apply (chunk_without_headings "vault/a.md" EmptyString).
    vm_compute. by repeat constructor.
  - apply (chunk_without_headings "vault/a.md" ("one" +:+ nl +:+ "two # three")).
    vm_compute. by repeat constructor.
Defined.
End ChunkerMore.

(** ** More on the embedder *)

Lemma embedOperation_threw (chunk : string) (w : World) :
  embedFails (backend (env w) (fetchCount w) chunk) = true ->
  exists e, embedOperation chunk w
            = (Threw e, setFetchCount (S (fetchCount w)) w).
Proof.
  intros Hfail. unfold embedOperation, fetchEmbeddings. munfold.
  destruct (backend (env w) (fetchCount w) chunk) as [e|st body|e| |v];
    cbn in *; eauto.
  apply negb_true_iff in Hfail. rewrite Hfail. eauto.
Qed.

Lemma embedOperation_returned (chunk : string) (w : World) :
  embedFails (backend (env w) (fetchCount w) chunk) = false ->
  embedOperation chunk w
  = (Returned (embeddingOf (backend (env w) (fetchCount w) chunk)),
     setFetchCount (S (fetchCount w)) w)
  /\ length (embeddingOf (backend (env w) (fetchCount w) chunk))
     = API_vectorDimensions.
Proof.
  intros Hok. unfold embedOperation, fetchEmbeddings. munfold.
  destruct (backend (env w) (fetchCount w) chunk) as [e|st body|e| |v];
    cbn in *; try done.
  apply negb_false_iff in Hok. rewrite Hok. split; [done|].
  unfold validateVectorDimensions in Hok. by apply Nat.eqb_eq in Hok.
Qed.

Lemma retryFrom_after (chunk : string) (k : nat) :
  forall (left : nat) (delay : Z) (w : World),
    (k <= left)%nat ->
    failsFrom (env w) chunk (fetchCount w) k ->
    embedFails (backend (env w) (fetchCount w + k) chunk) = false ->
    exists w',
      retryFrom defaultRetry (embedOperation chunk) left delay w
      = (Returned (embeddingOf (backend (env w) (fetchCount w + k) chunk)), w')
      /\ env w' = env w
      /\ fetchCount w' = (fetchCount w + k + 1)%nat
      /\ now w' = now w + backoffTotal defaultRetry k delay
      /\ files w' = files w /\ index w' = index w.
Proof.
  induction k as [|k IH]; intros left delay w Hk Hfails Hok.
  - rewrite Nat.add_0_r in *.
    destruct (embedOperation_returned chunk w Hok) as [Hrun _].
    exists (setFetchCount (S (fetchCount w)) w).
    split_and!; wsimpl; cbn [backoffTotal]; try done; try lia.
    destruct left; cbn [retryFrom]; unfold tryCatch; by rewrite Hrun.
  - destruct left as [|left]; [lia|].
    destruct (embedOperation_threw chunk w) as [e Hrun].
    { specialize (Hfails 0%nat). rewrite Nat.add_0_r in Hfails. apply Hfails. lia. }
    cbn [retryFrom]. unfold tryCatch. rewrite Hrun.
    unfold logProcessRetrying, logLine, sleep. munfold. wsimpl.
    match goal with
    | |- context [retryFrom _ _ left ?d ?w1] =>
        destruct (IH left d w1) as (w' & Hrest & Henv & Hcount & Hnow & Hfiles & Hindex)
    end.
    + lia.
    + intros i Hi. wsimpl. replace (S (fetchCount w) + i)%nat
        with (fetchCount w + S i)%nat by lia. apply Hfails. lia.
    + wsimpl. replace (S (fetchCount w) + k)%nat
        with (fetchCount w + S k)%nat by lia. done.
    + exists w'. wsimpl.
      replace (S (fetchCount w) + k)%nat with (fetchCount w + S k)%nat in * by lia.
      split_and!; try done; try lia.
      rewrite Hnow. cbn [backoffTotal]. lia.
Qed.

Lemma retryFrom_exhausted (chunk : string) (left : nat) :
  forall (delay : Z) (w : World),
    failsFrom (env w) chunk (fetchCount w) (S left) ->
    exists msg w',
      retryFrom defaultRetry (embedOperation chunk) left delay w
      = (Threw (newError ("Operation failed after 3 retries: " +:+ msg)), w')
      /\ fetchCount w' = (fetchCount w + left + 1)%nat
      /\ now w' = now w + backoffTotal defaultRetry left delay
      /\ length (logged w') = (length (logged w) + left)%nat
      /\ files w' = files w /\ index w' = index w.
Proof.
  induction left as [|left IH]; intros delay w Hfails;
    (destruct (embedOperation_threw chunk w) as [e Hrun];
     [specialize (Hfails 0%nat); rewrite Nat.add_0_r in Hfails; apply Hfails; lia|]);
    cbn [retryFrom]; unfold tryCatch; rewrite Hrun.
  - exists (errMessage e), (setFetchCount (S (fetchCount w)) w).
    split_and!; try done; wsimpl; cbn [backoffTotal]; lia.
  - unfold logProcessRetrying, logLine, sleep. munfold. wsimpl.
    match goal with
    | |- context [retryFrom _ _ left ?d ?w1] =>
        destruct (IH d w1) as (msg & w' & Hrest & Hcount & Hnow & Hlog & Hfiles & Hindex)
    end.
    + intros i Hi. wsimpl. replace (S (fetchCount w) + i)%nat
        with (fetchCount w + S i)%nat by lia. apply Hfails. lia.
    + exists msg, w'. wsimpl. rewrite length_app in Hlog. cbn [length] in Hlog.
      split_and!; try done; try lia.
      rewrite Hnow. cbn [backoffTotal]. lia.
Qed.

(** X4.  [retryWithBackoff] returns the result of the first attempt that
    succeeds: when the first [k] requests for a chunk fail, [k] at most 3,
    and the next one answers with a vector of the expected dimension, that
    vector is returned after [k + 1] requests, and the call has slept 0,
    1000, 3000 or 7000 ms (1000, 2000 and 4000 ms between the attempts). *)
Theorem retry_returns_first_success (chunk : string) (k : nat) (w : World) :
  (k <= 3)%nat ->
  failsFrom (env w) chunk (fetchCount w) k ->
  embedFails (backend (env w) (fetchCount w + k) chunk) = false ->
  let r := retryWithBackoff (embedOperation chunk) w in
  fst r = Returned (embeddingOf (backend (env w) (fetchCount w + k) chunk))
  /\ fetchCount (snd r) = (fetchCount w + k + 1)%nat
  /\ now (snd r) = now w + nth k [0; 1000; 3000; 7000] 0.
Proof.
  intros Hk Hfails Hok r. subst r. unfold retryWithBackoff.
  destruct (retryFrom_after chunk k (maxRetries defaultRetry)
              (initialDelay defaultRetry) w Hk Hfails Hok)
    as (w' & -> & _ & Hcount & Hnow & _).
  cbn [fst snd]. split_and!; [done|done|]. rewrite Hnow. f_equal.
  destruct k as [|[|[|[|k]]]]; [done|done|done|done|lia].
Qed.

(** X5.  [retryWithBackoff] gives up after four attempts: when four
    requests in a row fail, it throws an [Error] whose message starts with
    "Operation failed after 3 retries: ", after exactly four requests,
    7000 ms of sleep and three lines in the log. *)
Theorem retry_gives_up (chunk : string) (w : World) :
  failsFrom (env w) chunk (fetchCount w) 4 ->
  let r := retryWithBackoff (embedOperation chunk) w in
  (exists msg,
      fst r = Threw (newError ("Operation failed after 3 retries: " +:+ msg)))
  /\ fetchCount (snd r) = (fetchCount w + 4)%nat
  /\ now (snd r) = now w + 7000
  /\ length (logged (snd r)) = (length (logged w) + 3)%nat.
Proof.
  intros Hfails r. subst r. unfold retryWithBackoff.
  destruct (retryFrom_exhausted chunk (maxRetries defaultRetry)
              (initialDelay defaultRetry) w Hfails)
    as (msg & w' & -> & Hcount & Hnow & Hlog & _).
  cbn [fst snd]. cbn in Hcount, Hnow, Hlog.
  split_and!; [by exists msg|lia|lia|exact Hlog].
Qed.

Lemma retry_returns_first_success_witness :
  fst (retryWithBackoff (embedOperation "a")
         (freshWorld (envWith (backendFailingFirst 2)) 0))
  = Returned (zeros API_vectorDimensions)
  /\ fetchCount (snd (retryWithBackoff (embedOperation "a")
                        (freshWorld (envWith (backendFailingFirst 2)) 0)))
     = 3%nat
  /\ now (snd (retryWithBackoff (embedOperation "a")
                 (freshWorld (envWith (backendFailingFirst 2)) 0)))
     = 3000.
Proof.
  apply (retry_returns_first_success "a" 2
           (freshWorld (envWith (backendFailingFirst 2)) 0)).
  - lia.
  - intros [|[|i]] Hi; [reflexivity|reflexivity|lia].
  - reflexivity.
Defined.

Lemma retry_gives_up_witness :
  (exists msg,
      fst (retryWithBackoff (embedOperation "a") backendDownWorld)
      = Threw (newError ("Operation failed after 3 retries: " +:+ msg)))
  /\ fetchCount (snd (retryWithBackoff (embedOperation "a") backendDownWorld))
     = (fetchCount backendDownWorld + 4)%nat
  /\ now (snd (retryWithBackoff (embedOperation "a") backendDownWorld))
     = now backendDownWorld + 7000
  /\ length (logged (snd (retryWithBackoff (embedOperation "a") backendDownWorld)))
     = (length (logged backendDownWorld) + 3)%nat.
Proof.
  apply (retry_gives_up "a" backendDownWorld).
  intros i Hi. reflexivity.
Defined.

Lemma waitForSlot_frame (w : World) :
  fst (waitForSlot w) = Returned tt
  /\ env (snd (waitForSlot w)) = env w
  /\ fetchCount (snd (waitForSlot w)) = fetchCount w
  /\ files (snd (waitForSlot w)) = files w
  /\ index (snd (waitForSlot w)) = index w.
Proof.
  unfold waitForSlot, rateCleanup, sleep. munfold. wsimpl.
  by destruct (_ <=? _)%nat.
Qed.

Lemma attemptLoop_healthy (chunk : string) (remaining : nat)
  (last : option Thrown) (w : World) :
  embedFails (backend (env w) (fetchCount w) chunk) = false ->
  exists w',
    attemptLoop chunk (S remaining) last w
    = (Returned (inl (embeddingOf (backend (env w) (fetchCount w) chunk))), w')
    /\ env w' = env w /\ fetchCount w' = S (fetchCount w).
Proof.
  intros Hok. cbn [attemptLoop]. unfold mbind, M_bind, bind, tryCatch.
  destruct (waitForSlot_frame w) as (Hret & Henv & Hcount & _).
  destruct (waitForSlot w) as [o w1]. cbn [fst snd] in *. subst o.
  destruct (retryFrom_after chunk 0 (maxRetries defaultRetry)
              (initialDelay defaultRetry) w1) as (w' & Hrun & Henv' & Hcount' & _).
  - lia.
  - intros i Hi. lia.
  - by rewrite Henv, Hcount, Nat.add_0_r.
  - unfold retryWithBackoff. rewrite Hrun. cbn.
    rewrite Henv, Hcount, Nat.add_0_r in *. exists w'.
    split_and!; [done|congruence|lia].
Qed.

Lemma embedPass_healthy (chunks : list string) (w : World) :
  backendHealthy (env w) ->
  exists w',
    embedPass chunks w
    = (Returned (embedAll (env w) (fetchCount w) chunks, []), w')
    /\ env w' = env w
    /\ fetchCount w' = (fetchCount w + length chunks)%nat.
Proof.
  revert w. induction chunks as [|chunk chunks IH]; intros w Hok.
  - exists w. cbn. split_and!; [done|done|lia].
  - cbn [embedPass]. unfold mbind at 1, M_bind, bind at 1.
    destruct (attemptLoop_healthy chunk (length API_fallbackModels) None w
                (Hok _ _)) as (w1 & -> & Henv & Hcount).
    rewrite <- Henv in Hok. destruct (IH w1 Hok) as (w2 & Hrest & Henv2 & Hcount2).
    unfold mbind, M_bind, bind. rewrite Hrest. cbn.
    rewrite Henv, Hcount in *. exists w2.
    split_and!; [done|congruence|cbn [length]; lia].
Qed.

Lemma embedAll_text (e : Env) (n : nat) (chunks : list string) :
  map text (embedAll e n chunks) = chunks.
Proof.
  revert n. induction chunks as [|c chunks IH]; intros n; [done|].
  cbn. by rewrite IH.
Qed.

(** X6.  With a backend that answers every request with a vector of the
    expected dimension, [embedChunks] returns the chunks in the order of
    the input, each with the vector of its own request, after one request
    for each chunk.  For the empty list it returns the empty list without
    a request. *)
Theorem embedChunks_healthy (fuel : nat) (chunks : list string) (w : World) :
  backendHealthy (env w) ->
  let r := embedChunks (S fuel) chunks w in
  fst r = Returned (embedAll (env w) (fetchCount w) chunks)
  /\ map text (embedAll (env w) (fetchCount w) chunks) = chunks
  /\ fetchCount (snd r) = (fetchCount w + length chunks)%nat.
Proof.
  intros Hok r. subst r. rewrite embedAll_text.
  destruct chunks as [|chunk chunks].
  - cbn [embedChunks embedAll length]. unfold logInfo, logLine. munfold. wsimpl.
    split_and!; [done|done|lia].
  - cbn [embedChunks]. unfold mbind, M_bind, bind.
    destruct (embedPass_healthy (chunk :: chunks) w Hok)
      as (w' & -> & _ & Hcount).
    cbn [fst snd]. done.
Qed.

Lemma embedChunks_healthy_witness :
  fst (embedChunks 1 ["a"; "b"] (freshWorld (envWith (backendFailingFirst 0)) 0))
  = Returned [mkEmbedded (zeros API_vectorDimensions) "a";
              mkEmbedded (zeros API_vectorDimensions) "b"]
  /\ fetchCount (snd (embedChunks 1 ["a"; "b"]
                        (freshWorld (envWith (backendFailingFirst 0)) 0)))
     = 2%nat.
Proof.
  destruct (embedChunks_healthy 0 ["a"; "b"]
              (freshWorld (envWith (backendFailingFirst 0)) 0))
    as (Hret & _ & Hcount).
  - intros n prompt. reflexivity.
  - split; [exact Hret|exact Hcount].
Defined.

Lemma embedOperation_valid (chunk : string) (w w' : World) (v : list float) :
  embedOperation chunk w = (Returned v, w') -> length v = API_vectorDimensions.
Proof.
  unfold embedOperation, fetchEmbeddings. munfold.
  destruct (backend (env w) (fetchCount w) chunk) as [e|st body|e| |v0];
    cbn; try done.
  destruct (validateVectorDimensions v0) eqn:Hv; [|done].
  intros [= <- _]. unfold validateVectorDimensions in Hv.
  by apply Nat.eqb_eq in Hv.
Qed.

Lemma retryFrom_returned {A} (Q : A -> Prop) (op : M A) (left : nat) :
  (forall w a w', op w = (Returned a, w') -> Q a) ->
  forall delay w a w',
    retryFrom defaultRetry op left delay w = (Returned a, w') -> Q a.
Proof.
  intros Hop. induction left as [|left IH]; intros delay w a w';
    cbn [retryFrom]; unfold tryCatch;
    destruct (op w) as [[x|e|] w1] eqn:Hrun; try done;
    try (intros [= <- _]; by eapply Hop).
  unfold logProcessRetrying, logLine, sleep. munfold. apply IH.
Qed.

Lemma attemptLoop_valid (chunk : string) (remaining : nat) :
  forall (last : option Thrown) (w w' : World) (v : list float),
    attemptLoop chunk remaining last w = (Returned (inl v), w') ->
    length v = API_vectorDimensions.
Proof.
  induction remaining as [|n IH]; intros last w w' v; cbn [attemptLoop];
    [done|].
  intros Hrun. apply bind_returned in Hrun as ([v0|err] & w1 & Htry & Hrun).
  - injection Hrun as <- _.
    apply tryCatch_returned in Htry as [Htry|(e & w2 & _ & Hcatch)].
    + apply bind_returned in Htry as ([] & w2 & _ & Htry).
      apply bind_returned in Htry as (v1 & w3 & Hretry & Hret).
      injection Hret as <- _. unfold retryWithBackoff in Hretry.
      eapply (retryFrom_returned (fun v => length v = API_vectorDimensions));
        [|exact Hretry].
      intros ? ? ?. apply embedOperation_valid.
    + apply bind_returned in Hcatch as ([] & w3 & _ & Hcatch).
      apply bind_returned in Hcatch as ([] & w4 & _ & Hcatch). done.
  - by apply IH in Hrun.
Qed.

Lemma embedPass_valid (chunks : list string) :
  forall (w w' : World) (results : list Embedded)
         (failed : list (string * option Thrown)),
    embedPass chunks w = (Returned (results, failed), w') ->
    Forall (fun e => length (embedding e) = API_vectorDimensions) results.
Proof.
  induction chunks as [|chunk chunks IH]; intros w w' results failed Hrun.
  - cbn in Hrun. by injection Hrun as <- _ _.
  - cbn [embedPass] in Hrun.
    apply bind_returned in Hrun as ([v|err] & w1 & Hloop & Hrun).
    + apply bind_returned in Hrun as ([res fl] & w2 & Hpass & Hret).
      cbn in Hret. injection Hret as <- _ _. apply Forall_cons. split.
      * cbn. by apply attemptLoop_valid in Hloop.
      * by apply IH in Hpass.
    + apply bind_returned in Hrun as ([] & w2 & _ & Hrun).
      apply bind_returned in Hrun as ([res fl] & w3 & Hpass & Hret).
      cbn in Hret. injection Hret as <- _ _. by apply IH in Hpass.
Qed.

(** X7.  When [embedChunks] returns, it returns every chunk of its input
    exactly once (in some order) and every vector it returns has the
    expected dimension: no chunk is left out of a result, and no vector
    of another length gets through. *)
Theorem embedChunks_complete_and_valid (fuel : nat) (chunks : list string)
  (w w' : World) (out : list Embedded) :
  embedChunks fuel chunks w = (Returned out, w') ->
  map text out ≡ₚ chunks
  /\ Forall (fun e => length (embedding e) = API_vectorDimensions) out.
Proof.
  intros Hrun. split; [by apply embedChunks_permutation in Hrun|].
  revert chunks w w' out Hrun. induction fuel as [|fuel IH];
    intros chunks w w' out Hrun; [done|].
  destruct chunks as [|c chunks].
  - cbn in Hrun. by injection Hrun as <- _.
  - destruct (embedChunks_unfold _ _ _ _ _ Hrun)
      as (fuel' & results & failed & w1 & retry & [= <-] & Hpass & -> & Hnil & Hretry);
      [done|].
    apply Forall_app. split; [by apply embedPass_valid in Hpass|].
    destruct failed as [|f failed]; [by rewrite Hnil|].
    destruct Hretry as [w2 Hretry]; [done|]. by apply IH in Hretry.
Qed.

Lemma embedChunks_complete_and_valid_witness :
  map text (default [] (returned (embedChunks 2 ["a"; "b"] firstChunkRetried)))
  ≡ₚ ["a"; "b"]
  /\ Forall (fun e => length (embedding e) = API_vectorDimensions)
       (default [] (returned (embedChunks 2 ["a"; "b"] firstChunkRetried))).
Proof.
  apply (embedChunks_complete_and_valid 2 ["a"; "b"] firstChunkRetried
           (snd (embedChunks 2 ["a"; "b"] firstChunkRetried))).
  vm_compute. reflexivity.
Defined.

(** ** The rate limiter *)

(** X8.  [waitForSlot] returns.  It forgets the requests older than the
    window and records the time of the call, also when it has waited.
    With fewer than ten requests in the window it does not wait; with
    ten or more it sleeps until the oldest of them is one window old,
    which is never longer than the window when no recorded time lies in
    the future, and then none does afterwards. *)
Theorem waitForSlot_bounded (w : World) :
  timestampsPast w ->
  let w' := snd (waitForSlot w) in
  fst (waitForSlot w) = Returned tt
  /\ timestamps w' = recentRequests w ++ [now w]
  /\ now w' = (if (RATE_maxRequests <=? length (recentRequests w))%nat
              then hd 0 (recentRequests w) + RATE_timeWindow else now w)
  /\ now w <= now w' <= now w + RATE_timeWindow
  /\ timestampsPast w'.
Proof.
  intros Hpast w'. subst w'. unfold timestampsPast in *.
  assert (Forall (fun time => time <= now w /\ now w - time < RATE_timeWindow)
            (recentRequests w)) as Hrecent.
  { apply List.Forall_forall. intros t Ht. apply list_elem_of_In in Ht.
    apply list_elem_of_filter in Ht as [Hlt Ht]. split; [|done].
    rewrite List.Forall_forall in Hpast. by apply Hpast, list_elem_of_In. }
  unfold waitForSlot, rateCleanup, sleep. munfold. wsimpl.
  fold (recentRequests w).
  destruct (RATE_maxRequests <=? length (recentRequests w))%nat eqn:Hfull; wsimpl.
  - destruct (recentRequests w) as [|t0 ts] eqn:Hts; [done|].
    apply Forall_cons in Hrecent as [[Hle Hlt] Hrest]. cbn [hd].
    unfold RATE_timeWindow in *.
    split_and!; [done|done|lia|lia|lia|].
    apply Forall_app. split.
    + apply Forall_cons. split; [lia|].
      eapply Forall_impl; [exact Hrest|]. cbn. intros; lia.
    + apply Forall_singleton. lia.
  - unfold RATE_timeWindow in *. split_and!; [done|done|done|lia|lia|].
    apply Forall_app. split; [|by apply Forall_singleton].
    eapply Forall_impl; [exact Hrecent|]. cbn. intros; lia.
Qed.

Lemma waitForSlot_bounded_witness :
  timestamps (snd (waitForSlot
                     (setTimestamps [0; 0; 0; 0; 0; 0; 0; 0; 0; 250; 300; 400]
                        (freshWorld (envWith backendDown) 1100))))
  = [250; 300; 400; 1100]
  /\ now (snd (waitForSlot
                 (setTimestamps [100; 150; 200; 250; 300; 400; 500; 600; 700; 800]
                    (freshWorld (envWith backendDown) 900))))
     = 1100.
Proof.
  split.
  - destruct (waitForSlot_bounded
                (setTimestamps [0; 0; 0; 0; 0; 0; 0; 0; 0; 250; 300; 400]
                   (freshWorld (envWith backendDown) 1100)))
      as (_ & Hts & _).
    + unfold timestampsPast. cbn. repeat constructor; lia.
    + rewrite Hts. reflexivity.
  - destruct (waitForSlot_bounded
                (setTimestamps [100; 150; 200; 250; 300; 400; 500; 600; 700; 800]
                   (freshWorld (envWith backendDown) 900)))
      as (_ & _ & Hnow & _).
    + unfold timestampsPast. cbn. repeat constructor; lia.
    + rewrite Hnow. reflexivity.
Defined.

(** ** More on the cache *)

(** A text that is empty, or whose first character is neither white space
    nor the first character of a JSON value, is rejected by [JSON.parse]. *)
Lemma notJson_parse (text : string) : notJson text -> Json.parse text = None.
Proof.
  destruct text as [|c rest]; [done|]. unfold notJson, Json.parse.
  destruct c as [b0 b1 b2 b3 b4 b5 b6 b7].
  destruct b0, b1, b2, b3, b4, b5, b6, b7;
    first [ reflexivity
          | intros H; exfalso; apply H; apply (bool_decide_unpack _); by vm_compute ].
Qed.

(** X9.  [loadCache] with the lock free: a missing cache file gives the
    empty cache; a cache file that cannot be JSON (it is empty, or its
    first character is neither white space nor the first character of a
    JSON value) makes it throw, after one line in the error log.  Either
    way the lock is free again afterwards and no file has changed. *)
Theorem loadCache_missing_or_corrupt (w : World) :
  cacheLock w = false ->
  cacheLock (snd (loadCache w)) = false
  /\ files (snd (loadCache w)) = files w
  /\ (files w !! CACHE_FILE_PATH = None -> fst (loadCache w) = Returned ∅)
  /\ (forall f, files w !! CACHE_FILE_PATH = Some f ->
                notJson (content f) ->
                (exists e, fst (loadCache w) = Threw e)
                /\ logged (snd (loadCache w))
                   = logged w ++ [mkLog LError "Failed: Error loading cache:"]).
Proof.
  intros Hlock. unfold loadCache, waitForCacheLock, mkdir, readFile, decodeCache.
  unfold logProcessError, logLine. munfold. rewrite Hlock. wsimpl.
  destruct (files w !! CACHE_FILE_PATH) as [f|] eqn:Hf; wsimpl.
  - destruct (Json.parse (content f)) as [j|] eqn:Hj; cbn [mbind option_bind].
    + destruct (cacheOfJson j); wsimpl; split_and!; try done;
        intros ? [= <-] Hnone%notJson_parse; congruence.
    + wsimpl. split_and!; [done|done|done|].
      intros ? [= <-] _. split; [by eexists|done].
  - split_and!; done.
Qed.

Lemma loadCache_missing_or_corrupt_witness :
  (exists e, fst (loadCache (cacheFileWorld "<<<<<<< HEAD")) = Threw e)
  /\ cacheLock (snd (loadCache (cacheFileWorld "<<<<<<< HEAD"))) = false.
Proof.
  destruct (loadCache_missing_or_corrupt (cacheFileWorld "<<<<<<< HEAD"))
    as (Hlock & _ & _ & Hcorrupt); [reflexivity|].
  split; [|exact Hlock].
  apply (Hcorrupt (mkFile "<<<<<<< HEAD" 0)); [by vm_compute|].
  apply (bool_decide_unpack _). by vm_compute.
Defined.

(** X10.  [saveCache] with the lock free returns; afterwards the cache
    file holds the cache as JSON writes it, which is the cache itself
    when its modification times are times of valid dates (a time that is
    [NaN] or infinite is in the file as [null]); neither the temporary
    file nor the backup file exists, every other file is as it was, and
    the lock is free. *)
Theorem saveCache_leaves_no_temp (c : Cache) (w : World) :
  cacheLock w = false ->
  let w' := snd (saveCache c w) in
  fst (saveCache c w) = Returned tt
  /\ cacheOnDisk w' = Some (cacheAsRead c)
  /\ (validTimes c -> cacheOnDisk w' = Some c)
  /\ files w' !! (CACHE_FILE_PATH +:+ ".tmp") = None
  /\ files w' !! (CACHE_FILE_PATH +:+ ".bak") = None
  /\ (forall p, p <> CACHE_FILE_PATH -> p <> CACHE_FILE_PATH +:+ ".tmp" ->
                p <> CACHE_FILE_PATH +:+ ".bak" -> files w' !! p = files w !! p)
  /\ cacheLock w' = false.
Proof.
  intros Hlock w'. subst w'. rewrite saveCache_run by done. cbn [fst snd].
  destruct cache_paths_distinct as (Hct & Hcb & Htb).
  split_and!.
  - done.
  - apply cacheOnDisk_afterSave.
  - intros Hvalid. apply cacheOnDisk_afterSave_fixed. by apply cacheAsRead_valid.
  - unfold afterSave, filesAfterSave. wsimpl.
    rewrite lookup_delete_ne by done. rewrite lookup_insert_ne by done.
    apply lookup_delete_eq.
  - unfold afterSave, filesAfterSave. wsimpl. apply lookup_delete_eq.
  - intros p H1 H2 H3. unfold afterSave. wsimpl. by apply filesAfterSave_other.
  - done.
Qed.

Lemma saveCache_leaves_no_temp_witness :
  fst (saveCache exampleCache (cacheFileWorld "{ not json")) = Returned tt
  /\ cacheOnDisk (snd (saveCache exampleCache (cacheFileWorld "{ not json")))
     = Some exampleCache
  /\ dom (files (snd (saveCache exampleCache (cacheFileWorld "{ not json"))))
     = {[ CACHE_FILE_PATH ]}.
Proof.
  destruct (saveCache_leaves_no_temp exampleCache (cacheFileWorld "{ not json"))
    as (Hret & Hdisk & _); [reflexivity|].
  split_and!; [exact Hret|exact Hdisk|].
  apply (bool_decide_unpack _). by vm_compute.
Defined.

(** ** The queue on disk *)

Lemma queueOfJson_queueToJson (q : list QueueEntry) :
  queueOfJson (queueToJson q) = Some q.
Proof.
  unfold queueOfJson, queueToJson.
  induction q as [|[ev path] q IH]; [done|].
  cbn [map]. cbn. cbn in IH. by rewrite IH.
Qed.

Lemma saveQueue_run (w : World) :
  saveQueue w
  = (Returned tt,
     setFiles (<[QUEUE_FILE := mkFile (Json.stringify (queueToJson (fileQueue w)))
                                 (now w)]> (files w)) w).
Proof. done. Qed.

(** X11.  What [saveQueue] writes, [loadQueue] reads: after [saveQueue],
    [loadQueue] returns the queue that is in memory and changes nothing. *)
Theorem queue_round_trip (w : World) :
  loadQueue (snd (saveQueue w)) = (Returned (fileQueue w), snd (saveQueue w)).
Proof.
  rewrite saveQueue_run. cbn [snd].
  unfold loadQueue, tryCatch, readFile. munfold. wsimpl.
  rewrite lookup_insert_eq. wsimpl. unfold Json.stringify.
  rewrite parse_stringifyAt. by rewrite queueOfJson_queueToJson.
Qed.

Lemma loadQueue_saved (w : World) (f : FileNode) (q : list QueueEntry) :
  files w !! QUEUE_FILE = Some f ->
  content f = Json.stringify (queueToJson q) ->
  loadQueue w = (Returned q, w).
Proof.
  intros Hf Hq. unfold loadQueue, tryCatch, readFile. munfold.
  rewrite Hf, Hq. unfold Json.stringify.
  rewrite parse_stringifyAt. by rewrite queueOfJson_queueToJson.
Qed.

(** X12.  Recovery after a restart: when the queue file holds the queue
    that [saveQueue] wrote, and nothing is queued or in progress in
    memory, [recoverVaultWatchQueue] starts the oldest entry, keeps the
    others queued in their order, and writes them back to the queue
    file, so the entry that is now in progress is no longer on disk. *)
Theorem recovery_resumes_oldest (w : World) (f : FileNode) (next : QueueEntry)
  (rest : list QueueEntry) :
  fileQueue w = [] -> isProcessingFile w = false ->
  files w !! QUEUE_FILE = Some f ->
  content f = Json.stringify (queueToJson (next :: rest)) ->
  let l := recoverVaultWatchQueue (idle w) in
  trace l = [Started (event next) (filePath next)]
  /\ tasks l = [Processing (event next) (filePath next)]
  /\ isProcessingFile (world l) = true
  /\ fileQueue (world l) = rest
  /\ queueOnDisk (world l) = Some rest.
Proof.
  intros Hqueue Hidle Hf Hq l. subst l. unfold recoverVaultWatchQueue.
  cbn [world idle]. rewrite (loadQueue_saved w f (next :: rest) Hf Hq).
  cbn [length Nat.ltb Nat.leb]. wsimpl. rewrite Hqueue. cbn [app].
  rewrite saveQueue_run. cbn [snd]. unfold enter. cbn [world]. wsimpl.
  rewrite Hidle. cbn [trace tasks world immediates app]. wsimpl.
  split_and!; try done.
  unfold queueOnDisk. wsimpl. rewrite lookup_insert_eq. cbn [mbind option_bind].
  wsimpl. unfold Json.stringify. rewrite parse_stringifyAt.
  cbn [mbind option_bind]. apply queueOfJson_queueToJson.
Qed.

Lemma recovery_resumes_oldest_witness :
  trace (recoverVaultWatchQueue
           (idle (restarted
                    {[ QUEUE_FILE :=
                         mkFile (Json.stringify
                                   (queueToJson [mkQueued "add" "x";
                                                 mkQueued "unlink" "y"])) 0 ]})))
  = [Started "add" "x"]
  /\ queueOnDisk
       (world (recoverVaultWatchQueue
                 (idle (restarted
                          {[ QUEUE_FILE :=
                               mkFile (Json.stringify
                                         (queueToJson [mkQueued "add" "x";
                                                       mkQueued "unlink" "y"])) 0 ]}))))
     = Some [mkQueued "unlink" "y"].
Proof.
  destruct (recovery_resumes_oldest
              (restarted
                 {[ QUEUE_FILE :=
                      mkFile (Json.stringify
                                (queueToJson [mkQueued "add" "x";
                                              mkQueued "unlink" "y"])) 0 ]})
              (mkFile (Json.stringify
                         (queueToJson [mkQueued "add" "x"; mkQueued "unlink" "y"])) 0)
              (mkQueued "add" "x") [mkQueued "unlink" "y"])
    as (Htrace & _ & _ & _ & Hdisk).
  - reflexivity.
  - reflexivity.
  - by vm_compute.
  - reflexivity.
  - split; [exact Htrace|exact Hdisk].
Defined.

(** X13.  Recovery with nothing to recover: with no queue file, with a
    queue file that cannot be JSON (it is empty, or its first character is
    neither white space nor the first character of a JSON value), and with
    a queue file that holds the empty queue, [recoverVaultWatchQueue]
    starts nothing and changes nothing. *)
Theorem recovery_without_queue (l : Loop) :
  files (world l) !! QUEUE_FILE = None
  \/ (exists f, files (world l) !! QUEUE_FILE = Some f
                /\ (notJson (content f)
                    \/ content f = Json.stringify (queueToJson []))) ->
  recoverVaultWatchQueue l = l.
Proof.
  intros Hfile. unfold recoverVaultWatchQueue.
  assert (loadQueue (world l) = (Returned [], world l)) as ->.
  { destruct Hfile as [Hnone|(f & Hf & [Hbad|Hempty])].
    - unfold loadQueue, tryCatch, readFile. munfold. by rewrite Hnone.
    - unfold loadQueue, tryCatch, readFile. munfold.
      by rewrite Hf, (notJson_parse _ Hbad).
    - by apply (loadQueue_saved _ f []). }
  cbn [length Nat.ltb Nat.leb]. by destruct l.
Qed.

Lemma recovery_without_queue_witness :
  recoverVaultWatchQueue (idle (restarted {[ QUEUE_FILE := mkFile "" 0 ]}))
  = idle (restarted {[ QUEUE_FILE := mkFile "" 0 ]}).
Proof.
  apply recovery_without_queue. right. exists (mkFile "" 0).
  split; [by vm_compute|left; exact I].
Defined.
(** ** What the processing of an event writes *)

(** One step through the structure of a computation, for an invariant
    about the files. *)
Create HintDb frame.

Ltac frame_step :=
  first
    [ solve [eauto 2 with frame]
    | apply keeps_ret | apply keeps_ret' | apply keeps_throw | apply keeps_diverge
    | apply keeps_gets
    | apply keeps_modify; solve [intros ? ?; assumption]
    | apply keeps_bind | apply keeps_tryCatch | apply keeps_tryFinally
    | apply keeps_forEach | apply keeps_mapM_
    | match goal with
      | |- forall _, _ => intro
      | |- keeps _ (if ?b then _ else _) => destruct b
      | |- keeps _ (match ?x with _ => _ end) => destruct x
      | |- keeps _ (let _ := _ in _) => cbv zeta
      end ].

Ltac frame_auto := repeat frame_step.

(** A primitive that leaves the files alone. *)
Ltac frame_prim :=
  let w := fresh "w" in
  let Hw := fresh "Hw" in
  intros w Hw; cbv beta delta [readFile statMtime access mkdir sleep
    fetchEmbeddings waitForCacheLock acquireLock releaseLock isIndexCreated
    createIndex deleteIndex beginUpdate endUpdate listItems getItem insertItem
    deleteItem queryItems logLine modify gets ret];
  repeat first [case_match | progress cbv zeta]; exact Hw.

Lemma startsWith_shorter (s a b : string) :
  startsWith s (a +:+ b) = true -> startsWith s a = true.
Proof.
  unfold startsWith. rewrite !prefix_spec. intros [c Hc].
  exists (b +:+ c). rewrite Hc.
  first [by rewrite append_assoc | by rewrite <- append_assoc].
Qed.

(** A path outside the directory of the store is no file of chunk texts. *)
Lemma outsideStore_texts (p : string) :
  outsideStore p -> startsWith p (TEXT_FILES_DIR +:+ "/") = false.
Proof.
  unfold outsideStore. intros Hp.
  destruct (startsWith p (TEXT_FILES_DIR +:+ "/")) eqn:Ht; [|done].
  rewrite <- Hp. symmetry.
  apply (startsWith_shorter p (VECTOR_STORE_DIR +:+ "/") "text_files/").
  exact Ht.
Qed.

Section Frame.
Context (p : string) (v : option FileNode).

Lemma frame_logLine lv msg : keeps (fileIs p v) (logLine lv msg).
Proof. frame_prim. Qed.
Hint Resolve frame_logLine : frame.
Lemma frame_logProcessError n e : keeps (fileIs p v) (logProcessError n e).
Proof. unfold logProcessError. frame_auto. Qed.
Lemma frame_logWarning msg : keeps (fileIs p v) (logWarning msg).
Proof. unfold logWarning. frame_auto. Qed.
Lemma frame_logInfo msg : keeps (fileIs p v) (logInfo msg).
Proof. unfold logInfo. frame_auto. Qed.
Lemma frame_logProcessRetrying n : keeps (fileIs p v) (logProcessRetrying n).
Proof. unfold logProcessRetrying. frame_auto. Qed.
Lemma frame_logProcessSkipped n : keeps (fileIs p v) (logProcessSkipped n).
Proof. unfold logProcessSkipped. frame_auto. Qed.
Lemma frame_sleep ms : keeps (fileIs p v) (sleep ms).
Proof. frame_prim. Qed.
Lemma frame_readFile q : keeps (fileIs p v) (readFile q).
Proof. frame_prim. Qed.
Lemma frame_statMtime q : keeps (fileIs p v) (statMtime q).
Proof. frame_prim. Qed.
Lemma frame_access q : keeps (fileIs p v) (access q).
Proof. frame_prim. Qed.
Lemma frame_mkdir q : keeps (fileIs p v) (mkdir q).
Proof. frame_prim. Qed.
Lemma frame_fetchEmbeddings q : keeps (fileIs p v) (fetchEmbeddings q).
Proof. frame_prim. Qed.
Lemma frame_waitForCacheLock : keeps (fileIs p v) waitForCacheLock.
Proof. frame_prim. Qed.
Lemma frame_acquireLock : keeps (fileIs p v) acquireLock.
Proof. frame_prim. Qed.
Lemma frame_releaseLock : keeps (fileIs p v) releaseLock.
Proof. frame_prim. Qed.
Lemma frame_isIndexCreated : keeps (fileIs p v) isIndexCreated.
Proof. frame_prim. Qed.
Lemma frame_createIndex : keeps (fileIs p v) createIndex.
Proof. frame_prim. Qed.
Lemma frame_deleteIndex : keeps (fileIs p v) deleteIndex.
Proof. frame_prim. Qed.
Lemma frame_beginUpdate : keeps (fileIs p v) beginUpdate.
Proof. frame_prim. Qed.
Lemma frame_endUpdate : keeps (fileIs p v) endUpdate.
Proof. frame_prim. Qed.
Lemma frame_listItems : keeps (fileIs p v) listItems.
Proof. frame_prim. Qed.
Lemma frame_getItem id : keeps (fileIs p v) (getItem id).
Proof. frame_prim. Qed.
Lemma frame_insertItem r : keeps (fileIs p v) (insertItem r).
Proof. frame_prim. Qed.
Lemma frame_deleteItem id : keeps (fileIs p v) (deleteItem id).
Proof. frame_prim. Qed.
Lemma frame_queryItems x q k : keeps (fileIs p v) (queryItems x q k).
Proof. frame_prim. Qed.
Hint Resolve frame_logProcessError frame_logWarning frame_logInfo
  frame_logProcessRetrying frame_logProcessSkipped frame_sleep frame_readFile
  frame_statMtime frame_access frame_mkdir frame_fetchEmbeddings
  frame_waitForCacheLock frame_acquireLock frame_releaseLock
  frame_isIndexCreated frame_createIndex frame_deleteIndex frame_beginUpdate
  frame_endUpdate frame_listItems frame_getItem frame_insertItem
  frame_deleteItem frame_queryItems : frame.

Lemma frame_writeFile q d : q <> p -> keeps (fileIs p v) (writeFile q d).
Proof.
  intros Hq w Hw. unfold fileIs, writeFile, modify in *. cbn [snd]. wsimpl.
  by rewrite lookup_insert_ne.
Qed.

Lemma frame_rename a b : a <> p -> b <> p -> keeps (fileIs p v) (rename a b).
Proof.
  intros Ha Hb w Hw. unfold fileIs, rename in *.
  destruct (files w !! a); cbn [snd]; wsimpl; [|done].
  rewrite lookup_insert_ne by done. by rewrite lookup_delete_ne.
Qed.

Lemma frame_unlink q : q <> p -> keeps (fileIs p v) (unlink q).
Proof.
  intros Hq w Hw. unfold fileIs, unlink in *.
  destruct (files w !! q); cbn [snd]; wsimpl; [|done].
  by rewrite lookup_delete_ne.
Qed.

Lemma frame_waitForSlot : keeps (fileIs p v) waitForSlot.
Proof. unfold waitForSlot, rateCleanup. frame_auto. Qed.
Hint Resolve frame_waitForSlot : frame.

Lemma frame_retryFrom {A} cfg (op : M A) left delay :
  keeps (fileIs p v) op -> keeps (fileIs p v) (retryFrom cfg op left delay).
Proof.
  intros Hop. revert delay. induction left as [|left IH]; intros delay;
    cbn [retryFrom]; frame_auto.
Qed.

Lemma frame_retryWithBackoff {A} (op : M A) :
  keeps (fileIs p v) op -> keeps (fileIs p v) (retryWithBackoff op).
Proof. apply frame_retryFrom. Qed.
Hint Resolve frame_retryWithBackoff : frame.

Lemma frame_embedOperation chunk : keeps (fileIs p v) (embedOperation chunk).
Proof. unfold embedOperation. frame_auto. Qed.
Lemma frame_queryOperation q : keeps (fileIs p v) (queryOperation q).
Proof. unfold queryOperation. frame_auto. Qed.
Hint Resolve frame_embedOperation frame_queryOperation : frame.

Lemma frame_attemptLoop chunk remaining last :
  keeps (fileIs p v) (attemptLoop chunk remaining last).
Proof.
  revert last. induction remaining as [|n IH]; intros last;
    cbn [attemptLoop]; frame_auto.
Qed.
Hint Resolve frame_attemptLoop : frame.

Lemma frame_embedPass chunks : keeps (fileIs p v) (embedPass chunks).
Proof. induction chunks as [|c chunks IH]; cbn [embedPass]; frame_auto. Qed.
Hint Resolve frame_embedPass : frame.

Lemma frame_embedChunks fuel chunks : keeps (fileIs p v) (embedChunks fuel chunks).
Proof.
  revert chunks. induction fuel as [|fuel IH]; intros chunks;
    cbn [embedChunks]; frame_auto.
Qed.
Hint Resolve frame_embedChunks : frame.

Lemma frame_loadCache : keeps (fileIs p v) loadCache.
Proof. unfold loadCache. frame_auto. Qed.
Hint Resolve frame_loadCache : frame.

Lemma frame_cleanupOrphanedVectors : keeps (fileIs p v) cleanupOrphanedVectors.
Proof. unfold cleanupOrphanedVectors, getAllVectorIds, cleanupOne. frame_auto. Qed.

Lemma frame_optimizeVectorStore : keeps (fileIs p v) optimizeVectorStore.
Proof. unfold optimizeVectorStore. frame_auto. Qed.

Lemma frame_backupVectorStore : keeps (fileIs p v) backupVectorStore.
Proof.
  unfold backupVectorStore, cleanupBackups. frame_auto.
  apply keeps_modify. intros w Hw. by destruct (_ <? _)%nat.
Qed.
Hint Resolve frame_cleanupOrphanedVectors frame_optimizeVectorStore
  frame_backupVectorStore : frame.

Context (Hp : protectedPath p).

Lemma frame_saveCache c : keeps (fileIs p v) (saveCache c).
Proof.
  destruct Hp as (Hc & Ht & Hb & _).
  unfold saveCache, ignoreErrors. frame_auto;
    first [apply frame_writeFile|apply frame_rename|apply frame_unlink]; done.
Qed.
Hint Resolve frame_saveCache : frame.

Lemma textFile_not_protected (name : string) :
  TEXT_FILES_DIR +:+ "/" +:+ name <> p.
Proof.
  destruct Hp as (_ & _ & _ & Hdir). apply outsideStore_texts in Hdir.
  intros <-. unfold startsWith in Hdir. rewrite <- append_assoc in Hdir.
  by rewrite prefix_append in Hdir.
Qed.

Lemma frame_storeOne path i c : keeps (fileIs p v) (storeOne path i c).
Proof.
  unfold storeOne. frame_auto. apply frame_writeFile, textFile_not_protected.
Qed.
Hint Resolve frame_storeOne : frame.

Lemma frame_storeLoop path i cs : keeps (fileIs p v) (storeLoop path i cs).
Proof.
  revert i. induction cs as [|c cs IH]; intros i; cbn [storeLoop]; frame_auto.
Qed.
Hint Resolve frame_storeLoop : frame.

Lemma frame_storeChunks path cs : keeps (fileIs p v) (storeChunks path cs).
Proof. unfold storeChunks. frame_auto. Qed.
Hint Resolve frame_storeChunks : frame.

Lemma frame_processFile fuel path : keeps (fileIs p v) (processFile fuel path).
Proof. unfold processFile. frame_auto. Qed.

Lemma frame_deleteFile path : keeps (fileIs p v) (deleteFile path).
Proof. unfold deleteFile. frame_auto. Qed.
Hint Resolve frame_processFile frame_deleteFile : frame.

Lemma frame_handleBody fuel ev path : keeps (fileIs p v) (handleBody fuel ev path).
Proof. unfold handleBody, dispatchEvent. frame_auto. Qed.

End Frame.

Lemma handleBody_other_files (fuel : nat) (ev path p : string) (w : World) :
  protectedPath p ->
  files (snd (handleBody fuel ev path w)) !! p = files w !! p.
Proof.
  intros Hp.
  exact (frame_handleBody p (files w !! p) Hp fuel ev path w eq_refl).
Qed.



Lemma single_flight_witness :
  (inFlight (default (idle queueWorld)
               (run 1 (firstn 8 raceSchedule) (idle queueWorld))) <= 1)%nat.
Proof.
  apply (single_flight 1 (firstn 8 raceSchedule) queueWorld).
  vm_compute. exact eq_refl.
Defined.

Lemma enqueue_persists_witness :
  fileQueue (world (enter "add" "x" (enter "add" "e" (idle queueWorld))))
  = [mkQueued "add" "x"]
  /\ queueOnDisk (world (enter "add" "x" (enter "add" "e" (idle queueWorld))))
     = Some [mkQueued "add" "x"].
Proof.
  destruct (enqueue_persists "add" "x" (enter "add" "e" (idle queueWorld)))
    as (Hqueue & _ & Hfile); [reflexivity|].
  split; [exact Hqueue|]. by vm_compute.
Defined.
(** ** More on the vector store *)

Lemma replaceChars_clean (s : string) (c : ascii) :
  In c (list_ascii_of_string (replaceChars isPathSeparator "_" s)) ->
  isPathSeparator c = false.
Proof.
  induction s as [|x s IH]; [done|]. cbn [replaceChars].
  destruct (isPathSeparator x) eqn:Hx.
  - rewrite append_cons, append_empty_l. cbn [list_ascii_of_string].
    intros [<-|Hc]; [done|by apply IH].
  - rewrite append_cons, append_empty_l. cbn [list_ascii_of_string].
    intros [<-|Hc]; [done|by apply IH].
Qed.

(** X16.  The name [normalizePathForStorage] gives has no path separator in
    it: no slash, no backslash and no colon, whatever the path. *)
Theorem storage_name_is_flat (path : string) (c : ascii) :
  In c (list_ascii_of_string (normalizePathForStorage path)) ->
  c <> "/"%char /\ c <> "\"%char /\ c <> ":"%char.
Proof.
  intros Hc. apply replaceChars_clean in Hc. unfold isPathSeparator in Hc.
  apply orb_false_iff in Hc as [Hc Hcolon]. apply orb_false_iff in Hc as [Hback Hslash].
  apply Ascii.eqb_neq in Hcolon, Hback, Hslash. done.
Qed.

Lemma storage_name_is_flat_witness :
  normalizePathForStorage "vault/notes/a:b.md::0" = "notes_a_b.md__0"
  /\ ("n"%char <> "/"%char /\ "n"%char <> "\"%char /\ "n"%char <> ":"%char).
Proof.
  split; [reflexivity|].
  apply (storage_name_is_flat "vault/notes/a:b.md::0" "n").
  vm_compute. left. reflexivity.
Defined.

Lemma loadCache_comes_back (w : World) :
  cacheLock w = false -> fst (loadCache w) <> Diverged.
Proof.
  intros Hlock. unfold loadCache, waitForCacheLock, mkdir, readFile.
  unfold logProcessError, logLine. munfold. rewrite Hlock. wsimpl.
  destruct (files w !! CACHE_FILE_PATH) as [f|]; wsimpl; [|done].
  by destruct (decodeCache (content f)).
Qed.

(** X18.  A backup is best effort: with the cache lock free
    [backupVectorStore] returns whatever fails inside it, and before the
    interval of one day since the last backup has passed it does nothing
    at all. *)
Theorem backup_is_best_effort (w : World) :
  cacheLock w = false ->
  fst (backupVectorStore w) = Returned tt
  /\ (now w - lastBackupTime w < backupInterval -> backupVectorStore w = (Returned tt, w)).
Proof.
  intros Hlock.
  destruct (now w - lastBackupTime w <? backupInterval) eqn:Hsoon.
  - split; [|intros _]; unfold backupVectorStore; munfold; by rewrite Hsoon.
  - split; [|intros Hlt; apply Z.ltb_lt in Hlt; congruence].
    unfold backupVectorStore. unfold mbind, M_bind, bind, gets.
    rewrite Hsoon. unfold tryCatch, modify.
    match goal with
    | |- context [loadCache ?w0] =>
        pose proof (loadCache_comes_back w0 Hlock) as Hback;
        destruct (loadCache w0) as [[c|e|] w1]
    end; [| |done].
    + unfold listItems, cleanupBackups, modify.
      by destruct (created (index _)).
    + done.
Qed.

Lemma backup_is_best_effort_witness :
  fst (backupVectorStore (cacheFileWorld "{ not json")) = Returned tt
  /\ backupVectorStore (setLastBackupTime 10 (setNow 86400009 threeRecords))
     = (Returned tt, setLastBackupTime 10 (setNow 86400009 threeRecords)).
Proof.
  split.
  - by apply (backup_is_best_effort (cacheFileWorld "{ not json")).
  - apply (backup_is_best_effort (setLastBackupTime 10 (setNow 86400009 threeRecords)));
      [reflexivity|]. by vm_compute.
Defined.

Lemma dropAll_nil (l : list VectorRecord) : dropAll [] l = l.
Proof. unfold dropAll. apply forallb_filter_id. by apply forallb_forall. Qed.

Lemma deleteKeys_run {A} (kvs : list (string * A)) :
  forall w,
    updating (index w) || created (index w) = true ->
    forEach (fun kv : string * A => deleteItem (fst kv)) kvs w
    = (Returned tt,
       setIndex (setItems (dropAll (map fst kvs) (items (index w))) (index w)) w).
Proof.
  induction kvs as [|[k a] kvs IH]; intros w Hidx.
  - cbn [forEach map]. rewrite dropAll_nil. unfold ret. f_equal.
    destruct w as [? ? ? ? ? ? ? [? ? ?]]. done.
  - cbn [forEach]. unfold mbind, M_bind, bind, deleteItem. rewrite Hidx.
    rewrite IH by done. f_equal. world_eq. unfold setItems. wsimpl. f_equal.
    unfold dropAll. rewrite filter_twice. apply filter_ext. intros r.
    cbn [map existsb fst]. by rewrite negb_orb.
Qed.

Lemma dropAll_elem (keys : list string) (l : list VectorRecord) (r : VectorRecord) :
  r ∈ dropAll keys l <-> r ∈ l /\ recId r ∉ keys.
Proof.
  unfold dropAll. rewrite list_elem_of_In, filter_In, <- list_elem_of_In.
  apply and_iff_compat_l. rewrite negb_true_iff. split.
  - intros Hex Hin. apply not_true_iff_false in Hex. apply Hex.
    apply existsb_exists. exists (recId r).
    split; [by apply list_elem_of_In|apply String.eqb_refl].
  - intros Hnot. apply not_true_is_false. intros Hex.
    apply existsb_exists in Hex as (k & Hk & Hid). apply String.eqb_eq in Hid.
    apply Hnot. rewrite Hid. by apply list_elem_of_In.
Qed.

(** X19.  [deleteFile] with the cache readable and the index there: it
    returns; the cache file then holds the entries whose path does not
    start with the given path; and a record leaves the index exactly when
    its id is itself the path of a removed cache entry, so the records
    of a note, whose ids are the path followed by [::] and a number,
    stay. *)
Theorem deleteFile_effect (path : string) (w : World) (c : Cache) :
  cacheReadable w c ->
  updating (index w) || created (index w) = true ->
  let w' := snd (deleteFile path w) in
  fst (deleteFile path w) = Returned tt
  /\ cacheOnDisk w' = Some (cacheOutside path c)
  /\ forall r, r ∈ items (index w') <->
               r ∈ items (index w) /\ cacheUnder path c !! recId r = None.
Proof.
  intros Hcache Hidx w'. subst w'.
  assert (deleteFile path w
          = (Returned tt,
             afterSave (cacheOutside path c)
               (setIndex (setItems (dropAll (map fst (map_to_list (cacheUnder path c)))
                                      (items (index w))) (index w))
                  (afterLoad w)))) as ->.
  { unfold deleteFile. unfold mbind at 1, M_bind, bind at 1.
    rewrite (loadCache_readable w c Hcache).
    unfold mbind, M_bind, bind. fold (cacheUnder path c) (cacheOutside path c).
    rewrite deleteKeys_run by done. by rewrite saveCache_run. }
  cbn [fst snd]. split_and!; [done| |].
  { apply cacheOnDisk_afterSave_fixed. unfold cacheOutside.
    apply cacheAsRead_filter. by apply (cacheReadable_fixed w). }
  intros r. unfold afterSave. wsimpl. rewrite dropAll_elem.
  apply and_iff_compat_l. split.
  - intros Hnot. destruct (cacheUnder path c !! recId r) as [e|] eqn:He; [|done].
    exfalso. apply Hnot. apply list_elem_of_In, in_map_iff.
    exists (recId r, e). split; [done|].
    by apply list_elem_of_In, elem_of_map_to_list.
  - intros Hnone Hin. apply list_elem_of_In, in_map_iff in Hin as ([k e] & Hk & Hin).
    cbn in Hk. subst k. apply list_elem_of_In, elem_of_map_to_list in Hin.
    congruence.
Qed.

Lemma deleteFile_effect_witness :
  fst (deleteFile "vault/a.md" threeRecords) = Returned tt
  /\ cacheOnDisk (snd (deleteFile "vault/a.md" threeRecords))
     = Some {[ "vault/b.md" := mkEntry "g" ["vault/b.md::0"] 2 ]}
  /\ map recId (items (index (snd (deleteFile "vault/a.md" threeRecords))))
     = ["vault/a.md::0"; "vault/a.md::1"].
Proof.
  destruct (deleteFile_effect "vault/a.md" threeRecords
              {[ "vault/a.md" := mkEntry "h" ["vault/a.md::0"; "vault/a.md::1"] 1;
                 "vault/b.md" := mkEntry "g" ["vault/b.md::0"] 2 ]})
    as (Hret & Hdisk & _).
  - split; by vm_compute.
  - reflexivity.
  - split_and!; [exact Hret| |by vm_compute].
    rewrite Hdisk. by vm_compute.
Defined.

(** ** More on retrieval *)

Lemma withText_facts (t : string) (r : Scored) :
  score (withText t r) = score r
  /\ recId (item (withText t r)) = recId (item r)
  /\ resultText (withText t r) = Some (MString t).
Proof.
  unfold withText, resultText. cbn. split_and!; [done|done|].
  apply lookup_insert_eq.
Qed.

Lemma loadText_returned (r r' : Scored) (w w' : World) :
  loadText r w = (Returned r', w') ->
  exists t, r' = withText t r.
Proof.
  unfold loadText.
  destruct (mdFields (recMetadata (item r)) !! "documentId") as [[d| |]|];
    try (intros [= <- _]; eauto; fail).
  destruct (String.eqb d EmptyString); [intros [= <- _]; eauto|].
  intros Hrun. apply tryCatch_returned in Hrun as [Hrun|(e & w1 & _ & Hrun)].
  - apply bind_returned in Hrun as (t & w1 & _ & Hret).
    injection Hret as <- _. eauto.
  - apply bind_returned in Hrun as ([] & w2 & _ & Hret).
    injection Hret as <- _. eauto.
Qed.

Lemma mapM_loadText_returned (l : list Scored) :
  forall (w w' : World) (rs : list Scored),
    mapM_ loadText l w = (Returned rs, w') ->
    Forall2 (fun r r' => exists t, r' = withText t r) l rs.
Proof.
  induction l as [|r l IH]; intros w w' rs Hrun.
  - cbn in Hrun. injection Hrun as <- _. constructor.
  - cbn [mapM_] in Hrun.
    apply bind_returned in Hrun as (r' & w1 & Hload & Hrun).
    apply bind_returned in Hrun as (rs' & w2 & Hrest & Hret).
    injection Hret as <- _. constructor.
    + by apply loadText_returned in Hload.
    + by apply IH in Hrest.
Qed.

Lemma sublist_List_filter {A} (f : A -> bool) (l : list A) :
  sublist (List.filter f l) l.
Proof.
  induction l as [|x l IH]; [constructor|]. cbn [List.filter].
  destruct (f x); by constructor.
Qed.

Lemma sublist_map {A B} (f : A -> B) (l k : list A) :
  sublist l k -> sublist (map f l) (map f k).
Proof. induction 1; cbn [map]; by constructor. Qed.

(** X20.  What [searchContent] returns: at most ten results, each with a
    score of at least 0.6 and with a text (the text of its chunk, or
    "[Text unavailable]"), in the order in which the index gave them. *)
Theorem search_results_bounded (query : string) (w w' : World)
  (rs : list Scored) :
  searchContent query w = (Returned rs, w') ->
  (length rs <= SEARCH_limit)%nat
  /\ Forall (fun r => PrimFloat.leb SEARCH_minScore (score r) = true
                      /\ exists t, resultText r = Some (MString t)) rs
  /\ (forall found w0 v,
        searchEmbed query w = (Returned v, w0) ->
        queryEngine (env w0) (items (index w0)) v query (SEARCH_limit * 2)
        = inr found ->
        sublist (map (fun r => recId (item r)) rs)
                (map (fun r => recId (item r)) found)).
Proof.
  intros Hrun. unfold searchContent in Hrun.
  apply tryCatch_returned in Hrun as [Hrun|(e & w1 & Hbody & Hcatch)].
  - unfold searchBody in Hrun.
    apply bind_returned in Hrun as (v & w1 & Hembed & Hrun).
    apply bind_returned in Hrun as (found & w2 & Hquery & Hfinish).
    unfold searchFinish in Hfinish. cbn [SEARCH_metadataFilter] in Hfinish.
    apply mapM_loadText_returned in Hfinish.
    set (kept := firstn SEARCH_limit
                   (List.filter (fun r => PrimFloat.leb SEARCH_minScore (score r))
                      found)) in *.
    assert (Forall (fun r => PrimFloat.leb SEARCH_minScore (score r) = true) kept)
      as Hscores.
    { apply List.Forall_forall. intros r Hr. apply list_elem_of_In in Hr.
      pose proof (elem_of_sublist _ _ _ Hr (sublist_take _ SEARCH_limit)) as Hin.
      by apply list_elem_of_In, filter_In in Hin as [_ Hin]. }
    split_and!.
    + rewrite <- (Forall2_length _ _ _ Hfinish). apply firstn_le_length.
    + clear -Hfinish Hscores.
      induction Hfinish as [|r r' l rs' (t & ->) _ IH]; [constructor|].
      apply Forall_cons in Hscores as [Hr Hl].
      destruct (withText_facts t r) as (Hs & _ & Ht).
      constructor; [|by apply IH]. rewrite Hs. split; [done|by exists t].
    + intros found' w0 v' Hembed' Hengine. rewrite Hembed in Hembed'.
      injection Hembed' as <- <-.
      unfold queryItems in Hquery.
      destruct (created (index w1)); [|done]. rewrite Hengine in Hquery.
      injection Hquery as <- _.
      assert (map (fun r => recId (item r)) rs
              = map (fun r => recId (item r)) kept) as ->.
      { clear -Hfinish.
        induction Hfinish as [|r r' l rs' (t & ->) _ IH]; [done|].
        cbn [map]. by rewrite IH. }
      apply sublist_map. subst kept.
      etrans; [apply sublist_take|]. apply sublist_List_filter.
  - apply bind_returned in Hcatch as ([] & w2 & _ & Hcatch).
    destruct (isErrorInstance e && includes (errMessage e) tooSmall); [|done].
    injection Hcatch as <- _. split_and!; [cbn; lia|constructor|].
    intros. apply sublist_nil_l.
Qed.

Lemma search_results_bounded_witness :
  map (fun r => (recId (item r), score r, resultText r))
    (default [] (returned (searchContent "q" answeringWorld)))
  = [ ("vault/a.md::0", 0.9%float, Some (MString "chunk text"));
      ("vault/b.md::0", 0.7%float, Some (MString "[Text unavailable]")) ]
  /\ (length (default [] (returned (searchContent "q" answeringWorld)))
      <= SEARCH_limit)%nat.
Proof.
  split; [by vm_compute|].
  apply (search_results_bounded "q" answeringWorld
           (snd (searchContent "q" answeringWorld))).
  vm_compute. reflexivity.
Defined.

Section FrameSearch.
Context (p : string) (v : option FileNode).

Hint Resolve frame_logLine frame_logProcessError frame_readFile
  frame_isIndexCreated frame_createIndex frame_queryItems
  frame_retryWithBackoff frame_queryOperation : frame.

Lemma frame_loadText r : keeps (fileIs p v) (loadText r).
Proof. unfold loadText. frame_auto. Qed.
Hint Resolve frame_loadText : frame.

Lemma frame_searchContent q : keeps (fileIs p v) (searchContent q).
Proof.
  unfold searchContent, searchBody, searchEmbed, searchFinish, queryOllama.
  frame_auto.
Qed.

End FrameSearch.

Lemma keeps_searchWithIndex (I : World -> Prop) (query : string) :
  Insensitive I -> keeps I (searchWithIndex query).
Proof.
  intros Hins. unfold searchWithIndex, searchFinish, loadText. keeps_auto.
Qed.

Lemma searchContent_unfold (query : string) (w : World) :
  searchContent query w
  = searchWithIndex query
      (if created (index w) then w
       else setIndex (mkIndex true [] (updating (index w))) w).
Proof.
  unfold searchContent, searchWithIndex, searchBody, searchEmbed, isIndexCreated,
    createIndex.
  munfold. destruct (created (index w)) eqn:Hc; cbn [negb]; by rewrite ?Hc.
Qed.

(** X21.  What a search changes: if there is no index it creates an empty
    one, so afterwards the index exists however the search ended; no path
    outside the directory of the store is written; and an index that is
    there keeps its records, as far as their ids and vectors go, in their
    order (the search writes the texts it loads into the metadata of its
    results). *)
Theorem search_creates_index_only (query : string) (w : World) :
  created (index (snd (searchContent query w))) = true
  /\ (forall p, outsideStore p ->
        files (snd (searchContent query w)) !! p = files w !! p)
  /\ (created (index w) = true ->
      map recId (items (index (snd (searchContent query w))))
      = map recId (items (index w))
      /\ map recVector (items (index (snd (searchContent query w))))
         = map recVector (items (index w))).
Proof.
  split_and!.
  - rewrite searchContent_unfold.
    apply (keeps_searchWithIndex indexCreated query indexCreated_insensitive).
    by destruct (created (index w)) eqn:Hc.
  - intros p _.
    exact (frame_searchContent p (files w !! p) query w eq_refl).
  - intros Hc. rewrite searchContent_unfold, Hc.
    assert (index (snd (searchWithIndex query w)) = index w) as ->; [|done].
    apply (keeps_searchWithIndex (fun w0 => index w0 = index w) query);
      [split; intros; assumption|done].
Qed.

(** ** Storing the chunks of a note *)

Lemma setItems_same (i : LocalIndex) : setItems (items i) i = i.
Proof. by destruct i. Qed.

Lemma setIndex_same (w : World) : setIndex (index w) w = w.
Proof. by destruct w. Qed.

Lemma append_inj_r (a b c : string) : a +:+ b = a +:+ c -> b = c.
Proof.
  induction a as [|x a IH]; [done|]. rewrite !append_cons.
  intros [= H]. by apply IH.
Qed.

Lemma numberText_inj (a b : Z) : Json.numberText a = Json.numberText b -> a = b.
Proof.
  intros H.
  assert (Json.readNumber (Json.numberText a +:+ EmptyString)
          = Json.readNumber (Json.numberText b +:+ EmptyString)) as Hread
    by (by rewrite H).
  rewrite !readNumber_text in Hread by done. by injection Hread.
Qed.

Lemma chunkIdOf_inj (rel : string) (i j : nat) :
  chunkIdOf rel i = chunkIdOf rel j -> i = j.
Proof.
  unfold chunkIdOf. intros H.
  apply append_inj_r, append_inj_r, numberText_inj in H. lia.
Qed.

(** *** The loop *)

Lemma storeOne_run (path : string) (i : nat) (chunk : Embedded) (w : World) :
  created (index w) = true ->
  let chunkId := chunkIdOf (relativeToCwd (env w) path) i in
  storeOne path i chunk w
  = (Returned chunkId,
     setOperationCount (operationCount w + 1)%N
       (setIndex
          (setItems (List.filter (fun r => negb (hasId chunkId r)) (items (index w))
                     ++ [vectorData chunkId chunk]) (index w))
          (setFiles
             (<[TEXT_FILES_DIR +:+ "/" +:+ normalizePathForStorage chunkId +:+ ".txt"
                := mkFile (text chunk) (now w)]> (files w)) w))).
Proof.
  intros Hc chunkId. unfold storeOne, writeFile, getItem, deleteItem, insertItem.
  munfold. wsimpl. rewrite Hc. fold chunkId.
  destruct (List.find (hasId chunkId) (items (index w))) as [found|] eqn:Hfind;
    wsimpl; rewrite Hc, orb_true_r.
  - wsimpl. rewrite ?Hc, ?orb_true_r.
    replace (existsb (hasId (recId (vectorData chunkId chunk)))
               (List.filter (fun r => negb (hasId chunkId r)) (items (index w))))
      with false; [done|].
    symmetry. apply not_true_is_false. intros Hex.
    apply existsb_exists in Hex as (r & Hr & Hid).
    apply filter_In in Hr as [_ Hr]. cbn [vectorData recId] in Hid.
    by rewrite Hid in Hr.
  - assert (forall r, In r (items (index w)) -> hasId chunkId r = false) as Hnone
      by (intros r Hr; by apply (find_none _ _ Hfind)).
    replace (existsb (hasId (recId (vectorData chunkId chunk))) (items (index w)))
      with false.
    + do 5 f_equal. symmetry. apply forallb_filter_id, forallb_forall.
      intros r Hr. by rewrite Hnone.
    + symmetry. apply not_true_is_false. intros Hex.
      apply existsb_exists in Hex as (r & Hr & Hid).
      cbn [vectorData recId] in Hid. by rewrite Hnone in Hid.
Qed.

Lemma storeLoop_run (path : string) (chunks : list Embedded) :
  forall (i : nat) (w : World),
    created (index w) = true ->
    let rel := relativeToCwd (env w) path in
    storeLoop path i chunks w
    = (Returned (map (chunkIdOf rel) (seq i (length chunks))),
       setOperationCount (operationCount w + N.of_nat (length chunks))%N
         (setIndex (setItems (storeInto rel i chunks (items (index w))) (index w))
            (setFiles (textsInto rel i chunks (now w) (files w)) w))).
Proof.
  induction chunks as [|chunk chunks IH]; intros i w Hc rel.
  - cbn [storeLoop length seq map storeInto textsInto].
    unfold ret. f_equal. world_eq.
    + symmetry. apply setItems_same.
    + cbn. lia.
  - cbn [storeLoop]. rewrite (bind_run _ _ _ _ _ (storeOne_run path i chunk w Hc)).
    fold rel.
    set (w1 := setOperationCount _ _).
    rewrite (bind_run _ _ _ _ _ (IH (S i) w1 Hc)).
    unfold ret. cbn [length seq map storeInto textsInto]. f_equal.
    subst w1. world_eq. lia.
Qed.

Lemma textsInto_other (rel : string) (chunks : list Embedded) (t : Z) (p : string) :
  startsWith p (TEXT_FILES_DIR +:+ "/") = false ->
  forall (k : nat) (fs : gmap string FileNode),
    textsInto rel k chunks t fs !! p = fs !! p.
Proof.
  intros Hp. induction chunks as [|chunk chunks IH]; intros k fs; [done|].
  cbn [textsInto]. rewrite IH. apply lookup_insert_ne. intros <-.
  unfold textFileOf in Hp. rewrite <- append_assoc in Hp. unfold startsWith in Hp.
  by rewrite prefix_append in Hp.
Qed.

(** *** What the loop leaves in the index *)

Lemma storeInto_old (rel : string) (chunks : list Embedded) :
  forall (k : nat) (l : list VectorRecord) (r : VectorRecord),
    r ∈ l -> (forall j, (k <= j)%nat -> recId r <> chunkIdOf rel j) ->
    r ∈ storeInto rel k chunks l.
Proof.
  induction chunks as [|chunk chunks IH]; intros k l r Hr Hid; [done|].
  cbn [storeInto]. apply IH.
  - apply elem_of_app. left. apply list_elem_of_In, filter_In.
    split; [by apply list_elem_of_In|].
    apply negb_true_iff, not_true_is_false. intros Heq.
    apply String.eqb_eq in Heq. by apply (Hid k).
  - intros j Hj. apply Hid. lia.
Qed.

Lemma storeInto_new (rel : string) (chunks : list Embedded) :
  forall (k : nat) (l : list VectorRecord) (i : nat) (chunk : Embedded),
    chunks !! i = Some chunk ->
    vectorData (chunkIdOf rel (k + i)) chunk ∈ storeInto rel k chunks l.
Proof.
  induction chunks as [|c chunks IH]; intros k l i chunk Hi; [done|].
  cbn [storeInto]. destruct i as [|i].
  - injection Hi as ->. rewrite Nat.add_0_r. apply storeInto_old.
    + apply elem_of_app. right. apply list_elem_of_singleton. done.
    + intros j Hj Heq. cbn [vectorData recId] in Heq.
      apply chunkIdOf_inj in Heq. lia.
  - replace (k + S i)%nat with (S k + i)%nat by lia. by apply IH.
Qed.

Lemma storeInto_origin (rel : string) (chunks : list Embedded) :
  forall (k : nat) (l : list VectorRecord) (r : VectorRecord),
    r ∈ storeInto rel k chunks l ->
    r ∈ l
    \/ exists i chunk,
         chunks !! i = Some chunk /\ r = vectorData (chunkIdOf rel (k + i)) chunk.
Proof.
  induction chunks as [|c chunks IH]; intros k l r Hr; [by left|].
  cbn [storeInto] in Hr. apply IH in Hr as [Hr|(i & chunk & Hi & ->)].
  - apply elem_of_app in Hr as [Hr|Hr].
    + left. apply list_elem_of_In, filter_In in Hr as [Hr _].
      by apply list_elem_of_In.
    + right. apply list_elem_of_singleton in Hr as ->.
      exists 0%nat, c. by rewrite Nat.add_0_r.
  - right. exists (S i), chunk. split; [done|]. do 2 f_equal. lia.
Qed.

Lemma storeInto_unique (rel : string) (chunks : list Embedded) :
  forall (k : nat) (l : list VectorRecord) (r : VectorRecord) (i : nat)
         (chunk : Embedded),
    r ∈ storeInto rel k chunks l ->
    chunks !! i = Some chunk ->
    recId r = chunkIdOf rel (k + i) ->
    r = vectorData (chunkIdOf rel (k + i)) chunk.
Proof.
  induction chunks as [|c chunks IH]; intros k l r i chunk Hr Hi Hid; [done|].
  cbn [storeInto] in Hr. destruct i as [|i].
  - injection Hi as ->. rewrite Nat.add_0_r in *.
    apply storeInto_origin in Hr as [Hr|(j & other & _ & ->)].
    + apply elem_of_app in Hr as [Hr|Hr].
      * apply list_elem_of_In, filter_In in Hr as [_ Hr].
        unfold hasId in Hr. by rewrite Hid, String.eqb_refl in Hr.
      * by apply list_elem_of_singleton in Hr.
    + cbn [vectorData recId] in Hid. apply chunkIdOf_inj in Hid. lia.
  - replace (k + S i)%nat with (S k + i)%nat in * by lia. by eapply IH.
Qed.

(** *** The records deleted before the loop *)

Lemma distinctIds_In (ids : list string) (x : string) :
  In x (distinctIds ids) <-> In x ids.
Proof.
  induction ids as [|id ids IH]; [done|]. cbn [distinctIds In].
  rewrite filter_In, IH. destruct (String.eqb_spec x id) as [->|Hne].
  - split; [|by left]. by intros _; left.
  - split.
    + intros [->|[H _]]; [done|by right].
    + intros [->|H]; [done|]. right. done.
Qed.

Lemma dropAll_existing (path : string) (l : list VectorRecord) :
  dropAll
    (distinctIds
       (map recId (List.filter (fun v => startsWith (recId v) path) l))) l
  = notUnder path l.
Proof.
  unfold dropAll, notUnder. apply filter_ext_in. intros r Hr. f_equal.
  destruct (startsWith (recId r) path) eqn:Hs.
  - apply existsb_exists. exists (recId r). split; [|apply String.eqb_refl].
    apply distinctIds_In, in_map, filter_In. done.
  - apply not_true_is_false. intros Hex.
    apply existsb_exists in Hex as (id & Hid & Hhas).
    apply String.eqb_eq in Hhas. subst id.
    apply distinctIds_In, in_map_iff in Hid as (r' & Heq & Hr').
    apply filter_In in Hr' as [_ Hr']. rewrite Heq in Hr'. congruence.
Qed.

Lemma deleteExisting_run (h : Thrown -> M unit) (ids : list string) :
  forall w,
    updating (index w) || created (index w) = true ->
    forEach (fun id => tryCatch (deleteItem id) h) ids w
    = (Returned tt,
       setIndex (setItems (dropAll ids (items (index w))) (index w)) w).
Proof.
  induction ids as [|id ids IH]; intros w Hidx.
  - cbn [forEach]. rewrite dropAll_nil. unfold ret. f_equal.
    by rewrite setItems_same, setIndex_same.
  - cbn [forEach]. unfold mbind, M_bind, bind, tryCatch, deleteItem. rewrite Hidx.
    rewrite IH by done. f_equal. world_eq. unfold setItems. wsimpl. f_equal.
    unfold dropAll. rewrite filter_twice. apply filter_ext. intros r.
    cbn [existsb]. by rewrite negb_orb.
Qed.

(** *** The backup and the cleanup inside [storeChunks] *)

Lemma backup_run (h : Thrown -> M unit) (w : World) (c : Cache) :
  cacheReadable w c -> created (index w) = true ->
  exists T B D,
    tryCatch backupVectorStore h w
    = (Returned tt, setLastBackupTime T (setBackups B (setDirs D w))).
Proof.
  intros Hcache Hc. pose proof Hcache as [Hlock _].
  destruct (now w - lastBackupTime w <? backupInterval) eqn:Hsoon.
  - exists (lastBackupTime w), (backups w), (dirs w).
    unfold backupVectorStore. munfold. rewrite Hsoon. f_equal. by destruct w.
  - set (w1 := setBackups (ensureSnapshot (now w) (backups w)) w).
    assert (cacheReadable w1 c) as Hcache1 by done.
    apply loadCache_readable in Hcache1.
    set (written :=
           writeSnapshotVectors (now w) (items (index w))
             (writeSnapshotCache (now w) c (ensureSnapshot (now w) (backups w)))).
    exists (now w),
      (if (maxBackups <? length written)%nat
       then take maxBackups (sortNewestFirst written) else written),
      ({[VECTOR_STORE_DIR]} ∪ dirs w).
    apply tryCatch_run.
    unfold backupVectorStore. unfold mbind at 1 2, M_bind, bind at 1 2, gets.
    rewrite Hsoon. apply tryCatch_run.
    unfold mbind at 1, M_bind, bind at 1, modify. fold w1.
    rewrite (bind_run _ _ _ _ _ Hcache1).
    unfold cleanupBackups, listItems. munfold. wsimpl.
    change (index (afterLoad w1)) with (index w). rewrite Hc.
    change (backups (afterLoad w1)) with (ensureSnapshot (now w) (backups w)).
    wsimpl. fold written.
    destruct (maxBackups <? length written)%nat;
      f_equal; unfold afterLoad; subst w1; world_eq; by rewrite Hlock.
Qed.

(** *** The whole of [storeChunks] *)

Ltac run_with H := erewrite bind_run; [|exact H].
Ltac run_prim := erewrite bind_run; [|reflexivity].

Lemma cache_not_text : startsWith CACHE_FILE_PATH (TEXT_FILES_DIR +:+ "/") = false.
Proof. reflexivity. Qed.

Lemma storeChunks_run (path : string) (chunks : list Embedded) (w : World)
  (c : Cache) :
  lockObtainable w -> cacheReadable w c -> updating (index w) = false ->
  (operationCount w + N.of_nat (length chunks) < optimizationThreshold)%N ->
  let rel := relativeToCwd (env w) path in
  let stored := storeInto rel 0 chunks (notUnder path (itemsBefore w)) in
  exists w' wc t,
    storeChunks path chunks w
    = (Returned (map (chunkIdOf rel) (seq 0 (length chunks))), w')
    /\ items (index w') = dropAll (doomed (allVectorIds c) wc t stored) stored
    /\ created (index w') = true
    /\ updating (index w') = false
    /\ cacheLock w' = false
    /\ vectorStoreLock w' = false
    /\ env w' = env w
    /\ fetchCount w' = fetchCount w
    /\ now w' = lockTime w + lockTimeout
    /\ operationCount w' = (operationCount w + N.of_nat (length chunks))%N
    /\ files w' = textsInto rel 0 chunks (lockTime w + 100) (files w).
Proof.
  intros Hlock Hcache Hupd Hcount rel stored.
  pose proof Hcache as [Hfree Hfile].
  pose proof (acquireLock_obtained w Hlock) as Hacq.
  set (t0 := lockTime w) in *.
  set (w1 := setLock true true (Some (t0 + lockTimeout)) (setNow t0 w)) in Hacq.
  set (w2 := setDirs ({[TEXT_FILES_DIR]} ∪ ({[VECTOR_STORE_DIR]} ∪ dirs w)) w1).
  set (w3 := setIndex (mkIndex true (itemsBefore w) false) w2).
  assert (forall h,
            (if negb (created (index w)) then tryCatch createIndex h else ret tt) w2
            = (Returned tt, w3)) as Hcreate.
  { intros h. unfold createIndex, tryCatch, ret, itemsBefore in *. subst w3 w2 w1.
    destruct (created (index w)) eqn:Hcr0; cbn [negb]; cbv beta; wsimpl;
      rewrite ?Hcr0; f_equal; world_eq.
    - destruct (index w); cbn in *; by subst.
    - by rewrite Hupd. }
  set (w4 := setIndex (mkIndex true (itemsBefore w) true) w3).
  set (w5 := setIndex (mkIndex true (notUnder path (itemsBefore w)) true) w4).
  assert (forall h,
            forEach (fun id => tryCatch (deleteItem id) h)
              (distinctIds
                 (map recId
                    (List.filter (fun v => startsWith (recId v) path)
                       (itemsBefore w)))) w4
            = (Returned tt, w5)) as Hdel.
  { intros h. rewrite deleteExisting_run by done. by rewrite dropAll_existing. }
  set (w6 := setNow (now w5 + Z.max 0 100) w5).
  pose proof (storeLoop_run path chunks 0 w6 eq_refl) as Hloop.
  set (F := textsInto rel 0 chunks (t0 + 100) (files w)).
  assert (forall p, startsWith p (TEXT_FILES_DIR +:+ "/") = false ->
                    F !! p = files w !! p) as HF
    by (intros p Hp; by apply textsInto_other).
  cbv zeta in Hloop.
  change (relativeToCwd (env w6) path) with rel in Hloop.
  change (textsInto rel 0 chunks (now w6) (files w6)) with F in Hloop.
  change (items (index w6)) with (notUnder path (itemsBefore w)) in Hloop.
  fold stored in Hloop.
  set (w7 := setOperationCount _ _) in Hloop.
  set (w8 := setIndex (mkIndex true stored false) w7).
  assert (cacheReadable w8 c) as Hcache8.
  { split; [done|]. change (files w8) with F.
    rewrite HF by apply cache_not_text. exact Hfile. }
  destruct (backup_run
              (fun error => logProcessError "Vector Store Backup" error) w8 c
              Hcache8 eq_refl) as (T & B & D & Hbackup).
  set (w9 := setLastBackupTime T (setBackups B (setDirs D w8))) in Hbackup.
  assert (lockObtainable w9) as Hlock9.
  { right. exists (t0 + lockTimeout). split; [reflexivity|].
    change (now w9) with (t0 + 100). unfold lockTimeout. lia. }
  assert (lockTime w9 = t0 + lockTimeout) as Htime9.
  { unfold lockTime. change (vectorStoreLock w9) with true.
    change (lockTimer w9) with (Some (t0 + lockTimeout)).
    change (now w9) with (t0 + 100). unfold firstLook, lockTimeout.
    destruct (t0 + 5000 <=? t0 + 100) eqn:Hle; [apply Z.leb_le in Hle; lia|].
    replace (t0 + 100 - (t0 + 5000)) with (-4900) by lia.
    change (-4900 mod 100) with 0. lia. }
  destruct (cleanup_run w9 c Hlock9 Hcache8 eq_refl)
    as (idx & Hclean & Hitems & Hcr & Hup).
  set (w10 := setLock false false None _) in Hclean.
  assert ((if (optimizationThreshold <=? operationCount w8)%N
           then optimizeVectorStore else ret tt) w8 = (Returned tt, w8)) as Hskip.
  { replace (optimizationThreshold <=? operationCount w8)%N with false; [done|].
    symmetry. apply N.leb_gt. exact Hcount. }
  exists (setLock false false None w10), (afterLoad w9), (lockTime w9).
  split_and!.
  - unfold storeChunks. run_with Hacq. cbn [negb].
    eapply tryFinally_run; [|reflexivity].
    run_prim. run_prim. run_prim. erewrite bind_run; [|apply Hcreate].
    erewrite bind_run.
    2:{ eapply tryFinally_run.
        - run_prim. run_prim. erewrite bind_run; [|apply Hdel]. run_prim. exact Hloop.
        - reflexivity. }
    run_prim. run_with Hskip. run_with Hbackup. run_with Hclean. reflexivity.
  - exact Hitems.
  - exact Hcr.
  - exact Hup.
  - exact Hfree.
  - reflexivity.
  - reflexivity.
  - reflexivity.
  - change (now (setLock false false None w10)) with (lockTime w9). exact Htime9.
  - cbn. lia.
  - reflexivity.
Qed.

(** ** What the embedding leaves alone *)

Section Quiet.
(** An invariant that survives what the embedding does to the world: a
    line in the log, a request counted, a time recorded or forgotten by
    the rate limiter, and a sleep. *)
Context (I : World -> Prop).
Hypothesis Hlogged : forall v w, I w -> I (setLogged v w).
Hypothesis Htimestamps : forall v w, I w -> I (setTimestamps v w).
Hypothesis HfetchCount : forall v w, I w -> I (setFetchCount v w).
Hypothesis Hsleep : forall ms w, I w -> I (setNow (now w + Z.max 0 ms) w).

Lemma quiet_logLine lv msg : keeps I (logLine lv msg).
Proof. intros w Hw. by apply Hlogged. Qed.
Hint Resolve quiet_logLine : frame.
Lemma quiet_logProcessError n e : keeps I (logProcessError n e).
Proof. unfold logProcessError. frame_auto. Qed.
Lemma quiet_logWarning msg : keeps I (logWarning msg).
Proof. unfold logWarning. frame_auto. Qed.
Lemma quiet_logInfo msg : keeps I (logInfo msg).
Proof. unfold logInfo. frame_auto. Qed.
Lemma quiet_logProcessRetrying n : keeps I (logProcessRetrying n).
Proof. unfold logProcessRetrying. frame_auto. Qed.
Lemma quiet_sleep ms : keeps I (sleep ms).
Proof. intros w Hw. by apply Hsleep. Qed.
Lemma quiet_fetchEmbeddings q : keeps I (fetchEmbeddings q).
Proof. intros w Hw. by apply HfetchCount. Qed.
Hint Resolve quiet_logProcessError quiet_logWarning quiet_logInfo
  quiet_logProcessRetrying quiet_sleep quiet_fetchEmbeddings : frame.

Lemma quiet_waitForSlot : keeps I waitForSlot.
Proof.
  unfold waitForSlot, rateCleanup.
  apply keeps_bind; [apply keeps_modify; intros; by apply Htimestamps|].
  intros _. apply keeps_bind; [apply keeps_gets|]. intros t.
  apply keeps_bind; [apply keeps_gets|]. intros ts.
  apply keeps_bind.
  - destruct (_ <=? _)%nat; [apply quiet_sleep|apply keeps_ret'].
  - intros _. apply keeps_modify. intros. by apply Htimestamps.
Qed.
Hint Resolve quiet_waitForSlot : frame.

Lemma quiet_retryFrom {A} cfg (op : M A) left delay :
  keeps I op -> keeps I (retryFrom cfg op left delay).
Proof.
  intros Hop. revert delay. induction left as [|left IH]; intros delay;
    cbn [retryFrom]; frame_auto.
Qed.

Lemma quiet_retryWithBackoff {A} (op : M A) :
  keeps I op -> keeps I (retryWithBackoff op).
Proof. apply quiet_retryFrom. Qed.
Hint Resolve quiet_retryWithBackoff : frame.

Lemma quiet_embedOperation chunk : keeps I (embedOperation chunk).
Proof. unfold embedOperation. frame_auto. Qed.
Hint Resolve quiet_embedOperation : frame.

Lemma quiet_attemptLoop chunk remaining last :
  keeps I (attemptLoop chunk remaining last).
Proof.
  revert last. induction remaining as [|n IH]; intros last;
    cbn [attemptLoop]; frame_auto.
Qed.
Hint Resolve quiet_attemptLoop : frame.

Lemma quiet_embedPass chunks : keeps I (embedPass chunks).
Proof. induction chunks as [|c chunks IH]; cbn [embedPass]; frame_auto. Qed.
Hint Resolve quiet_embedPass : frame.

Lemma quiet_embedChunks fuel chunks : keeps I (embedChunks fuel chunks).
Proof.
  revert chunks. induction fuel as [|fuel IH]; intros chunks;
    cbn [embedChunks]; frame_auto.
Qed.

End Quiet.

Lemma sameStore_embedChunks (w0 : World) (fuel : nat) (chunks : list string) :
  keeps (sameStore w0) (embedChunks fuel chunks).
Proof. apply quiet_embedChunks; intros ? ? H; exact H. Qed.

(** The clock does not run backwards while the chunks are embedded. *)
Lemma clock_embedChunks (t : Z) (fuel : nat) (chunks : list string) :
  keeps (fun w => t <= now w) (embedChunks fuel chunks).
Proof.
  apply quiet_embedChunks; try (intros ? ? H; exact H).
  intros ms w H. cbn. lia.
Qed.

Lemma sameStore_refl (w : World) : sameStore w w.
Proof. unfold sameStore. by split_and!. Qed.

(** X24.  [embedChunks] works on the backend only: however it ends and
    whatever the backend answers, the files, the directories, the cache
    lock, the index, the lock of the store, the operation count, the
    backups and the queue are as they were; what may have changed is the
    clock, the request counter, the timestamps of the rate limiter and the
    log. *)
Theorem embedChunks_leaves_store (fuel : nat) (chunks : list string) (w : World) :
  sameStore w (snd (embedChunks fuel chunks w)).
Proof. apply sameStore_embedChunks, sameStore_refl. Qed.

(** ** What [storeChunks] leaves in the index *)

Lemma kept_new_record (ids : gset string) (w : World) (t : Z) (id : string)
  (chunk : Embedded) :
  keptByCleanup ids w t (vectorData id chunk) = true.
Proof.
  unfold keptByCleanup, orphanAge. cbn [vectorData recMetadata mdModifiedTime default].
  rewrite Z.sub_diag. apply orb_true_r.
Qed.

Lemma stored_survive (rel : string) (chunks : list Embedded) (l : list VectorRecord)
  (ids : gset string) (wc : World) (t : Z) (i : nat) (chunk : Embedded) :
  chunks !! i = Some chunk ->
  let stored := storeInto rel 0 chunks l in
  vectorData (chunkIdOf rel i) chunk ∈ dropAll (doomed ids wc t stored) stored.
Proof.
  intros Hi stored. apply dropAll_elem. split.
  - by apply (storeInto_new rel chunks 0 l i chunk).
  - intros Hdoomed. unfold doomed in Hdoomed.
    apply list_elem_of_In, in_map_iff in Hdoomed as (r & Hid & Hr).
    apply filter_In in Hr as [Hr Hkept]. apply list_elem_of_In in Hr.
    cbn [vectorData recId] in Hid.
    apply (storeInto_unique rel chunks 0 l r i chunk) in Hr; [|done|done].
    cbn [Nat.add] in Hr. subst r. by rewrite kept_new_record in Hkept.
Qed.

(** X25.  [storeChunks] with the lock to be had, the cache readable, no
    update of the index in progress and the operation count below the
    threshold of the optimization: it returns the ids [rel::0], [rel::1],
    ... of the chunks, [rel] being the path relative to the working
    directory; the index then holds, for the chunk at each position, the
    record with that id, the vector of the chunk and the [documentId] of
    its text file, and no other record with that id; every other record
    of the index was there before under an id that does not start with
    the path as it was given (a record of the note whose id does not
    start with it, as when the path is given in absolute form, stays);
    the lock is free again; and no path outside the directory of the
    store has changed. *)
Theorem storeChunks_replaces_records (path : string) (chunks : list Embedded)
  (w : World) (c : Cache) :
  lockObtainable w -> cacheReadable w c -> updating (index w) = false ->
  (operationCount w + N.of_nat (length chunks) < optimizationThreshold)%N ->
  let rel := relativeToCwd (env w) path in
  let w' := snd (storeChunks path chunks w) in
  fst (storeChunks path chunks w)
  = Returned (map (chunkIdOf rel) (seq 0 (length chunks)))
  /\ (forall i chunk, chunks !! i = Some chunk ->
        vectorData (chunkIdOf rel i) chunk ∈ items (index w'))
  /\ (forall r i chunk, r ∈ items (index w') -> chunks !! i = Some chunk ->
        recId r = chunkIdOf rel i -> r = vectorData (chunkIdOf rel i) chunk)
  /\ (forall r, r ∈ items (index w') ->
        (exists i chunk, chunks !! i = Some chunk
                         /\ r = vectorData (chunkIdOf rel i) chunk)
        \/ (r ∈ items (index w) /\ startsWith (recId r) path = false))
  /\ vectorStoreLock w' = false
  /\ (forall p, outsideStore p -> files w' !! p = files w !! p).
Proof.
  intros Hlock Hcache Hupd Hcount rel w'.
  destruct (storeChunks_run path chunks w c Hlock Hcache Hupd Hcount)
    as (w1 & wc & t & Hrun & Hitems & _ & _ & _ & Hfree & _ & _ & _ & _ & Hfiles).
  subst w'. rewrite Hrun. cbn [fst snd]. fold rel in Hitems, Hfiles.
  rewrite Hitems.
  split_and!; try done.
  - intros i chunk Hi. by apply stored_survive.
  - intros r i chunk Hr Hi Hid. apply dropAll_elem in Hr as [Hr _].
    by apply (storeInto_unique rel chunks 0 _ r i chunk) in Hr.
  - intros r Hr. apply dropAll_elem in Hr as [Hr _].
    apply storeInto_origin in Hr as [Hr|Hr]; [right|by left].
    unfold notUnder in Hr. apply list_elem_of_In, filter_In in Hr as [Hr Hs].
    apply negb_true_iff in Hs. split; [|done].
    unfold itemsBefore in Hr. destruct (created (index w)); [|done].
    by apply list_elem_of_In.
  - intros p Hp%outsideStore_texts. rewrite Hfiles. by apply textsInto_other.
Qed.

Lemma storeChunks_replaces_records_witness :
  fst (storeChunks "vault/a.md" [mkEmbedded [] "# A"; mkEmbedded [] "# B"]
         (setIndex (mkIndex true [recordAt "vault/a.md::7" None;
                                  recordAt "vault/b.md::0" None] false)
            (freshWorld (envWith backendDown) 90000000)))
  = Returned [chunkIdOf "vault/a.md" 0; chunkIdOf "vault/a.md" 1]
  /\ map recId
       (items (index (snd (storeChunks "vault/a.md"
           [mkEmbedded [] "# A"; mkEmbedded [] "# B"]
           (setIndex (mkIndex true [recordAt "vault/a.md::7" None;
                                    recordAt "vault/b.md::0" None] false)
              (freshWorld (envWith backendDown) 90000000))))))
     = ["vault/b.md::0"; "vault/a.md::0"; "vault/a.md::1"].
Proof.
  split.
  - apply (storeChunks_replaces_records "vault/a.md"
             [mkEmbedded [] "# A"; mkEmbedded [] "# B"]
             (setIndex (mkIndex true [recordAt "vault/a.md::7" None;
                                      recordAt "vault/b.md::0" None] false)
                (freshWorld (envWith backendDown) 90000000)) ∅).
    + by left.
    + by split.
    + reflexivity.
    + by vm_compute.
  - by vm_compute.
Defined.

(** ** Indexing a note *)

Lemma embedAll_length (e : Env) (n : nat) (chunks : list string) :
  length (embedAll e n chunks) = length chunks.
Proof. by rewrite <- (embedAll_text e n chunks) at 2; rewrite length_map. Qed.

Lemma embedAll_lookup (e : Env) (chunks : list string) :
  forall (n i : nat) (chunk : string),
    chunks !! i = Some chunk ->
    embedAll e n chunks !! i
    = Some (mkEmbedded (embeddingOf (backend e (n + i) chunk)) chunk).
Proof.
  induction chunks as [|c chunks IH]; intros n i chunk Hi; [done|].
  destruct i as [|i]; cbn [embedAll].
  - injection Hi as ->. by rewrite Nat.add_0_r.
  - change ((?x :: ?l) !! S i) with (l !! i).
    rewrite (IH (S n) i chunk Hi). do 4 f_equal. lia.
Qed.

Lemma embedChunks_healthy_run (fuel : nat) (chunks : list string) (w : World) :
  backendHealthy (env w) ->
  exists w',
    embedChunks (S fuel) chunks w
    = (Returned (embedAll (env w) (fetchCount w) chunks), w')
    /\ sameStore w w'
    /\ now w <= now w'
    /\ fetchCount w' = (fetchCount w + length chunks)%nat.
Proof.
  intros Hok.
  pose proof (sameStore_embedChunks w (S fuel) chunks w (sameStore_refl w)) as Hsame.
  pose proof (clock_embedChunks (now w) (S fuel) chunks w (Z.le_refl _)) as Hclock.
  destruct chunks as [|chunk chunks].
  - eexists. split; [reflexivity|]. split_and!; [exact Hsame|exact Hclock|]. cbn. lia.
  - destruct (embedPass_healthy (chunk :: chunks) w Hok) as (w' & Hpass & _ & Hcount).
    assert (embedChunks (S fuel) (chunk :: chunks) w
            = (Returned (embedAll (env w) (fetchCount w) (chunk :: chunks)), w'))
      as Hrun by (cbn [embedChunks]; by rewrite (bind_run _ _ _ _ _ Hpass)).
    rewrite Hrun in Hsame, Hclock. by exists w'.
Qed.

(** X26.  An [add] event for a note that the cache does not know, or knows
    with another fingerprint, with a backend that answers every request,
    the lock to be had, the cache readable and the operation count below
    the threshold of the optimization: the processing returns; the cache
    file then holds the old cache with the entry of the note replaced by
    its fingerprint, the ids [rel::0], [rel::1], ... of its chunks and its
    modification time; the index holds for every chunk the record with its
    id, the vector the backend gave for it and the [documentId] of its
    text file; one request went to the backend for each chunk; and both
    locks are free. *)
Theorem add_indexes_note (fuel : nat) (path : string) (w : World)
  (node : FileNode) (c : Cache) :
  files w !! path = Some node ->
  lockObtainable w -> cacheReadable w c -> updating (index w) = false ->
  backendHealthy (env w) ->
  contentHash <$> c !! path <> Some (sha256hex (env w) (content node)) ->
  let chunks := Chunker.chunkFile path (content node) in
  (operationCount w + N.of_nat (length chunks) < optimizationThreshold)%N ->
  let rel := relativeToCwd (env w) path in
  let ids := map (chunkIdOf rel) (seq 0 (length chunks)) in
  let w' := snd (dispatchEvent (S fuel) "add" path w) in
  fst (dispatchEvent (S fuel) "add" path w) = Returned tt
  /\ cacheOnDisk w'
     = Some (<[path := mkEntry (sha256hex (env w) (content node)) ids (mtime node)]> c)
  /\ (forall i chunk, chunks !! i = Some chunk ->
        mkRecord (chunkIdOf rel i)
          (embeddingOf (backend (env w) (fetchCount w + i) chunk))
          (storedMetadata (chunkIdOf rel i))
        ∈ items (index w'))
  /\ fetchCount w' = (fetchCount w + length chunks)%nat
  /\ vectorStoreLock w' = false
  /\ cacheLock w' = false.
Proof.
  intros Hnode Hlock Hcache Hupd Hok Hnew chunks Hcount rel ids w'.
  pose proof Hcache as [Hfree Hfile].
  set (hash := sha256hex (env w) (content node)) in *.
  set (wA := afterLoad w).
  destruct (embedChunks_healthy_run fuel chunks wA Hok)
    as (w1 & Hembed & Hsame & Hclock & Hfetch).
  change (now wA) with (now w) in Hclock.
  set (embeddings := embedAll (env w) (fetchCount w) chunks) in *.
  change (env wA) with (env w) in Hembed. change (fetchCount wA) with (fetchCount w) in *.
  fold embeddings in Hembed.
  destruct Hsame as (Henv & Hfiles & _ & Hcl & Hidx & Hvl & _ & Hlp & Hoc & _).
  unfold wA, afterLoad in Henv, Hfiles, Hcl, Hidx, Hvl, Hlp, Hoc. wsimpl.
  destruct (storeChunks_run path embeddings w1 c) as
    (w2 & wc & t & Hstore & Hitems & _ & _ & Hfree2 & Hlock2 & Henv2 & Hfetch2 & _).
  { destruct Hlock as [Hdown|(due & Hdue & Hsoon)]; [left; by rewrite Hvl|].
    right. exists due. split; [by rewrite Hlp|]. lia. }
  { unfold cacheReadable. by rewrite Hcl, Hfiles. }
  { by rewrite Hidx. }
  { rewrite Hoc. unfold embeddings. by rewrite embedAll_length. }
  rewrite Henv in Hstore, Hitems. fold rel in Hstore, Hitems.
  unfold embeddings in Hstore at 2. rewrite embedAll_length in Hstore.
  fold ids in Hstore.
  set (cache' := <[path := mkEntry hash ids (mtime node)]> c).
  assert (processFile (S fuel) path w = (Returned tt, afterSave cache' w2)) as Hrun.
  { unfold processFile. apply tryCatch_run.
    erewrite bind_run; [|unfold statMtime; by rewrite Hnode].
    erewrite bind_run; [|apply tryCatch_run, loadCache_readable, Hcache].
    erewrite bind_run; [|unfold readFile; change (files (afterLoad w)) with (files w);
                         by rewrite Hnode].
    run_prim. cbv zeta. change (sha256hex (env (afterLoad w)) (content node)) with hash.
    assert ((embeddings0 ← embedChunks (S fuel) chunks ;
             vectorIds' ← storeChunks path embeddings0 ;
             tryCatch
               (saveCache (<[path := mkEntry hash vectorIds' (mtime node)]> c))
               (fun error => logProcessError "Cache Save" error)) wA
            = (Returned tt, afterSave cache' w2)) as Hreindex.
    { run_with Hembed. run_with Hstore. apply tryCatch_run.
      by apply saveCache_run. }
    destruct (c !! path) as [cached|] eqn:Hcached; [|exact Hreindex].
    assert (String.eqb (contentHash cached) hash = false) as Hne.
    { apply String.eqb_neq. intros Heq. apply Hnew. cbn. by rewrite Heq. }
    rewrite Hne, andb_false_r. exact Hreindex. }
  subst w'. change (dispatchEvent (S fuel) "add" path) with (processFile (S fuel) path).
  rewrite Hrun. cbn [fst snd]. split_and!.
  - done.
  - apply cacheOnDisk_afterSave_fixed. apply cacheAsRead_insert.
    by apply (cacheReadable_fixed w).
  - intros i chunk Hi. change (index (afterSave cache' w2)) with (index w2).
    rewrite Hitems.
    apply (stored_survive rel embeddings _ _ _ _ i
             (mkEmbedded (embeddingOf (backend (env w) (fetchCount w + i) chunk)) chunk)).
    by apply embedAll_lookup.
  - change (fetchCount (afterSave cache' w2)) with (fetchCount w2).
    by rewrite Hfetch2, Hfetch.
  - exact Hlock2.
  - reflexivity.
Qed.

Lemma add_indexes_note_witness :
  fst (dispatchEvent 1 "add" "vault/a.md" vaultWorld) = Returned tt
  /\ cacheOnDisk (snd (dispatchEvent 1 "add" "vault/a.md" vaultWorld))
     = Some {[ "vault/a.md" :=
                 mkEntry ("sha256:" +:+ "# A" +:+ nl +:+ "foo")
                   [chunkIdOf "vault/a.md" 0] 5 ]}
  /\ fetchCount (snd (dispatchEvent 1 "add" "vault/a.md" vaultWorld)) = 1%nat.
Proof.
  destruct (add_indexes_note 0 "vault/a.md" vaultWorld
              (mkFile ("# A" +:+ nl +:+ "foo") 5) ∅)
    as (Hret & Hdisk & _ & Hcount & _).
  - reflexivity.
  - by left.
  - by split.
  - reflexivity.
  - intros n prompt. reflexivity.
  - by vm_compute.
  - by vm_compute.
  - split_and!; [exact Hret|exact Hdisk|exact Hcount].
Defined.

(** ** The text files *)

Lemma append_inj_l (s a b : string) : a +:+ s = b +:+ s -> a = b.
Proof.
  revert b. induction a as [|x a IH]; intros [|y b] H.
  - done.
  - apply (f_equal String.length) in H. rewrite append_empty_l in H.
    rewrite length_append in H. cbn in H. lia.
  - apply (f_equal String.length) in H. rewrite append_empty_l in H.
    rewrite length_append in H. cbn in H. lia.
  - rewrite !append_cons in H. injection H as -> H. f_equal. by apply IH.
Qed.

Lemma replaceChars_append (cls : ascii -> bool) (rep a b : string) :
  replaceChars cls rep (a +:+ b)
  = replaceChars cls rep a +:+ replaceChars cls rep b.
Proof.
  induction a as [|x a IH]; [done|]. rewrite append_cons.
  cbn [replaceChars]. by rewrite IH, append_assoc.
Qed.

Lemma uint_text_plain (d : Decimal.uint) :
  replaceChars isPathSeparator "_" (NilEmpty.string_of_uint d)
  = NilEmpty.string_of_uint d
  /\ replaceFirst "vault/" "" (NilEmpty.string_of_uint d)
     = NilEmpty.string_of_uint d.
Proof.
  induction d as [|d [IH1 IH2]|d [IH1 IH2]|d [IH1 IH2]|d [IH1 IH2]|d [IH1 IH2]
                  |d [IH1 IH2]|d [IH1 IH2]|d [IH1 IH2]|d [IH1 IH2]|d [IH1 IH2]];
    [done|..];
    (split;
     [ cbn [NilEmpty.string_of_uint replaceChars]; rewrite IH1; reflexivity
     | cbn [NilEmpty.string_of_uint]; cbn [replaceFirst];
       change (String.prefix "vault/" (String _ _)) with false in *;
       cbv iota; by rewrite IH2 ]).
Qed.

Lemma numberText_plain (z : Z) :
  replaceChars isPathSeparator "_" (Json.numberText z) = Json.numberText z
  /\ replaceFirst "vault/" "" (Json.numberText z) = Json.numberText z.
Proof.
  unfold Json.numberText, NilZero.string_of_int, NilZero.string_of_uint.
  destruct (Z.to_int z) as [d|d].
  - destruct d; [done|..]; apply uint_text_plain.
  - assert (replaceChars isPathSeparator "_"
              match d with Decimal.Nil => "0" | _ => NilEmpty.string_of_uint d end
            = match d with Decimal.Nil => "0" | _ => NilEmpty.string_of_uint d end
            /\ replaceFirst "vault/" ""
                 match d with Decimal.Nil => "0" | _ => NilEmpty.string_of_uint d end
               = match d with Decimal.Nil => "0" | _ => NilEmpty.string_of_uint d end)
      as [H1 H2] by (destruct d; [done|..]; apply uint_text_plain).
    split.
    + cbn [replaceChars]. by rewrite H1.
    + cbn [replaceFirst].
      change (String.prefix "vault/" (String "-" _)) with false. cbv iota.
      by rewrite H2.
Qed.

Lemma prefix_before_colon (pat : string) :
  (forall c, In c (list_ascii_of_string pat) -> c <> ":"%char) ->
  forall rel t,
    String.prefix pat (rel +:+ String ":" t) = String.prefix pat rel.
Proof.
  induction pat as [|p pat IH]; intros Hpat rel t; [by destruct rel|].
  destruct rel as [|r rel].
  - rewrite append_empty_l. cbn [String.prefix].
    destruct (ascii_dec p ":") as [->|]; [|done].
    exfalso. by apply (Hpat ":"%char); [left|].
  - rewrite append_cons. cbn [String.prefix].
    destruct (ascii_dec p r); [|done]. apply IH.
    intros c Hc. apply Hpat. by right.
Qed.

Lemma prefix_length (pat s : string) :
  String.prefix pat s = true -> (String.length pat <= String.length s)%nat.
Proof.
  revert s. induction pat as [|p pat IH]; intros s H; [cbn; lia|].
  destruct s as [|c s]; [done|]. cbn [String.prefix] in H.
  destruct (ascii_dec p c); [|done]. apply IH in H. cbn. lia.
Qed.

Lemma dropS_append_le (n : nat) (s t : string) :
  (n <= String.length s)%nat -> dropS n (s +:+ t) = dropS n s +:+ t.
Proof.
  revert s. induction n as [|n IH]; intros s Hn; [done|].
  destruct s as [|c s]; [cbn in Hn; lia|]. rewrite append_cons. cbn [dropS].
  apply IH. cbn in Hn. lia.
Qed.

Lemma replaceFirst_before_colon (pat rep : string) (t : string) :
  (forall c, In c (list_ascii_of_string pat) -> c <> ":"%char) ->
  pat <> EmptyString ->
  replaceFirst pat rep (String ":" t) = String ":" t ->
  forall rel,
    replaceFirst pat rep (rel +:+ String ":" t)
    = replaceFirst pat rep rel +:+ String ":" t.
Proof.
  intros Hpat Hne Htail. induction rel as [|r rel IH].
  - rewrite append_empty_l, Htail. destruct pat; [done|]. done.
  - rewrite append_cons.
    assert (String.prefix pat (String r (rel +:+ String ":" t))
            = String.prefix pat (String r rel)) as Hpre
      by (rewrite <- append_cons; by apply prefix_before_colon).
    cbn [replaceFirst]. rewrite Hpre.
    destruct (String.prefix pat (String r rel)) eqn:Hfound.
    + rewrite <- append_cons, dropS_append_le by (by apply prefix_length).
      by rewrite append_assoc.
    + by rewrite IH, append_cons.
Qed.

(** The name of the text file of a chunk id: the name for the path, two
    underscores for the two colons, and the number. *)
Lemma normalize_chunkId (rel : string) (i : nat) :
  normalizePathForStorage (chunkIdOf rel i)
  = normalizePathForStorage rel +:+ "__" +:+ Json.numberText (Z.of_nat i).
Proof.
  unfold normalizePathForStorage, chunkIdOf.
  destruct (numberText_plain (Z.of_nat i)) as [Hchars Hfirst].
  change (rel +:+ "::" +:+ Json.numberText (Z.of_nat i))
    with (rel +:+ String ":" (String ":" (Json.numberText (Z.of_nat i)))).
  rewrite replaceFirst_before_colon.
  - rewrite replaceChars_append. f_equal. cbn [replaceChars].
    by rewrite Hchars.
  - intros c Hc. cbn in Hc. intuition (subst; done).
  - done.
  - cbn [replaceFirst].
    change (String.prefix "vault/" (String ":" _)) with false. cbv iota.
    by rewrite Hfirst.
Qed.

Lemma textFileOf_inj (rel : string) (i j : nat) :
  textFileOf (chunkIdOf rel i) = textFileOf (chunkIdOf rel j) -> i = j.
Proof.
  unfold textFileOf. rewrite !normalize_chunkId. intros H.
  apply append_inj_r, append_inj_r in H.
  rewrite <- !append_assoc in H. apply append_inj_l in H.
  apply append_inj_r, numberText_inj in H. lia.
Qed.

Lemma textsInto_keep (rel : string) (chunks : list Embedded) (t : Z) (p : string) :
  forall (k : nat) (fs : gmap string FileNode),
    (forall j, (k <= j)%nat -> p <> textFileOf (chunkIdOf rel j)) ->
    textsInto rel k chunks t fs !! p = fs !! p.
Proof.
  induction chunks as [|chunk chunks IH]; intros k fs Hp; [done|].
  cbn [textsInto]. rewrite IH by (intros j Hj; apply Hp; lia).
  apply lookup_insert_ne. intros Heq. by apply (Hp k).
Qed.

Lemma textsInto_lookup (rel : string) (chunks : list Embedded) (t : Z) :
  forall (k : nat) (fs : gmap string FileNode) (i : nat) (chunk : Embedded),
    chunks !! i = Some chunk ->
    textsInto rel k chunks t fs !! textFileOf (chunkIdOf rel (k + i))
    = Some (mkFile (text chunk) t).
Proof.
  induction chunks as [|c chunks IH]; intros k fs i chunk Hi; [done|].
  cbn [textsInto]. destruct i as [|i].
  - injection Hi as ->. rewrite Nat.add_0_r. rewrite textsInto_keep.
    + apply lookup_insert_eq.
    + intros j Hj Heq. apply textFileOf_inj in Heq. lia.
  - replace (k + S i)%nat with (S k + i)%nat by lia. by apply IH.
Qed.

(** X27.  What [storeChunks] stores, the search reads back.  After
    [storeChunks], run with the lock to be had, the cache readable, no
    update of the index in progress and the operation count below the
    threshold of the optimization, the record of the chunk at each
    position is in the index, its text file holds the text of the chunk
    (written 100 ms after the lock was obtained, which with a free lock is
    100 ms after the call), and the step of [searchContent] that loads the
    text of a result gives that text for the record and changes nothing. *)
Theorem stored_text_is_read_back (path : string) (chunks : list Embedded)
  (w : World) (c : Cache) (i : nat) (chunk : Embedded) (s : float) :
  lockObtainable w -> cacheReadable w c -> updating (index w) = false ->
  (operationCount w + N.of_nat (length chunks) < optimizationThreshold)%N ->
  chunks !! i = Some chunk ->
  let rel := relativeToCwd (env w) path in
  let w' := snd (storeChunks path chunks w) in
  let result := mkScored (vectorData (chunkIdOf rel i) chunk) s in
  item result ∈ items (index w')
  /\ files w' !! textFileOf (chunkIdOf rel i)
     = Some (mkFile (text chunk) (lockTime w + 100))
  /\ (vectorStoreLock w = false -> lockTime w = now w)
  /\ loadText result w' = (Returned (withText (text chunk) result), w').
Proof.
  intros Hlock Hcache Hupd Hcount Hi rel w' result.
  destruct (storeChunks_run path chunks w c Hlock Hcache Hupd Hcount)
    as (w1 & wc & t & Hrun & Hitems & _ & _ & _ & _ & _ & _ & _ & _ & Hfiles).
  subst w'. rewrite Hrun. cbn [fst snd]. fold rel in Hitems, Hfiles.
  assert (files w1 !! textFileOf (chunkIdOf rel i)
          = Some (mkFile (text chunk) (lockTime w + 100))) as Hfile
    by (rewrite Hfiles; by apply (textsInto_lookup rel chunks _ 0)).
  split_and!.
  - rewrite Hitems. by apply stored_survive.
  - exact Hfile.
  - unfold lockTime. by intros ->.
  - unfold loadText, result.
    cbn [item vectorData recMetadata mdFields]. rewrite lookup_singleton_eq.
    change (String.eqb ("text_files/" +:+ _) EmptyString) with false. cbv iota.
    unfold readFile, tryCatch, mbind, M_bind, bind.
    change (VECTOR_STORE_DIR +:+ "/" +:+ ("text_files/" +:+
              normalizePathForStorage (chunkIdOf rel i)) +:+ ".txt")
      with (textFileOf (chunkIdOf rel i)).
    by rewrite Hfile.
Qed.

Lemma stored_text_is_read_back_witness :
  loadText (mkScored (vectorData (chunkIdOf "vault/a.md" 1) (mkEmbedded [] "# B")) 1)
    (snd (storeChunks "vault/a.md" [mkEmbedded [] "# A"; mkEmbedded [] "# B"]
            (freshWorld (envWith backendDown) 0)))
  = (Returned
       (withText "# B"
          (mkScored (vectorData (chunkIdOf "vault/a.md" 1) (mkEmbedded [] "# B")) 1)),
     snd (storeChunks "vault/a.md" [mkEmbedded [] "# A"; mkEmbedded [] "# B"]
            (freshWorld (envWith backendDown) 0))).
Proof.
  apply (stored_text_is_read_back "vault/a.md"
           [mkEmbedded [] "# A"; mkEmbedded [] "# B"]
           (freshWorld (envWith backendDown) 0) ∅ 1 (mkEmbedded [] "# B") 1).
  - by left.
  - by split.
  - reflexivity.
  - by vm_compute.
  - reflexivity.
Defined.
